(** * sshtunnel: a shallow embedding of golang/sshtunnel/ssh_tunnel.go

    The Go package keeps one shared [*SSHTunnel] that several goroutines
    read and write, and talks to the outside world through the [ssh],
    [net], [io], [time] and [log] packages.  The embedding has three
    layers:

    - the data of the package ([SSHTunnel], errors, handles);
    - the functions of the package, written once as programs ([prog])
      over the operations they perform: loads and stores of the struct's
      fields, [sync] operations, calls into the libraries, [go]
      statements and [for] loops;
    - an interleaving semantics ([step]) that runs a pool of goroutines
      against the shared struct, with the libraries' answers supplied by
      the environment.  Running one goroutine alone ([run_thread]) gives
      the sequential reading of a function. *)

From Stdlib Require Import ZArith String List Bool Lia.
From stdpp Require Import base list relations strings.

Set Default Proof Using "Type".

(** ** Data *)

(** Go [error] values the package tells apart: it compares with [io.EOF]
    by identity and asks [errors.Is] for [io.EOF] and
    [os.ErrDeadlineExceeded]; every other error is a message, possibly
    wrapping another error. *)
Inductive error : Type :=
| EOF
| ErrDeadlineExceeded
| ErrNew (msg : string)
| ErrWrap (msg : string) (inner : error).

#[global] Instance error_eq_dec : EqDecision error.
Proof. solve_decision. Defined.

(** [err != io.EOF] *)
Definition neq_EOF (err : error) : bool :=
  match err with EOF => false | _ => true end.

(** [errors.Is(err, target)] for the two sentinel targets of the package:
    the chain of wrapped errors is searched. *)
Fixpoint errors_Is (err target : error) : bool :=
  if bool_decide (err = target) then true
  else match err with
       | ErrWrap _ inner => errors_Is inner target
       | _ => false
       end.

(** A Go call returning [(value, error)]. *)
Inductive result (A : Type) : Type :=
| Ok (a : A)
| Err (err : error).
Arguments Ok {A} a.
Arguments Err {A} err.

(** Handles of the collaborating libraries: [*ssh.Client], [net.Listener]
    and [net.Conn] values are told apart by an identifier. *)
Inductive Client : Type := mkClient (id : nat).
Inductive Listener : Type := mkListener (id : nat).
Inductive Conn : Type := mkConn (id : nat).

#[global] Instance Client_eq_dec : EqDecision Client.
Proof. solve_decision. Defined.
#[global] Instance Listener_eq_dec : EqDecision Listener.
Proof. solve_decision. Defined.
#[global] Instance Conn_eq_dec : EqDecision Conn.
Proof. solve_decision. Defined.

(** [*ssh.ClientConfig] as main.go builds it: a user and password
    authentication, host keys not checked. *)
Record ClientConfig : Type := mkClientConfig {
  User : string;
  Password : string;
}.

(** The [logger] field holds a function value: [log.Printf], the empty
    function of [SetNoLogger], or one the caller supplied. *)
Inductive LoggerFn : Type :=
| LogPrintf
| NoLogger
| CustomLogger (id : nat).

(** [time.Duration] counts nanoseconds in an int64; instants of
    [time.Time] are counted in nanoseconds as well. *)
Definition Duration : Type := Z.
Definition Nanosecond : Duration := 1%Z.
Definition Second : Duration := 1000000000%Z.
Definition Minute : Duration := (60 * Second)%Z.

(** [type SSHTunnel struct].  [wg] and [mx] point to a [sync.WaitGroup]
    and a [sync.Mutex] that are allocated once by [NewSSHTunnel] and
    never reassigned; the fields hold the state of the object pointed
    to: the wait group's counter and whether the mutex is locked. *)
Record SSHTunnel : Type := mkSSHTunnel {
  sshConfig : ClientConfig;
  host : string;
  sshClient : option Client;
  netNetwork : string;
  netAddress : string;
  sshNetwork : string;
  sshAddress : string;
  listener : option Listener;
  closed : bool;
  attemptSleepTime : Duration;
  ioTimeout : Duration;
  logger : LoggerFn;
  wg : Z;
  mx : bool;
}.

(** [func NewSSHTunnel(sshConfig, host, localPort, remotePort)] *)
Definition NewSSHTunnel (sshConfig : ClientConfig) (host localPort remotePort : string)
  : SSHTunnel :=
  {| sshConfig := sshConfig;
     host := host;
     sshClient := None;
     netNetwork := "tcp";
     netAddress := "localhost:" +:+ localPort;
     sshNetwork := "tcp";
     sshAddress := "localhost:" +:+ remotePort;
     listener := None;
     closed := false;
     attemptSleepTime := (3 * Second)%Z;
     ioTimeout := (30 * Second)%Z;
     logger := LogPrintf;
     wg := 0%Z;
     mx := false |}.

(** ** Operations a goroutine performs *)

(** The assignable fields of the struct, by the type of their values. *)
Inductive field : Type -> Type :=
| FsshConfig : field ClientConfig
| Fhost : field string
| FsshClient : field (option Client)
| FnetNetwork : field string
| FnetAddress : field string
| FsshNetwork : field string
| FsshAddress : field string
| Flistener : field (option Listener)
| Fclosed : field bool
| FattemptSleepTime : field Duration
| FioTimeout : field Duration
| Flogger : field LoggerFn.

Definition get_field {X} (f : field X) (c : SSHTunnel) : X :=
  match f in field X return X with
  | FsshConfig => sshConfig c
  | Fhost => host c
  | FsshClient => sshClient c
  | FnetNetwork => netNetwork c
  | FnetAddress => netAddress c
  | FsshNetwork => sshNetwork c
  | FsshAddress => sshAddress c
  | Flistener => listener c
  | Fclosed => closed c
  | FattemptSleepTime => attemptSleepTime c
  | FioTimeout => ioTimeout c
  | Flogger => logger c
  end.

Definition set_field {X} (f : field X) : X -> SSHTunnel -> SSHTunnel :=
  match f in field X return X -> SSHTunnel -> SSHTunnel with
  | FsshConfig => fun v c =>
      mkSSHTunnel v (host c) (sshClient c) (netNetwork c) (netAddress c) (sshNetwork c)
        (sshAddress c) (listener c) (closed c) (attemptSleepTime c) (ioTimeout c)
        (logger c) (wg c) (mx c)
  | Fhost => fun v c =>
      mkSSHTunnel (sshConfig c) v (sshClient c) (netNetwork c) (netAddress c) (sshNetwork c)
        (sshAddress c) (listener c) (closed c) (attemptSleepTime c) (ioTimeout c)
        (logger c) (wg c) (mx c)
  | FsshClient => fun v c =>
      mkSSHTunnel (sshConfig c) (host c) v (netNetwork c) (netAddress c) (sshNetwork c)
        (sshAddress c) (listener c) (closed c) (attemptSleepTime c) (ioTimeout c)
        (logger c) (wg c) (mx c)
  | FnetNetwork => fun v c =>
      mkSSHTunnel (sshConfig c) (host c) (sshClient c) v (netAddress c) (sshNetwork c)
        (sshAddress c) (listener c) (closed c) (attemptSleepTime c) (ioTimeout c)
        (logger c) (wg c) (mx c)
  | FnetAddress => fun v c =>
      mkSSHTunnel (sshConfig c) (host c) (sshClient c) (netNetwork c) v (sshNetwork c)
        (sshAddress c) (listener c) (closed c) (attemptSleepTime c) (ioTimeout c)
        (logger c) (wg c) (mx c)
  | FsshNetwork => fun v c =>
      mkSSHTunnel (sshConfig c) (host c) (sshClient c) (netNetwork c) (netAddress c) v
        (sshAddress c) (listener c) (closed c) (attemptSleepTime c) (ioTimeout c)
        (logger c) (wg c) (mx c)
  | FsshAddress => fun v c =>
      mkSSHTunnel (sshConfig c) (host c) (sshClient c) (netNetwork c) (netAddress c)
        (sshNetwork c) v (listener c) (closed c) (attemptSleepTime c) (ioTimeout c)
        (logger c) (wg c) (mx c)
  | Flistener => fun v c =>
      mkSSHTunnel (sshConfig c) (host c) (sshClient c) (netNetwork c) (netAddress c)
        (sshNetwork c) (sshAddress c) v (closed c) (attemptSleepTime c) (ioTimeout c)
        (logger c) (wg c) (mx c)
  | Fclosed => fun v c =>
      mkSSHTunnel (sshConfig c) (host c) (sshClient c) (netNetwork c) (netAddress c)
        (sshNetwork c) (sshAddress c) (listener c) v (attemptSleepTime c) (ioTimeout c)
        (logger c) (wg c) (mx c)
  | FattemptSleepTime => fun v c =>
      mkSSHTunnel (sshConfig c) (host c) (sshClient c) (netNetwork c) (netAddress c)
        (sshNetwork c) (sshAddress c) (listener c) (closed c) v (ioTimeout c)
        (logger c) (wg c) (mx c)
  | FioTimeout => fun v c =>
      mkSSHTunnel (sshConfig c) (host c) (sshClient c) (netNetwork c) (netAddress c)
        (sshNetwork c) (sshAddress c) (listener c) (closed c) (attemptSleepTime c) v
        (logger c) (wg c) (mx c)
  | Flogger => fun v c =>
      mkSSHTunnel (sshConfig c) (host c) (sshClient c) (netNetwork c) (netAddress c)
        (sshNetwork c) (sshAddress c) (listener c) (closed c) (attemptSleepTime c)
        (ioTimeout c) v (wg c) (mx c)
  end.

Definition set_wg (v : Z) (c : SSHTunnel) : SSHTunnel :=
  mkSSHTunnel (sshConfig c) (host c) (sshClient c) (netNetwork c) (netAddress c)
    (sshNetwork c) (sshAddress c) (listener c) (closed c) (attemptSleepTime c)
    (ioTimeout c) (logger c) v (mx c).

Definition set_mx (v : bool) (c : SSHTunnel) : SSHTunnel :=
  mkSSHTunnel (sshConfig c) (host c) (sshClient c) (netNetwork c) (netAddress c)
    (sshNetwork c) (sshAddress c) (listener c) (closed c) (attemptSleepTime c)
    (ioTimeout c) (logger c) (wg c) v.

(** Loads and stores of a field of the shared struct. *)
Inductive memop : Type -> Type :=
| ReadField {X} (f : field X) : memop X
| WriteField {X} (f : field X) (v : X) : memop unit.

(** Which wait group a [sync.WaitGroup] method is called on: the
    tunnel's [c.wg], or one a proxy task allocated for its two copy
    directions. *)
Inductive wgref : Type :=
| TunnelWg
| LocalWg (id : nat).

#[global] Instance wgref_eq_dec : EqDecision wgref.
Proof. solve_decision. Defined.

(** Methods of [sync.Mutex] (always [c.mx]) and [sync.WaitGroup]. *)
Inductive syncop : Type -> Type :=
| MxLock : syncop unit
| MxUnlock : syncop unit
| WgNew : syncop wgref
| WgAdd (w : wgref) (delta : Z) : syncop unit
| WgDone (w : wgref) : syncop unit
| WgWait (w : wgref) : syncop unit.

(** An argument of a log line. *)
Inductive logarg : Type :=
| LStr (s : string)
| LErr (err : error).

(** Calls into the collaborating libraries.  Each may block; its result
    is the environment's. *)
Inductive call : Type -> Type :=
| SshDial (network addr : string) (config : ClientConfig) : call (result Client)
| ClientDial (cl : Client) (network addr : string) : call (result Conn)
| ClientListen (cl : Client) (network addr : string) : call (result Listener)
| ClientClose (cl : Client) : call (option error)
| NetDial (network addr : string) : call (result Conn)
| NetListen (network addr : string) : call (result Listener)
| ListenerAccept (l : Listener) : call (result Conn)
| ListenerClose (l : Listener) : call (option error)
| ConnClose (conn : Conn) : call (option error)
| ConnSetDeadline (conn : Conn) (t : Z) : call (option error)
| IoCopy (dst src : Conn) : call (Z * option error)
| TimeNow : call Z
| TimeSleep (d : Duration) : call unit
| Logger (fn : LoggerFn) (format : string) (v : list logarg) : call unit.

(** Programs: what a goroutine does next.  [Panic] is a run-time panic
    (here always a method call through a nil handle); [Go child k] is a
    [go] statement followed by [k]; [Loop body k] runs [body] again
    as long as it returns [true], then [k]. *)
Inductive prog (A : Type) : Type :=
| Ret (a : A)
| Panic (msg : string)
| Mem {X} (m : memop X) (k : X -> prog A)
| Sync {X} (s : syncop X) (k : X -> prog A)
| Call {X} (c : call X) (k : X -> prog A)
| Go (child : prog unit) (k : prog A)
| Loop (body : prog bool) (k : prog A).
Arguments Ret {A} a.
Arguments Panic {A} msg.
Arguments Mem {A X} m k.
Arguments Sync {A X} s k.
Arguments Call {A X} c k.
Arguments Go {A} child k.
Arguments Loop {A} body k.

Fixpoint bind {A B} (p : prog A) (f : A -> prog B) : prog B :=
  match p with
  | Ret a => f a
  | Panic msg => Panic msg
  | Mem m k => Mem m (fun x => bind (k x) f)
  | Sync s k => Sync s (fun x => bind (k x) f)
  | Call c k => Call c (fun x => bind (k x) f)
  | Go child k => Go child (bind k f)
  | Loop body k => Loop body (bind k f)
  end.

Declare Scope prog_scope.
Delimit Scope prog_scope with prog.
Bind Scope prog_scope with prog.
Notation "x <- p ;; k" := (bind p (fun x => k))
  (at level 100, p at next level, right associativity) : prog_scope.
Notation "p ;;; k" := (bind p (fun _ => k))
  (at level 100, right associativity) : prog_scope.
Local Open Scope prog_scope.

Definition readf {X} (f : field X) : prog X := Mem (ReadField f) Ret.
Definition writef {X} (f : field X) (v : X) : prog unit := Mem (WriteField f v) Ret.
Definition sync {X} (s : syncop X) : prog X := Sync s Ret.
Definition call_ {X} (c : call X) : prog X := Call c Ret.
Definition go (child : prog unit) : prog unit := Go child (Ret tt).

(** ** The functions of the package *)

(** A method call through [c.sshClient] or [c.listener]: the field is
    loaded, and a nil handle makes the call panic (nil pointer
    dereference). *)
Definition nil_deref : string := "invalid memory address or nil pointer dereference".

Definition viaClient {A} (method : Client -> prog A) : prog A :=
  cl <- readf FsshClient ;;
  match cl with
  | Some client => method client
  | None => Panic nil_deref
  end.

Definition viaListener {A} (method : Listener -> prog A) : prog A :=
  l <- readf Flistener ;;
  match l with
  | Some ln => method ln
  | None => Panic nil_deref
  end.

(** [func (c *SSHTunnel) log(format, v...)]: calls the [logger] field. *)
Definition log (format : string) (v : list logarg) : prog unit :=
  fn <- readf Flogger ;;
  call_ (Logger fn format v).

(** [if err != nil && err != io.EOF { c.log(format, err) }], the check
    after every [Close]. *)
Definition logCloseFailure (format : string) (err : option error) : prog unit :=
  match err with
  | Some e => if neq_EOF e then log format [LErr e] else Ret tt
  | None => Ret tt
  end.

(** [time.Sleep(c.attemptSleepTime)] *)
Definition sleepAttempt : prog unit :=
  d <- readf FattemptSleepTime ;;
  call_ (TimeSleep d).

(** [func (c *SSHTunnel) closeSSH()] *)
Definition closeSSH : prog unit :=
  cl <- readf FsshClient ;;
  match cl with
  | Some _ =>
      err <- viaClient (fun client => call_ (ClientClose client)) ;;
      logCloseFailure "sshClient.Close failed: %v" err ;;;
      writef FsshClient None
  | None => Ret tt
  end ;;;
  log "Closed sshClient" [].

(** [func (c *SSHTunnel) closeListener()] *)
Definition closeListener : prog unit :=
  l <- readf Flistener ;;
  match l with
  | Some _ =>
      err <- viaListener (fun ln => call_ (ListenerClose ln)) ;;
      logCloseFailure "listener.Close failed: %v" err ;;;
      writef Flistener None
  | None => Ret tt
  end ;;;
  log "Closed listener" [].

(** [func (c *SSHTunnel) closeInternal()] *)
Definition closeInternal : prog unit :=
  closeListener ;;;
  closeSSH.

(** [func (c *SSHTunnel) Close()] *)
Definition Close : prog unit :=
  writef Fclosed true ;;;
  closeInternal ;;;
  sync (WgWait TunnelWg) ;;;
  log "Close successful" [].

(** [func (c *SSHTunnel) Wait()] *)
Definition Wait : prog unit :=
  sync (WgWait TunnelWg).

(** [SetAttemptSleepTime], [SetLogger], [SetNoLogger]: each returns [c],
    which the embedding leaves implicit. *)
Definition SetAttemptSleepTime (sleepTime : Duration) : prog unit :=
  writef FattemptSleepTime sleepTime.

Definition SetLogger (fn : LoggerFn) : prog unit :=
  writef Flogger fn.

Definition SetNoLogger : prog unit :=
  SetLogger NoLogger.

(** [func (c *SSHTunnel) sshConnect() error].  The deferred
    [c.mx.Unlock()] runs at each [return]. *)
Definition sshConnect : prog (option error) :=
  sync MxLock ;;;
  closeSSH ;;;
  log "ssh.Connect..." [] ;;;
  h <- readf Fhost ;;
  config <- readf FsshConfig ;;
  r <- call_ (SshDial "tcp" h config) ;;
  match r with
  | Err err =>
      log "ssh.Connect failed: %v" [LErr err] ;;;
      sync MxUnlock ;;;
      Ret (Some err)
  | Ok client =>
      log "ssh.Connect successful" [] ;;;
      writef FsshClient (Some client) ;;;
      sync MxUnlock ;;;
      Ret None
  end.

(** [func (c *SSHTunnel) netDial() (net.Conn, error)] *)
Definition netDial : prog (result Conn) :=
  n <- readf FnetNetwork ;;
  a <- readf FnetAddress ;;
  log "net.Dial to %s/%s..." [LStr n; LStr a] ;;;
  n <- readf FnetNetwork ;;
  a <- readf FnetAddress ;;
  r <- call_ (NetDial n a) ;;
  match r with
  | Err err =>
      log "net.Dial failed: %v" [LErr err] ;;;
      Ret (Err err)
  | Ok conn =>
      log "net.Dial successful" [] ;;;
      Ret (Ok conn)
  end.

(** [c.sshClient.Dial(c.sshNetwork, c.sshAddress)] *)
Definition clientDial : prog (result Conn) :=
  viaClient (fun client =>
    n <- readf FsshNetwork ;;
    a <- readf FsshAddress ;;
    call_ (ClientDial client n a)).

(** [func (c *SSHTunnel) sshDial() (net.Conn, error)] *)
Definition sshDial : prog (result Conn) :=
  n <- readf FsshNetwork ;;
  a <- readf FsshAddress ;;
  log "ssh.Dial to %s/%s..." [LStr n; LStr a] ;;;
  cl <- readf FsshClient ;;
  match cl with
  | Some _ =>
      r <- clientDial ;;
      match r with
      | Err _ =>
          _ <- sshConnect ;;
          r' <- clientDial ;;
          match r' with
          | Err err =>
              log "ssh.Dial failed: %v" [LErr err] ;;;
              Ret (Err err)
          | Ok conn =>
              log "ssh.Dial successful" [] ;;;
              Ret (Ok conn)
          end
      | Ok conn =>
          log "ssh.Dial successful" [] ;;;
          Ret (Ok conn)
      end
  | None =>
      log "ssh.Dial failed: sshClient is nil" [] ;;;
      Ret (Err (ErrNew "sshClient is nil"))
  end.

(** [func (c *SSHTunnel) netListen() error] *)
Definition netListen : prog (option error) :=
  n <- readf FnetNetwork ;;
  a <- readf FnetAddress ;;
  log "net.Listen on %s/%s..." [LStr n; LStr a] ;;;
  n <- readf FnetNetwork ;;
  a <- readf FnetAddress ;;
  r <- call_ (NetListen n a) ;;
  match r with
  | Err err =>
      log "net.Listen failed: %v" [LErr err] ;;;
      Ret (Some err)
  | Ok ln =>
      log "net.Listen successful" [] ;;;
      writef Flistener (Some ln) ;;;
      Ret None
  end.

(** [c.sshClient.Listen(c.sshNetwork, c.sshAddress)] *)
Definition clientListen : prog (result Listener) :=
  viaClient (fun client =>
    n <- readf FsshNetwork ;;
    a <- readf FsshAddress ;;
    call_ (ClientListen client n a)).

(** [func (c *SSHTunnel) sshListen() error] *)
Definition sshListen : prog (option error) :=
  n <- readf FsshNetwork ;;
  a <- readf FsshAddress ;;
  log "ssh.Listen on %s/%s..." [LStr n; LStr a] ;;;
  cl <- readf FsshClient ;;
  match cl with
  | Some _ =>
      r <- clientListen ;;
      match r with
      | Err _ =>
          _ <- sshConnect ;;
          r' <- clientListen ;;
          match r' with
          | Err err =>
              log "ssh.Listen failed: %v" [LErr err] ;;;
              Ret (Some err)
          | Ok ln =>
              log "ssh.Listen successful" [] ;;;
              writef Flistener (Some ln) ;;;
              Ret None
          end
      | Ok ln =>
          log "ssh.Listen successful" [] ;;;
          writef Flistener (Some ln) ;;;
          Ret None
      end
  | None =>
      log "ssh.Listen failed: sshClient is nil" [] ;;;
      Ret (Some (ErrNew "sshClient is nil"))
  end.

(** [func (c *SSHTunnel) accept() (net.Conn, error)] *)
Definition accept : prog (result Conn) :=
  l <- readf Flistener ;;
  match l with
  | Some _ =>
      r <- viaListener (fun ln => call_ (ListenerAccept ln)) ;;
      match r with
      | Ok conn =>
          log "accept successful" [] ;;;
          Ret (Ok conn)
      | Err err =>
          log "accept failed: %v" [LErr err] ;;;
          Ret (Err err)
      end
  | None => Ret (Err (ErrNew "listener is nil"))
  end.

(** One copy direction of a proxy task:
    [go func(lConn, rConn) { defer wg.Done(); _, err := io.Copy(dst, src); ... }]. *)
Definition copyTask (w : wgref) (dst src : Conn) (format : string) : prog unit :=
  r <- call_ (IoCopy dst src) ;;
  match snd r with
  | Some err =>
      if negb (errors_Is err EOF) && negb (errors_Is err ErrDeadlineExceeded)
      then log format [LErr err]
      else Ret tt
  | None => Ret tt
  end ;;;
  sync (WgDone w).

(** The part of a proxy task that both tunnels share word for word, from
    the comment [// set deadline for local connection] to the end of the
    goroutine (lines 235-270 and 320-355). *)
Definition proxy (lConn rConn : Conn) : prog unit :=
  now <- call_ TimeNow ;;
  timeout <- readf FioTimeout ;;
  err <- call_ (ConnSetDeadline lConn (now + timeout)) ;;
  match err with
  | Some e => log "SetDeadline failed: %v" [LErr e]
  | None => Ret tt
  end ;;;
  w <- sync WgNew ;;
  sync (WgAdd w 2) ;;;
  go (copyTask w lConn rConn "io.Copy (1 / local -> remote) failed: %v") ;;;
  go (copyTask w rConn lConn "io.Copy (2 / remote -> local) failed: %v") ;;;
  sync (WgWait w) ;;;
  err <- call_ (ConnClose lConn) ;;
  logCloseFailure "lConn.Close failed: %v" err ;;;
  err <- call_ (ConnClose rConn) ;;
  logCloseFailure "rConn.Close failed: %v" err.

(** The body of the goroutine [ForwardTunnel] starts for an accepted
    [lConn] (lines 224-270). *)
Definition forwardConn (lConn : Conn) : prog unit :=
  r <- sshDial ;;
  match r with
  | Err _ =>
      err <- call_ (ConnClose lConn) ;;
      logCloseFailure "lConn.Close failed: %v" err ;;;
      sleepAttempt
  | Ok rConn => proxy lConn rConn
  end.

(** The goroutine itself: the body, then the deferred [c.wg.Done()]
    (lines 221-271). *)
Definition forwardTask (lConn : Conn) : prog unit :=
  forwardConn lConn ;;;
  sync (WgDone TunnelWg).

(** The body of the goroutine [ReverseTunnel] starts for an accepted
    [rConn] (lines 309-355). *)
Definition reverseConn (rConn : Conn) : prog unit :=
  r <- netDial ;;
  match r with
  | Err _ =>
      err <- call_ (ConnClose rConn) ;;
      logCloseFailure "rConn.Close failed: %v" err ;;;
      sleepAttempt
  | Ok lConn => proxy lConn rConn
  end.

(** The goroutine itself: the body, then the deferred [c.wg.Done()]
    (lines 306-356). *)
Definition reverseTask (rConn : Conn) : prog unit :=
  reverseConn rConn ;;;
  sync (WgDone TunnelWg).

(** [for !c.closed { body }]: [body] returns [true] when the iteration
    ends or hits [continue], [false] on [break]. *)
Definition for_not_closed (body : prog bool) : prog unit :=
  Loop (cl <- readf Fclosed ;; if cl : bool then Ret false else body) (Ret tt).

Definition continue : prog bool := Ret true.
Definition break : prog bool := Ret false.

(** The accept loops (lines 212-272 and 297-357). *)
Definition acceptLoop (task : Conn -> prog unit) : prog unit :=
  for_not_closed (
    r <- accept ;;
    match r with
    | Err _ =>
        closeListener ;;;
        sleepAttempt ;;;
        break
    | Ok conn =>
        sync (WgAdd TunnelWg 1) ;;;
        go (task conn) ;;;
        continue
    end).

(** The listen loop of [ForwardTunnel] (lines 205-273). *)
Definition forwardLoop : prog unit :=
  for_not_closed (
    err <- netListen ;;
    match err with
    | Some _ =>
        sleepAttempt ;;;
        continue
    | None =>
        acceptLoop forwardTask ;;;
        continue
    end).

(** The supervisory goroutine of [ForwardTunnel] (lines 198-276); the
    deferred [c.wg.Done()] comes last. *)
Definition forwardSupervisor : prog unit :=
  log "Started Tunnel" [] ;;;
  _ <- sshConnect ;;
  forwardLoop ;;;
  log "Stopped Tunnel" [] ;;;
  sync (WgDone TunnelWg).

(** [func (c *SSHTunnel) ForwardTunnel()] *)
Definition ForwardTunnel : prog unit :=
  log "Starting Tunnel" [] ;;;
  sync (WgAdd TunnelWg 1) ;;;
  go forwardSupervisor.

(** The listen loop of [ReverseTunnel] (lines 290-358). *)
Definition reverseLoop : prog unit :=
  for_not_closed (
    err <- sshListen ;;
    match err with
    | Some _ =>
        sleepAttempt ;;;
        continue
    | None =>
        acceptLoop reverseTask ;;;
        continue
    end).

(** The supervisory goroutine of [ReverseTunnel] (lines 283-361); the
    deferred [c.wg.Done()] comes last. *)
Definition reverseSupervisor : prog unit :=
  log "Started Tunnel" [] ;;;
  _ <- sshConnect ;;
  reverseLoop ;;;
  log "Stopped Tunnel" [] ;;;
  sync (WgDone TunnelWg).

(** [func (c *SSHTunnel) ReverseTunnel()] *)
Definition ReverseTunnel : prog unit :=
  log "Starting Tunnel" [] ;;;
  sync (WgAdd TunnelWg 1) ;;;
  go reverseSupervisor.

(** ** Interleaving semantics *)

(** A goroutine is about to run a program, or is inside a library call
    that has not returned yet.  [Ready (Ret tt)] has finished. *)
Inductive thread : Type :=
| Ready (p : prog unit)
| InCall {X} (c : call X) (k : X -> prog unit).

(** What a run leaves behind: calls issued and returned, [sync]
    operations, [go] statements and panics, each with the goroutine
    that performed it. *)
Inductive item : Type :=
| ICall (t : nat) {X} (c : call X)
| IRet (t : nat) {X} (c : call X) (x : X)
| ISync (t : nat) {X} (s : syncop X) (x : X)
| IGo (t child : nat)
| IPanic (t : nat) (msg : string).

(** The process: the shared struct, the wait groups the proxy tasks
    allocated, the goroutines, whether a panic has ended the process,
    and the trace, newest item first. *)
Record config : Type := mkConfig {
  tun : SSHTunnel;
  wgs : list Z;
  threads : list thread;
  crashed : bool;
  trace : list item;
}.

Definition with_tun (c : SSHTunnel) (s : config) : config :=
  mkConfig c (wgs s) (threads s) (crashed s) (trace s).
Definition with_wgs (l : list Z) (s : config) : config :=
  mkConfig (tun s) l (threads s) (crashed s) (trace s).
Definition with_threads (l : list thread) (s : config) : config :=
  mkConfig (tun s) (wgs s) l (crashed s) (trace s).
Definition set_thread (t : nat) (th : thread) (s : config) : config :=
  with_threads (<[t := th]> (threads s)) s.
Definition emit (i : item) (s : config) : config :=
  mkConfig (tun s) (wgs s) (threads s) (crashed s) (i :: trace s).
Definition crash (t : nat) (msg : string) (s : config) : config :=
  mkConfig (tun s) (wgs s) (threads s) true (IPanic t msg :: trace s).

Definition wg_counter (w : wgref) (s : config) : option Z :=
  match w with
  | TunnelWg => Some (wg (tun s))
  | LocalWg id => wgs s !! id
  end.

Definition set_wg_counter (w : wgref) (v : Z) (s : config) : config :=
  match w with
  | TunnelWg => with_tun (set_wg v (tun s)) s
  | LocalWg id => with_wgs (<[id := v]> (wgs s)) s
  end.

(** A load or a store: one atomic step. *)
Definition exec_mem (t : nat) {X} (m : memop X) : (X -> prog unit) -> config -> config :=
  match m in memop X return (X -> prog unit) -> config -> config with
  | ReadField f => fun k s => set_thread t (Ready (k (get_field f (tun s)))) s
  | WriteField f v => fun k s => set_thread t (Ready (k tt)) (with_tun (set_field f v (tun s)) s)
  end.

(** [wg.Add(delta)]: a counter that would go negative panics. *)
Definition wg_add (t : nat) (w : wgref) (delta : Z) (s : config) : option config :=
  n ← wg_counter w s;
  Some (if (n + delta <? 0)%Z then crash t "sync: negative WaitGroup counter" s
        else set_wg_counter w (n + delta) s).

(** A [sync] operation: one atomic step; [Lock] on a locked mutex and
    [Wait] on a non-zero counter cannot step ([None]). *)
Definition exec_sync (t : nat) {X} (o : syncop X) : (X -> prog unit) -> config -> option config :=
  match o in syncop X return (X -> prog unit) -> config -> option config with
  | MxLock => fun k s =>
      if mx (tun s) then None
      else Some (emit (ISync t MxLock tt)
                   (set_thread t (Ready (k tt)) (with_tun (set_mx true (tun s)) s)))
  | MxUnlock => fun k s =>
      if mx (tun s)
      then Some (emit (ISync t MxUnlock tt)
                   (set_thread t (Ready (k tt)) (with_tun (set_mx false (tun s)) s)))
      else Some (crash t "sync: unlock of unlocked mutex" s)
  | WgNew => fun k s =>
      let w := LocalWg (length (wgs s)) in
      Some (emit (ISync t WgNew w)
              (set_thread t (Ready (k w)) (with_wgs (wgs s ++ [0%Z]) s)))
  | WgAdd w delta => fun k s =>
      s' ← wg_add t w delta s;
      Some (if crashed s' then s'
            else emit (ISync t (WgAdd w delta) tt) (set_thread t (Ready (k tt)) s'))
  | WgDone w => fun k s =>
      s' ← wg_add t w (-1) s;
      Some (if crashed s' then s'
            else emit (ISync t (WgDone w) tt) (set_thread t (Ready (k tt)) s'))
  | WgWait w => fun k s =>
      n ← wg_counter w s;
      if (n =? 0)%Z
      then Some (emit (ISync t (WgWait w) tt) (set_thread t (Ready (k tt)) s))
      else None
  end.

(** What the environment may answer to a call. *)
Inductive answer : Type :=
| AUnit
| ATime (now : Z)
| AErr (err : option error)
| AClient (r : result Client)
| AConn (r : result Conn)
| AListener (r : result Listener)
| ACopy (written : Z) (err : option error).

Definition decode {X} (c : call X) (a : answer) : option X :=
  match c in call X return option X with
  | SshDial _ _ _ => match a with AClient r => Some r | _ => None end
  | ClientDial _ _ _ => match a with AConn r => Some r | _ => None end
  | ClientListen _ _ _ => match a with AListener r => Some r | _ => None end
  | ClientClose _ => match a with AErr e => Some e | _ => None end
  | NetDial _ _ => match a with AConn r => Some r | _ => None end
  | NetListen _ _ => match a with AListener r => Some r | _ => None end
  | ListenerAccept _ => match a with AConn r => Some r | _ => None end
  | ListenerClose _ => match a with AErr e => Some e | _ => None end
  | ConnClose _ => match a with AErr e => Some e | _ => None end
  | ConnSetDeadline _ _ => match a with AErr e => Some e | _ => None end
  | IoCopy _ _ => match a with ACopy n e => Some (n, e) | _ => None end
  | TimeNow => match a with ATime now => Some now | _ => None end
  | TimeSleep _ => Some tt
  | Logger _ _ _ => Some tt
  end.

(** One step of goroutine [t].  [a] is read only when [t] is inside a
    call, as the value the call returns. *)
Definition step (t : nat) (a : answer) (s : config) : option config :=
  if crashed s then None
  else
    th ← threads s !! t;
    match th with
    | Ready (Ret _) => None
    | Ready (Panic msg) => Some (crash t msg s)
    | Ready (Mem m k) => Some (exec_mem t m k s)
    | Ready (Sync o k) => exec_sync t o k s
    | Ready (Call c k) => Some (emit (ICall t c) (set_thread t (InCall c k) s))
    | Ready (Go child k) =>
        Some (emit (IGo t (length (threads s)))
                (with_threads (<[t := Ready k]> (threads s) ++ [Ready child]) s))
    | Ready (Loop body k) =>
        Some (set_thread t
                (Ready (again <- body ;; if again : bool then Loop body k else k)) s)
    | InCall c k =>
        x ← decode c a;
        Some (emit (IRet t c x) (set_thread t (Ready (k x)) s))
    end.

(** A schedule names, step by step, the goroutine that moves and the
    answer it receives. *)
Fixpoint run (sched : list (nat * answer)) (s : config) : option config :=
  match sched with
  | [] => Some s
  | (t, a) :: rest => s' ← step t a s; run rest s'
  end.

Definition step_rel (s s' : config) : Prop :=
  exists t a, step t a s = Some s'.

Definition reachable : config -> config -> Prop := rtc step_rel.

(** Whether a call needs an answer from the environment: [time.Sleep]
    and the logger return nothing. *)
Definition returns_unit {X} (c : call X) : bool :=
  match c with
  | TimeSleep _ | Logger _ _ _ => true
  | _ => false
  end.

(** One step of goroutine [t] run alone: a call that returns a value
    takes the next of [answers]. *)
Definition next_step (t : nat) (answers : list answer) (s : config)
  : option (config * list answer) :=
  match threads s !! t with
  | Some (InCall c _) =>
      if returns_unit c
      then s' ← step t AUnit s; Some (s', answers)
      else match answers with
           | a :: rest => s' ← step t a s; Some (s', rest)
           | [] => None
           end
  | _ => s' ← step t AUnit s; Some (s', answers)
  end.

(** Goroutine [t] run alone: it steps until it finishes, blocks,
    panics, or waits for an answer that [answers] no longer has.
    Returns the configuration and the answers left over. *)
Fixpoint run_thread (fuel : nat) (t : nat) (answers : list answer) (s : config)
  : config * list answer :=
  match fuel with
  | O => (s, answers)
  | S fuel' =>
      match next_step t answers s with
      | Some (s', rest) => run_thread fuel' t rest s'
      | None => (s, answers)
      end
  end.

(** The process in which one goroutine is about to run [p] on the
    struct [c]. *)
Definition start (c : SSHTunnel) (p : prog unit) : config :=
  mkConfig c [] [Ready p] false [].

(** ** Observations on traces *)

(** The trace in the order of time, oldest item first. *)
Definition history (s : config) : list item := rev (trace s).

(** The hosts [ssh.Dial] was called for: the connect attempts. *)
Definition connect_attempts (tr : list item) : list string :=
  omap (fun i => match i with
                 | ICall _ (SshDial _ addr _) => Some addr
                 | _ => None
                 end) tr.

(** The sessions on which [Dial] was called. *)
Definition dialled_clients (tr : list item) : list Client :=
  omap (fun i => match i with
                 | ICall _ (ClientDial cl _ _) => Some cl
                 | _ => None
                 end) tr.

(** The sessions on which [Listen] was called. *)
Definition listened_clients (tr : list item) : list Client :=
  omap (fun i => match i with
                 | ICall _ (ClientListen cl _ _) => Some cl
                 | _ => None
                 end) tr.

(** The connections [Close] was called on. *)
Definition closed_conns (tr : list item) : list Conn :=
  omap (fun i => match i with
                 | ICall _ (ConnClose conn) => Some conn
                 | _ => None
                 end) tr.

(** The durations [time.Sleep] was called with. *)
Definition sleeps (tr : list item) : list Duration :=
  omap (fun i => match i with
                 | ICall _ (TimeSleep d) => Some d
                 | _ => None
                 end) tr.

(** The deadlines set: connection and instant. *)
Definition deadlines (tr : list item) : list (Conn * Z) :=
  omap (fun i => match i with
                 | ICall _ (ConnSetDeadline conn t) => Some (conn, t)
                 | _ => None
                 end) tr.

(** The instants [time.Now] returned. *)
Definition times (tr : list item) : list Z :=
  omap (fun i => match i with
                 | IRet _ c x =>
                     match c in call X return X -> option Z with
                     | TimeNow => fun now => Some now
                     | _ => fun _ => None
                     end x
                 | _ => None
                 end) tr.

(** The copies started: destination and source. *)
Definition copies (tr : list item) : list (Conn * Conn) :=
  omap (fun i => match i with
                 | ICall _ (IoCopy dst src) => Some (dst, src)
                 | _ => None
                 end) tr.

(** The goroutines started by [go] statements. *)
Definition spawned (tr : list item) : list nat :=
  omap (fun i => match i with
                 | IGo _ child => Some child
                 | _ => None
                 end) tr.

(** The messages of the log lines, in order. *)
Definition log_lines (tr : list item) : list string :=
  omap (fun i => match i with
                 | ICall _ (Logger _ format _) => Some format
                 | _ => None
                 end) tr.

(** ** The command of the repository (main.go) *)

(** The flags of the command, with their defaults. *)
Record Flags : Type := mkFlags {
  sshhost : string;
  sshport : string;
  sshuser : string;
  sshpassword : string;
  lport : string;
  rport : string;
  server : bool;
}.

(** [sshtunnel.NewSSHTunnel(sshConfig, sshAddress, *localPort, *remotePort)] *)
Definition main_tunnel (f : Flags) : SSHTunnel :=
  NewSSHTunnel (mkClientConfig (sshuser f) (sshpassword f))
    (sshhost f +:+ ":" +:+ sshport f) (lport f) (rport f).

(** [func main()], after the tunnel is built. *)
Definition main (f : Flags) : prog unit :=
  (if server f then ReverseTunnel else ForwardTunnel) ;;;
  call_ (TimeSleep (2 * Minute)%Z) ;;;
  Close.

(** Several goroutines run one after the other: each segment gives
    the number of steps allowed, the goroutine and its answers; the
    goroutine runs as long as it can within them. *)
Fixpoint run_segments (segs : list (nat * nat * list answer)) (s : config) : config :=
  match segs with
  | [] => s
  | (fuel, t, answers) :: rest => run_segments rest (fst (run_thread fuel t answers s))
  end.

(** The two orientations of a tunnel, to state what holds of both
    [ForwardTunnel] and [ReverseTunnel]. *)
Inductive Orientation : Type :=
| Forward
| Reverse.

Definition startTunnel (o : Orientation) : prog unit :=
  match o with
  | Forward => ForwardTunnel
  | Reverse => ReverseTunnel
  end.

Definition supervisor (o : Orientation) : prog unit :=
  match o with
  | Forward => forwardSupervisor
  | Reverse => reverseSupervisor
  end.

(** What one turn of the reverse listen loop leaves in the trace when
    the tunnel has no session (newest first): the two log lines of
    [sshListen] and the backoff sleep. *)
Definition reverse_retry_items (c : SSHTunnel) : list item :=
  [IRet 0 (TimeSleep (attemptSleepTime c)) tt;
   ICall 0 (TimeSleep (attemptSleepTime c));
   IRet 0 (Logger (logger c) "ssh.Listen failed: sshClient is nil" []) tt;
   ICall 0 (Logger (logger c) "ssh.Listen failed: sshClient is nil" []);
   IRet 0 (Logger (logger c) "ssh.Listen on %s/%s..."
             [LStr (sshNetwork c); LStr (sshAddress c)]) tt;
   ICall 0 (Logger (logger c) "ssh.Listen on %s/%s..."
              [LStr (sshNetwork c); LStr (sshAddress c)])].

(** What is left of a supervisory goroutine when it reaches its listen
    loop. *)
Definition supervisorLoop (o : Orientation) : prog unit :=
  match o with
  | Forward => forwardLoop
  | Reverse => reverseLoop
  end ;;;
  log "Stopped Tunnel" [] ;;;
  sync (WgDone TunnelWg).

(** ** Disciplines on programs

    Predicates that follow the structure of a program and say which
    operations it may perform; each comes with the property of
    configurations it preserves. *)

Definition is_connect {X : Type} (c : call X) : bool :=
  match c with
  | SshDial _ _ _ => true
  | _ => false
  end.

(** *** Programs that never connect while the tunnel has no session

    A load of [c.sshClient] is followed only on the nil branch, and
    the program neither calls [ssh.Dial] nor stores a session. *)

Definition stores_no_session {X : Type} (m : memop X) : Prop :=
  match m with
  | ReadField _ => True
  | WriteField f v =>
      match f in field Y return Y -> Prop with
      | FsshClient => fun v => v = None
      | _ => fun _ => True
      end v
  end.

Definition after_load {X : Type} (m : memop X) : (X -> Prop) -> Prop :=
  match m in memop X return (X -> Prop) -> Prop with
  | ReadField f =>
      match f in field Y return (Y -> Prop) -> Prop with
      | FsshClient => fun P => P None
      | _ => fun P => forall x, P x
      end
  | WriteField _ _ => fun P => P tt
  end.

Fixpoint no_connect {A : Type} (p : prog A) : Prop :=
  match p with
  | Ret _ => True
  | Panic _ => True
  | Mem m k => stores_no_session m /\ after_load m (fun x => no_connect (k x))
  | Sync _ k => forall x, no_connect (k x)
  | Call c k => is_connect c = false /\ forall x, no_connect (k x)
  | Go child k => no_connect child /\ no_connect k
  | Loop body k => no_connect body /\ no_connect k
  end.

Definition thread_no_connect (th : thread) : Prop :=
  match th with
  | Ready p => no_connect p
  | InCall c k => is_connect c = false /\ forall x, no_connect (k x)
  end.

(** The tunnel has no session and no goroutine will connect. *)
Definition without_session (s : config) : Prop :=
  sshClient (tun s) = None /\ Forall thread_no_connect (threads s).

(** *** Programs that call [ssh.Dial] only while they hold [c.mx]

    [locks h p h']: a goroutine that holds the mutex ([h = true]) or
    does not ([h = false]) can run [p]; it locks only when it does not
    hold the mutex, unlocks and calls [ssh.Dial] only when it does,
    and holds it or not, as [h'] says, when [p] returns. *)

Definition lock_after {X : Type} (o : syncop X) (h : bool) : option bool :=
  match o with
  | MxLock => if h then None else Some true
  | MxUnlock => if h then Some false else None
  | _ => Some h
  end.

Fixpoint locks {A : Type} (h : bool) (p : prog A) (h' : bool) : Prop :=
  match p with
  | Ret _ => h = h'
  | Panic _ => True
  | Mem _ k => forall x, locks h (k x) h'
  | Sync o k =>
      match lock_after o h with
      | Some h1 => forall x, locks h1 (k x) h'
      | None => False
      end
  | Call c k => (is_connect c = true -> h = true) /\ forall x, locks h (k x) h'
  | Go child k => locks false child false /\ locks h k h'
  | Loop body k => locks h body h /\ locks h k h'
  end.

Definition thread_locks (h : bool) (th : thread) : Prop :=
  match th with
  | Ready p => locks h p false
  | InCall c k => (is_connect c = true -> h = true) /\ forall x, locks h (k x) false
  end.

(** The goroutines can be told apart into at most one that holds the
    mutex and the others that do not, each following the discipline;
    and the mutex is locked when one holds it. *)
Definition lock_ok (m : bool) (ths : list thread) : Prop :=
  exists hs : list bool,
    Forall2 thread_locks hs ths /\
    (forall i j, hs !! i = Some true -> hs !! j = Some true -> i = j) /\
    (forall i, hs !! i = Some true -> m = true).

Definition lock_inv (s : config) : Prop := lock_ok (mx (tun s)) (threads s).

(** Goroutine [i] is inside [ssh.Dial]: a connect is in flight. *)
Definition connecting (s : config) (i : nat) : Prop :=
  exists (k : result Client -> prog unit) network addr config,
    threads s !! i = Some (InCall (SshDial network addr config) k).

(** The public methods of [*SSHTunnel], and a caller that invokes a
    sequence of them. *)
Inductive method : Type :=
| MForwardTunnel
| MReverseTunnel
| MClose
| MWait
| MSetAttemptSleepTime (sleepTime : Duration)
| MSetLogger (fn : LoggerFn)
| MSetNoLogger.

Definition invoke (m : method) : prog unit :=
  match m with
  | MForwardTunnel => ForwardTunnel
  | MReverseTunnel => ReverseTunnel
  | MClose => Close
  | MWait => Wait
  | MSetAttemptSleepTime d => SetAttemptSleepTime d
  | MSetLogger fn => SetLogger fn
  | MSetNoLogger => SetNoLogger
  end.

Fixpoint caller (calls : list method) : prog unit :=
  match calls with
  | [] => Ret tt
  | m :: rest => invoke m ;;; caller rest
  end.

(** A process of callers sharing the tunnel [c]. *)
Definition callers (c : SSHTunnel) (programs : list (list method)) : config :=
  mkConfig c [] (map (fun calls => Ready (caller calls)) programs) false [].

(** ** The stages of a proxy task

    What the proxying part of a task ([proxy lConn rConn]) and its two
    copy goroutines may do next, stage by stage, and what the trace
    must hold at each stage. *)

(** What is observed of a trace: the instants [time.Now] returned, the
    deadlines set and how many of these calls returned, the number of
    [go] statements, of [Wait]s passed, of copies started and of copies
    returned, and the connections closed; lists are oldest first. *)
Record obs : Type := mkObs {
  o_times : list Z;
  o_deadlines : list (Conn * Z);
  o_deadline_rets : nat;
  o_spawned : nat;
  o_waits : nat;
  o_copy_calls : nat;
  o_copy_rets : nat;
  o_closed : list Conn;
}.

Definition no_obs : obs := mkObs [] [] 0 0 0 0 0 [].

Definition observe_item (i : item) (o : obs) : obs :=
  match i with
  | ICall _ c =>
      match c with
      | ConnSetDeadline conn t =>
          mkObs (o_times o) (o_deadlines o ++ [(conn, t)]) (o_deadline_rets o) (o_spawned o)
            (o_waits o) (o_copy_calls o) (o_copy_rets o) (o_closed o)
      | IoCopy _ _ =>
          mkObs (o_times o) (o_deadlines o) (o_deadline_rets o) (o_spawned o)
            (o_waits o) (S (o_copy_calls o)) (o_copy_rets o) (o_closed o)
      | ConnClose conn =>
          mkObs (o_times o) (o_deadlines o) (o_deadline_rets o) (o_spawned o)
            (o_waits o) (o_copy_calls o) (o_copy_rets o) (o_closed o ++ [conn])
      | _ => o
      end
  | IRet _ c x =>
      match c in call X return X -> obs with
      | TimeNow => fun now =>
          mkObs (o_times o ++ [now]) (o_deadlines o) (o_deadline_rets o) (o_spawned o)
            (o_waits o) (o_copy_calls o) (o_copy_rets o) (o_closed o)
      | ConnSetDeadline _ _ => fun _ =>
          mkObs (o_times o) (o_deadlines o) (S (o_deadline_rets o)) (o_spawned o)
            (o_waits o) (o_copy_calls o) (o_copy_rets o) (o_closed o)
      | IoCopy _ _ => fun _ =>
          mkObs (o_times o) (o_deadlines o) (o_deadline_rets o) (o_spawned o)
            (o_waits o) (o_copy_calls o) (S (o_copy_rets o)) (o_closed o)
      | _ => fun _ => o
      end x
  | ISync _ s _ =>
      match s with
      | WgWait _ =>
          mkObs (o_times o) (o_deadlines o) (o_deadline_rets o) (o_spawned o)
            (S (o_waits o)) (o_copy_calls o) (o_copy_rets o) (o_closed o)
      | _ => o
      end
  | IGo _ _ =>
      mkObs (o_times o) (o_deadlines o) (o_deadline_rets o) (S (o_spawned o))
        (o_waits o) (o_copy_calls o) (o_copy_rets o) (o_closed o)
  | IPanic _ _ => o
  end.

(** The observation of a trace (newest item first). *)
Fixpoint observe (tr : list item) : obs :=
  match tr with
  | [] => no_obs
  | i :: older => observe_item i (observe older)
  end.

(** What must have happened before an item: a copy starts only after
    [SetDeadline] has returned; [Wait] is called only after both [go]
    statements; a connection is closed only after both copies have
    returned and [Wait] has been passed. *)
Definition in_order (i : item) (before : obs) : Prop :=
  match i with
  | ICall _ (IoCopy _ _) => o_deadline_rets before = 1
  | ISync _ (WgWait _) _ => o_spawned before = 2
  | ICall _ (ConnClose _) => o_copy_rets before = 2 /\ o_waits before = 1
  | _ => True
  end.

Fixpoint ordered (tr : list item) : Prop :=
  match tr with
  | [] => True
  | i :: older => in_order i (observe older) /\ ordered older
  end.

(** The stages of the task itself. *)
Inductive pstate : Type :=
| PStart
| PNowCall
| PNow (now : Z)
| PDeadline (now : Z)
| PDeadlineCall (now : Z)
| PDeadlineSet (now : Z)
| PNew (now : Z) (w : wgref)
| PAdded (now : Z) (w : wgref)
| POne (now : Z) (w : wgref)
| PTwo (now : Z) (w : wgref)
| PJoined (now : Z) (w : wgref) (rest : list Conn)
| PClosing (now : Z) (w : wgref) (rest : list Conn).

(** The stages of a copy goroutine. *)
Inductive cstate : Type :=
| CStart
| CCopying
| CReturned
| CDone.

(** Stages at which the task may log. *)
Definition may_log (st : pstate) : Prop :=
  match st with
  | PDeadlineSet _ | PJoined _ _ _ => True
  | _ => False
  end.

Section Proxy.

Variables lConn rConn : Conn.
(** The value of [c.ioTimeout]. *)
Variable timeout : Duration.

(** A copy goroutine at stage [st], copying [src] to [dst] and counted
    in the wait group [w]. *)
Fixpoint copy_follows (w : wgref) (dst src : Conn) (st : cstate) (p : prog unit) : Prop :=
  match p with
  | Ret _ => st = CDone
  | Mem m k =>
      match m in memop X return (X -> Prop) -> Prop with
      | ReadField _ => fun P => st = CReturned /\ forall x, P x
      | WriteField _ _ => fun _ => False
      end (fun x => copy_follows w dst src CReturned (k x))
  | Call c k =>
      match c in call X return (X -> Prop) -> Prop with
      | IoCopy d s0 => fun P => st = CStart /\ d = dst /\ s0 = src /\ forall x, P x
      | Logger _ _ _ => fun P => st = CReturned /\ forall x, P x
      | _ => fun _ => False
      end (fun x => copy_follows w dst src CReturned (k x))
  | Sync o k =>
      match o in syncop X return (X -> Prop) -> Prop with
      | WgDone w' => fun P => st = CReturned /\ w' = w /\ P tt
      | _ => fun _ => False
      end (fun x => copy_follows w dst src CDone (k x))
  | _ => False
  end.

Definition copy_thread (w : wgref) (dst src : Conn) (st : cstate) (th : thread) : Prop :=
  match th with
  | Ready p => copy_follows w dst src st p
  | InCall c k =>
      match c in call X return (X -> prog unit) -> Prop with
      | IoCopy d s0 => fun k =>
          st = CCopying /\ d = dst /\ s0 = src /\
          forall x, copy_follows w dst src CReturned (k x)
      | Logger _ _ _ => fun k =>
          st = CReturned /\ forall x, copy_follows w dst src CReturned (k x)
      | _ => fun _ => False
      end k
  end.

(** The task at stage [st]. *)
Fixpoint task_follows (st : pstate) (p : prog unit) : Prop :=
  match p with
  | Ret _ => match st with PJoined _ _ [] => True | _ => False end
  | Panic _ => False
  | Mem m k =>
      match m in memop X return (X -> pstate -> Prop) -> Prop with
      | ReadField f =>
          match f in field X return (X -> pstate -> Prop) -> Prop with
          | FioTimeout => fun P =>
              match st with PNow now => P timeout (PDeadline now) | _ => False end
          | Flogger => fun P => may_log st /\ forall x, P x st
          | _ => fun _ => False
          end
      | WriteField _ _ => fun _ => False
      end (fun x st' => task_follows st' (k x))
  | Sync o k =>
      match o in syncop X return (X -> pstate -> Prop) -> Prop with
      | WgNew => fun P =>
          match st with PDeadlineSet now => forall w, P w (PNew now w) | _ => False end
      | WgAdd w' delta => fun P =>
          match st with
          | PNew now w => w' = w /\ delta = 2%Z /\ P tt (PAdded now w)
          | _ => False
          end
      | WgWait w' => fun P =>
          match st with
          | PTwo now w => w' = w /\ P tt (PJoined now w [lConn; rConn])
          | _ => False
          end
      | _ => fun _ => False
      end (fun x st' => task_follows st' (k x))
  | Call c k =>
      match c in call X return (X -> pstate -> Prop) -> Prop with
      | TimeNow => fun P => st = PStart /\ forall now, P now (PNow now)
      | ConnSetDeadline conn t => fun P =>
          match st with
          | PDeadline now =>
              conn = lConn /\ t = (now + timeout)%Z /\ forall x, P x (PDeadlineSet now)
          | _ => False
          end
      | Logger _ _ _ => fun P => may_log st /\ forall x, P x st
      | ConnClose conn => fun P =>
          match st with
          | PJoined now w (next :: rest) => conn = next /\ forall x, P x (PJoined now w rest)
          | _ => False
          end
      | _ => fun _ => False
      end (fun x st' => task_follows st' (k x))
  | Go child k =>
      match st with
      | PAdded now w => copy_follows w lConn rConn CStart child /\ task_follows (POne now w) k
      | POne now w => copy_follows w rConn lConn CStart child /\ task_follows (PTwo now w) k
      | _ => False
      end
  | Loop _ _ => False
  end.

Definition task_thread (st : pstate) (th : thread) : Prop :=
  match th with
  | Ready p => task_follows st p
  | InCall c k =>
      match c in call X return (X -> prog unit) -> Prop with
      | TimeNow => fun k => st = PNowCall /\ forall now, task_follows (PNow now) (k now)
      | ConnSetDeadline conn t => fun k =>
          match st with
          | PDeadlineCall now => forall x, task_follows (PDeadlineSet now) (k x)
          | _ => False
          end
      | Logger _ _ _ => fun k => may_log st /\ forall x, task_follows st (k x)
      | ConnClose conn => fun k =>
          match st with
          | PClosing now w rest => forall x, task_follows (PJoined now w rest) (k x)
          | _ => False
          end
      | _ => fun _ => False
      end k
  end.

(** The copy goroutines there are at each stage of the task. *)
Definition copies_at (st : pstate) (cs : list cstate) (ths : list thread) : Prop :=
  match st with
  | PStart | PNowCall | PNow _ | PDeadline _ | PDeadlineCall _ | PDeadlineSet _
  | PNew _ _ | PAdded _ _ => cs = [] /\ ths = []
  | POne _ w =>
      exists c1 t1, cs = [c1] /\ ths = [t1] /\ copy_thread w lConn rConn c1 t1
  | PTwo _ w =>
      exists c1 c2 t1 t2, cs = [c1; c2] /\ ths = [t1; t2] /\
        copy_thread w lConn rConn c1 t1 /\ copy_thread w rConn lConn c2 t2
  | PJoined _ _ _ | PClosing _ _ _ =>
      cs = [CDone; CDone] /\ ths = [Ready (Ret tt); Ready (Ret tt)]
  end.

Definition is_done (c : cstate) : bool :=
  match c with CDone => true | _ => false end.
Definition has_started (c : cstate) : bool :=
  match c with CStart => false | _ => true end.
Definition has_returned (c : cstate) : bool :=
  match c with CReturned | CDone => true | _ => false end.

Definition count_if (f : cstate -> bool) (cs : list cstate) : nat :=
  length (filter (fun c => f c = true) cs).

(** The counter of the task's wait group at each stage. *)
Definition counter_at (st : pstate) (cs : list cstate) (s : config) : Prop :=
  match st with
  | PNew _ w => wg_counter w s = Some 0%Z
  | PAdded _ w | POne _ w | PTwo _ w =>
      wg_counter w s = Some (2 - Z.of_nat (count_if is_done cs))%Z
  | _ => True
  end.

(** The observation of the trace at each stage. *)
Definition closed_at (rest : list Conn) : list Conn :=
  match rest with
  | [] => [lConn; rConn]
  | [_] => [lConn]
  | _ => []
  end.

Definition expected (st : pstate) (cs : list cstate) : obs :=
  let copy_calls := count_if has_started cs in
  let copy_rets := count_if has_returned cs in
  match st with
  | PStart | PNowCall => mkObs [] [] 0 0 0 0 0 []
  | PNow now | PDeadline now => mkObs [now] [] 0 0 0 0 0 []
  | PDeadlineCall now => mkObs [now] [(lConn, (now + timeout)%Z)] 0 0 0 0 0 []
  | PDeadlineSet now | PNew now _ | PAdded now _ =>
      mkObs [now] [(lConn, (now + timeout)%Z)] 1 0 0 0 0 []
  | POne now _ =>
      mkObs [now] [(lConn, (now + timeout)%Z)] 1 1 0 copy_calls copy_rets []
  | PTwo now _ =>
      mkObs [now] [(lConn, (now + timeout)%Z)] 1 2 0 copy_calls copy_rets []
  | PJoined now _ rest =>
      mkObs [now] [(lConn, (now + timeout)%Z)] 1 2 1 2 2 (closed_at rest)
  | PClosing now _ rest =>
      mkObs [now] [(lConn, (now + timeout)%Z)] 1 2 1 2 2 (closed_at rest)
  end.

(** A stage at which connections remain to be closed lists them in
    order. *)
Definition rest_at (st : pstate) : Prop :=
  match st with
  | PJoined _ _ rest => rest = [lConn; rConn] \/ rest = [rConn] \/ rest = []
  | PClosing _ _ rest => rest = [rConn] \/ rest = []
  | _ => True
  end.

(** The invariant of a proxy task and its copy goroutines. *)
Definition proxy_inv (s : config) : Prop :=
  exists (st : pstate) (cs : list cstate) (pth : thread) (cths : list thread),
    threads s = pth :: cths /\
    crashed s = false /\
    ioTimeout (tun s) = timeout /\
    task_thread st pth /\
    copies_at st cs cths /\
    counter_at st cs s /\
    rest_at st /\
    observe (trace s) = expected st cs /\
    ordered (trace s).

End Proxy.

(** All goroutines of the process have finished. *)
Definition finished (s : config) : Prop :=
  Forall (fun th => th = Ready (Ret tt)) (threads s).

(** A task is about to proxy the pair: its goroutine is alone, and no
    deadline, copy, wait or close of the pair is in the trace yet. *)
Definition proxy_ready (lConn rConn : Conn) (s : config) : Prop :=
  threads s = [Ready (proxy lConn rConn)] /\
  crashed s = false /\
  observe (trace s) = no_obs /\
  ordered (trace s).

(** The body of a proxy task at the point where its dial has
    succeeded: the forward task has dialled [rConn] through the
    session, the reverse task has dialled [lConn] on the plain socket
    side. *)
Definition dialled (o : Orientation) (c : SSHTunnel) (lConn rConn : Conn) : config :=
  match o with
  | Forward => fst (run_thread 14 0 [AConn (Ok rConn)] (start c (forwardConn lConn)))
  | Reverse => fst (run_thread 12 0 [AConn (Ok lConn)] (start c (reverseConn rConn)))
  end.

(** ** Further observations and program points *)

(** The sessions [Close] was called on. *)
Definition closed_clients (tr : list item) : list Client :=
  omap (fun i => match i with
                 | ICall _ (ClientClose cl) => Some cl
                 | _ => None
                 end) tr.

(** The listeners [Close] was called on. *)
Definition closed_listeners (tr : list item) : list Listener :=
  omap (fun i => match i with
                 | ICall _ (ListenerClose ln) => Some ln
                 | _ => None
                 end) tr.

(** The listeners [Accept] was called on. *)
Definition accepts (tr : list item) : list Listener :=
  omap (fun i => match i with
                 | ICall _ (ListenerAccept ln) => Some ln
                 | _ => None
                 end) tr.

(** The network and address of each [net.Listen]. *)
Definition net_listens (tr : list item) : list (string * string) :=
  omap (fun i => match i with
                 | ICall _ (NetListen network addr) => Some (network, addr)
                 | _ => None
                 end) tr.

(** The network and address of each [net.Dial]. *)
Definition net_dials (tr : list item) : list (string * string) :=
  omap (fun i => match i with
                 | ICall _ (NetDial network addr) => Some (network, addr)
                 | _ => None
                 end) tr.

(** The calls that end or open a session, in one list so that their
    order can be read off. *)
Inductive session_call : Type :=
  | Closing (client : Client)
  | Connecting (addr : string).

Definition session_calls (tr : list item) : list session_call :=
  omap (fun i => match i with
                 | ICall _ (ClientClose cl) => Some (Closing cl)
                 | ICall _ (SshDial _ addr _) => Some (Connecting addr)
                 | _ => None
                 end) tr.

(** The panics of a trace. *)
Definition panics (tr : list item) : list string :=
  omap (fun i => match i with
                 | IPanic _ msg => Some msg
                 | _ => None
                 end) tr.

(** The goroutine an accept loop starts for a connection. *)
Definition task (o : Orientation) (conn : Conn) : prog unit :=
  match o with
  | Forward => forwardTask conn
  | Reverse => reverseTask conn
  end.

(** What is left of a supervisory goroutine when it is inside its
    accept loop: that loop, then the listen loop again. *)
Definition acceptingLoop (o : Orientation) : prog unit :=
  acceptLoop (task o) ;;;
  supervisorLoop o.

(** The configuration [s] with [older] below its trace. *)
Definition on_trace (older : list item) (s : config) : config :=
  mkConfig (tun s) (wgs s) (threads s) (crashed s) (trace s ++ older).

(** The logger each log line was written with. *)
Definition loggers (tr : list item) : list LoggerFn :=
  omap (fun i => match i with
                 | ICall _ (Logger fn _ _) => Some fn
                 | _ => None
                 end) tr.

(** ** Programs that keep to the configuration

    The fields that say where the tunnel connects, listens and dials,
    and the deadline it gives a connection, are set by [NewSSHTunnel]
    and by nothing else; [closed] is only ever set to [true]. *)

Definition fixed {X : Type} (f : field X) : bool :=
  match f with
  | FsshConfig | Fhost | FnetNetwork | FnetAddress | FsshNetwork | FsshAddress
  | FioTimeout => true
  | _ => false
  end.

(** [c'] has the configuration of [c]. *)
Definition same_configuration (c c' : SSHTunnel) : Prop :=
  forall (X : Type) (f : field X), fixed f = true -> get_field f c' = get_field f c.

(** A call that names an address names the one in the struct [c]. *)
Definition targets (c : SSHTunnel) {X : Type} (cl : call X) : Prop :=
  match cl with
  | SshDial network addr config => network = "tcp" /\ addr = host c /\ config = sshConfig c
  | ClientDial _ network addr => network = sshNetwork c /\ addr = sshAddress c
  | ClientListen _ network addr => network = sshNetwork c /\ addr = sshAddress c
  | NetDial network addr => network = netNetwork c /\ addr = netAddress c
  | NetListen network addr => network = netNetwork c /\ addr = netAddress c
  | _ => True
  end.

Definition store_keeps {X : Type} (f : field X) : X -> Prop :=
  match f in field Y return Y -> Prop with
  | Fclosed => fun v => v = true
  | _ => fun _ => True
  end.

(** A load of a configuration field is followed with the value it has
    in [c]; a store is not to a configuration field, and stores [true]
    when it is to [closed]. *)
Definition mem_keeps (c : SSHTunnel) {X : Type} (m : memop X) : (X -> Prop) -> Prop :=
  match m in memop X return (X -> Prop) -> Prop with
  | ReadField f => fun P => if fixed f then P (get_field f c) else forall x, P x
  | WriteField f v => fun P => fixed f = false /\ store_keeps f v /\ P tt
  end.

Fixpoint keeps (c : SSHTunnel) {A : Type} (p : prog A) : Prop :=
  match p with
  | Ret _ => True
  | Panic _ => True
  | Mem m k => mem_keeps c m (fun x => keeps c (k x))
  | Sync _ k => forall x, keeps c (k x)
  | Call cl k => targets c cl /\ forall x, keeps c (k x)
  | Go child k => keeps c child /\ keeps c k
  | Loop body k => keeps c body /\ keeps c k
  end.

Definition thread_keeps (c : SSHTunnel) (th : thread) : Prop :=
  match th with
  | Ready p => keeps c p
  | InCall cl k => forall x, keeps c (k x)
  end.

Definition item_keeps (c : SSHTunnel) (i : item) : Prop :=
  match i with
  | ICall _ cl => targets c cl
  | _ => True
  end.

Definition keeps_inv (c : SSHTunnel) (s : config) : Prop :=
  same_configuration c (tun s) /\
  Forall (thread_keeps c) (threads s) /\
  Forall (item_keeps c) (trace s).

(** The network and address of each [Dial] and [Listen] through the
    session. *)
Definition session_targets (tr : list item) : list (string * string) :=
  omap (fun i => match i with
                 | ICall _ (ClientDial _ network addr) => Some (network, addr)
                 | ICall _ (ClientListen _ network addr) => Some (network, addr)
                 | _ => None
                 end) tr.

(** The arguments of each [ssh.Dial]. *)
Definition connects (tr : list item) : list (string * string * ClientConfig) :=
  omap (fun i => match i with
                 | ICall _ (SshDial network addr config) => Some (network, addr, config)
                 | _ => None
                 end) tr.

(** ** Programs that balance the wait groups

    Every [Done] is paid for by an [Add]: a goroutine calls [Done] on a
    wait group only for a count it has added itself or was handed by
    the [go] statement that started it. *)

(** One when [w] is the wait group [w0] under consideration. *)
Definition counts (w w0 : wgref) : Z := if bool_decide (w = w0) then 1%Z else 0%Z.

(** What an operation adds to the counts of [w0] its goroutine holds. *)
Definition wg_delta (w0 : wgref) {X : Type} (o : syncop X) : Z :=
  match o with
  | WgAdd w d => (d * counts w w0)%Z
  | WgDone w => (- counts w w0)%Z
  | _ => 0%Z
  end.

(** [owes w0 b p b']: a goroutine that holds [b] counts of [w0] can
    run [p] and holds [b'] when [p] returns; it never holds a negative
    number, hands a goroutine it starts the counts that one needs, and
    panics only through a nil handle. *)
Fixpoint owes (w0 : wgref) (b : Z) {A : Type} (p : prog A) (b' : Z) : Prop :=
  match p with
  | Ret _ => b = b'
  | Panic msg => msg = nil_deref
  | Mem _ k => forall x, owes w0 b (k x) b'
  | Sync o k =>
      (0 <= b + wg_delta w0 o)%Z /\ forall x, owes w0 (b + wg_delta w0 o)%Z (k x) b'
  | Call _ k => forall x, owes w0 b (k x) b'
  | Go child k =>
      exists bc : Z, (0 <= bc <= b)%Z /\ owes w0 bc child 0%Z /\ owes w0 (b - bc)%Z k b'
  | Loop body k => owes w0 b body b /\ owes w0 b k b'
  end.

Definition thread_owes (w0 : wgref) (b : Z) (th : thread) : Prop :=
  match th with
  | Ready p => owes w0 b p 0%Z
  | InCall _ k => forall x, owes w0 b (k x) 0%Z
  end.

Definition zsum (l : list Z) : Z := foldr Z.add 0%Z l.

(** The counter of [w0], when it exists, is its initial value plus the
    counts the goroutines hold. *)
Definition wg_ok (w0 : wgref) (initial : Z) (counter : option Z) (ths : list thread) : Prop :=
  exists bs : list Z,
    Forall2 (thread_owes w0) bs ths /\
    Forall (Z.le 0) bs /\
    match counter with
    | Some n => n = (initial + zsum bs)%Z
    | None => zsum bs = 0%Z
    end.

Definition initial_counter (c : SSHTunnel) (w0 : wgref) : Z :=
  match w0 with
  | TunnelWg => wg c
  | LocalWg _ => 0%Z
  end.

Definition balanced (c : SSHTunnel) (s : config) : Prop :=
  forall w0, wg_ok w0 (initial_counter c w0) (wg_counter w0 s) (threads s).

Definition panic_is_nil (i : item) : Prop :=
  match i with
  | IPanic _ msg => msg = nil_deref
  | _ => True
  end.

(** [p] has a path on which it returns [a] without changing the
    counter of the tunnel's wait group; a loop is left when its body
    returns [false]. *)
Fixpoint can_return {A : Type} (p : prog A) (a : A) : Prop :=
  match p with
  | Ret a' => a' = a
  | Panic _ => False
  | Mem _ k => exists x, can_return (k x) a
  | Sync o k => wg_delta TunnelWg o = 0%Z /\ exists x, can_return (k x) a
  | Call _ k => exists x, can_return (k x) a
  | Go _ k => can_return k a
  | Loop body k => can_return body false /\ can_return k a
  end.

(** A call of [c.wg.Done()] lies ahead in what a goroutine has left to
    run, its own or that of a goroutine it is about to start, on some
    path on which [c.wg.Add] is not called first. *)
Fixpoint done_ahead {A : Type} (p : prog A) : Prop :=
  match p with
  | Ret _ => False
  | Panic _ => False
  | Mem _ k => exists x, done_ahead (k x)
  | Sync o k =>
      (wg_delta TunnelWg o < 0)%Z \/
      (wg_delta TunnelWg o = 0%Z /\ exists x, done_ahead (k x))
  | Call _ k => exists x, done_ahead (k x)
  | Go child k => done_ahead child \/ done_ahead k
  | Loop body k => done_ahead body \/ (can_return body false /\ done_ahead k)
  end.

Definition thread_done_ahead (th : thread) : Prop :=
  match th with
  | Ready p => done_ahead p
  | InCall _ k => exists x, done_ahead (k x)
  end.


(** ** Goroutines that can step *)

(** What a goroutine needs of the configuration to take its next
    step: a free mutex to lock, an allocated wait group to add to, a
    counter at zero to pass [Wait]; every other operation can always
    be taken, and a call returns when the library answers. *)
Definition enabled (s : config) (th : thread) : Prop :=
  match th with
  | Ready (Ret _) => False
  | Ready (Sync o _) =>
      match o with
      | MxLock => mx (tun s) = false
      | WgAdd w _ => wg_counter w s <> None
      | WgDone w => wg_counter w s <> None
      | WgWait w => wg_counter w s = Some 0%Z
      | _ => True
      end
  | _ => True
  end.

(** An answer the library may give to a call. *)
Definition some_answer {X : Type} (cl : call X) : answer :=
  match cl with
  | SshDial _ _ _ => AClient (Err EOF)
  | ClientDial _ _ _ | NetDial _ _ | ListenerAccept _ => AConn (Err EOF)
  | ClientListen _ _ _ | NetListen _ _ => AListener (Err EOF)
  | ClientClose _ | ListenerClose _ | ConnClose _ | ConnSetDeadline _ _ => AErr None
  | IoCopy _ _ => ACopy 0 None
  | TimeNow => ATime 0
  | TimeSleep _ | Logger _ _ _ => AUnit
  end.

(** * Properties *)

(** ** Runs are executions of the semantics *)

Lemma step_reachable t a s s' : step t a s = Some s' -> reachable s s'.
Proof. intros H. apply rtc_once. exists t, a. exact H. Qed.

Lemma run_reachable sched : forall s s', run sched s = Some s' -> reachable s s'.
Proof.
  induction sched as [|[t a] rest IH]; simpl; intros s s' H.
  - injection H as <-. apply rtc_refl.
  - destruct (step t a s) as [s1|] eqn:E; simpl in H; [|discriminate].
    eapply rtc_l; [exists t, a; exact E | apply IH, H].
Qed.

Lemma next_step_reachable t answers s s' rest :
  next_step t answers s = Some (s', rest) -> reachable s s'.
Proof.
  unfold next_step. intros H.
  destruct (threads s !! t) as [[p|X c k]|].
  - destruct (step t AUnit s) eqn:E; simplify_eq/=. eapply step_reachable, E.
  - destruct (returns_unit c).
    + destruct (step t AUnit s) eqn:E; simplify_eq/=. eapply step_reachable, E.
    + destruct answers as [|a l]; [discriminate|].
      destruct (step t a s) eqn:E; simplify_eq/=. eapply step_reachable, E.
  - destruct (step t AUnit s) eqn:E; simplify_eq/=. eapply step_reachable, E.
Qed.

Lemma run_thread_reachable fuel t : forall answers s,
  reachable s (fst (run_thread fuel t answers s)).
Proof.
  induction fuel as [|fuel IH]; simpl; intros answers s; [apply rtc_refl|].
  destruct (next_step t answers s) as [[s' rest]|] eqn:E; [|apply rtc_refl].
  eapply rtc_trans; [eapply next_step_reachable, E | apply IH].
Qed.

(** Fuel adds up: a run that stopped early stays where it is. *)
Lemma run_thread_stopped m t answers s :
  next_step t answers s = None -> run_thread m t answers s = (s, answers).
Proof. intros H. destruct m; simpl; [reflexivity|]. rewrite H. reflexivity. Qed.

Lemma run_thread_add n m t : forall answers s,
  run_thread (n + m) t answers s =
  run_thread m t (snd (run_thread n t answers s)) (fst (run_thread n t answers s)).
Proof.
  induction n as [|n IH]; intros answers s; [reflexivity|].
  change (S n + m) with (S (n + m)). simpl.
  destruct (next_step t answers s) as [[s' rest]|] eqn:E.
  - apply IH.
  - simpl. symmetry. apply run_thread_stopped, E.
Qed.

Lemma run_segments_reachable segs : forall s,
  reachable s (run_segments segs s).
Proof.
  induction segs as [|[[fuel t] answers] rest IH]; simpl; intros s; [apply rtc_refl|].
  eapply rtc_trans; [apply run_thread_reachable | apply IH].
Qed.

(** ** The constructor *)

(** C9.  Whatever the arguments, [NewSSHTunnel] returns an open tunnel
    with no session and no listener, both proxy addresses on host
    localhost over tcp (the local port on the plain-socket side, the
    remote port on the session side), a backoff of 3 seconds and an I/O
    timeout of 30 seconds; the session-side address does not depend on
    the host argument, and the command passes its port flags only. *)
Theorem NewSSHTunnel_defaults :
  forall (config : ClientConfig) (h localPort remotePort : string),
    let c := NewSSHTunnel config h localPort remotePort in
    netNetwork c = "tcp" /\ netAddress c = "localhost:" +:+ localPort /\
    sshNetwork c = "tcp" /\ sshAddress c = "localhost:" +:+ remotePort /\
    closed c = false /\
    attemptSleepTime c = (3 * 1000000000)%Z /\
    ioTimeout c = (30 * 1000000000)%Z /\
    sshClient c = None /\ listener c = None /\
    (forall config' h',
       sshAddress (NewSSHTunnel config' h' localPort remotePort) = sshAddress c /\
       netAddress (NewSSHTunnel config' h' localPort remotePort) = netAddress c) /\
    (forall f : Flags,
       netAddress (main_tunnel f) = "localhost:" +:+ lport f /\
       sshAddress (main_tunnel f) = "localhost:" +:+ rport f /\
       host (main_tunnel f) = sshhost f +:+ ":" +:+ sshport f).
Proof.
  intros config h localPort remotePort c. subst c. unfold main_tunnel. simpl.
  repeat split; reflexivity.
Qed.

(** ** The session-backed dial *)

Ltac case_errors :=
  repeat match goal with
         | e : option error |- _ => destruct e as [[]|]
         end.


(** C2 (as stated, fails).  With no session established the dial of a
    forward proxy task fails at once: no reconnect is attempted and the
    dial is not retried, where the claim asks for exactly one reconnect
    and one retry in every state of the session handle. *)
Lemma forward_dial_without_session_no_reconnect :
  let c := set_wg 1 (NewSSHTunnel (mkClientConfig "root" "secret") "example.org:22" "8080" "80") in
  let s := fst (run_thread 100 0 [AErr None] (start c (forwardTask (mkConn 1)))) in
  sshClient c = None /\
  log_lines (history s) = ["ssh.Dial to %s/%s..."; "ssh.Dial failed: sshClient is nil"] /\
  connect_attempts (history s) = [] /\
  dialled_clients (history s) = [] /\
  closed_conns (history s) = [mkConn 1] /\
  threads s = [Ready (Ret tt)].
Proof. vm_compute. repeat split. Qed.

(** C2 (amended).  The body of a forward proxy task on a tunnel that
    has a session: when the first dial fails, [sshConnect] is called
    once; when that reconnect succeeds the dial is retried once, on the
    new session; if the retry fails too the task closes the accepted
    connection once, starts no copy, sleeps for the backoff and ends;
    if the retry succeeds the task goes on to proxy the pair.  A first
    dial that succeeds triggers no reconnect.  With no session the dial
    fails at once, with no reconnect and no retry, and the task closes
    the accepted connection as well. *)
Theorem forward_dial_retries_once_after_reconnect :
  forall (c : SSHTunnel) (lConn : Conn),
    mx c = false ->
    (forall client, sshClient c = Some client ->
       (forall e1 closeErr client' e2 lCloseErr,
          let s := fst (run_thread 200 0
                          [AConn (Err e1); AErr closeErr; AClient (Ok client');
                           AConn (Err e2); AErr lCloseErr]
                          (start c (forwardConn lConn))) in
          crashed s = false /\ threads s = [Ready (Ret tt)] /\
          connect_attempts (history s) = [host c] /\
          dialled_clients (history s) = [client; client'] /\
          closed_conns (history s) = [lConn] /\
          spawned (history s) = [] /\
          sleeps (history s) = [attemptSleepTime c]) /\
       (forall e1 closeErr client' rConn,
          let s := fst (run_thread 200 0
                          [AConn (Err e1); AErr closeErr; AClient (Ok client');
                           AConn (Ok rConn)]
                          (start c (forwardConn lConn))) in
          crashed s = false /\
          connect_attempts (history s) = [host c] /\
          dialled_clients (history s) = [client; client'] /\
          closed_conns (history s) = [] /\
          threads s = threads (fst (run_thread 1 0 [] (start (tun s) (proxy lConn rConn))))) /\
       (forall rConn,
          let s := fst (run_thread 200 0 [AConn (Ok rConn)] (start c (forwardConn lConn))) in
          crashed s = false /\
          connect_attempts (history s) = [] /\
          dialled_clients (history s) = [client] /\
          closed_conns (history s) = [] /\
          threads s = threads (fst (run_thread 1 0 [] (start (tun s) (proxy lConn rConn)))))) /\
    (sshClient c = None ->
       forall lCloseErr,
         let s := fst (run_thread 200 0 [AErr lCloseErr] (start c (forwardConn lConn))) in
         crashed s = false /\ threads s = [Ready (Ret tt)] /\
         connect_attempts (history s) = [] /\
         dialled_clients (history s) = [] /\
         closed_conns (history s) = [lConn] /\
         spawned (history s) = [] /\
         sleeps (history s) = [attemptSleepTime c]).
Proof.
  intros c lConn Hmx.
  destruct c as [cfg h cl nn na sn sa ln clo ast iot lg w m]; simpl in Hmx; subst m.
  split; [intros client Hcl; simpl in Hcl; subst cl; repeat apply conj
         | intros Hcl; simpl in Hcl; subst cl].
  - intros e1 closeErr client' e2 lCloseErr s; subst s.
    case_errors; vm_compute; repeat split.
  - intros e1 closeErr client' rConn s; subst s.
    case_errors; vm_compute; repeat split.
  - intros rConn s; subst s. vm_compute; repeat split.
  - intros lCloseErr s; subst s. case_errors; vm_compute; repeat split.
Qed.

(** ** Starting the tunnel *)

(** C5 (as stated, fails).  [ForwardTunnel] called on a tunnel that is
    already started spawns a second supervisory loop and adds one more
    to the wait group. *)
Lemma start_twice_spawns_two_supervisors :
  let c := NewSSHTunnel (mkClientConfig "root" "secret") "example.org:22" "8080" "80" in
  let s1 := fst (run_thread 100 0 [] (start c ForwardTunnel)) in
  let s2 := fst (run_thread 100 0 [] (start c (ForwardTunnel ;;; ForwardTunnel))) in
  threads s1 = [Ready (Ret tt); Ready forwardSupervisor] /\
  wg (tun s1) = 1%Z /\
  threads s2 = [Ready (Ret tt); Ready forwardSupervisor; Ready forwardSupervisor] /\
  wg (tun s2) = 2%Z /\
  spawned (history s2) = [1; 2].
Proof. vm_compute. repeat split. Qed.

(** C5 (amended).  Every call of [ForwardTunnel] or [ReverseTunnel],
    on a tunnel started before or not, adds one to the wait group and
    spawns one more supervisory loop.  The call does not block: its
    five steps (load the logger, log, [wg.Add(1)], [go]) can be taken
    in every configuration, whatever the other goroutines, the mutex
    and the handles are, and the caller then goes on with what follows
    the call. *)
Theorem start_spawns_one_supervisor_per_call :
  forall (o : Orientation) (c : SSHTunnel) (wgs0 : list Z) (others : list thread)
         (tr : list item) (k : prog unit),
    (0 <= wg c)%Z ->
    run [(0, AUnit); (0, AUnit); (0, AUnit); (0, AUnit); (0, AUnit)]
        (mkConfig c wgs0 (Ready (startTunnel o ;;; k) :: others) false tr)
    = Some (mkConfig (set_wg (wg c + 1) c) wgs0
              (Ready k :: others ++ [Ready (supervisor o)]) false
              (IGo 0 (S (length others))
               :: ISync 0 (WgAdd TunnelWg 1) tt
               :: IRet 0 (Logger (logger c) "Starting Tunnel" []) tt
               :: ICall 0 (Logger (logger c) "Starting Tunnel" [])
               :: tr)).
Proof.
  intros o c wgs0 others tr k Hwg.
  destruct c as [cfg h cl nn na sn sa ln clo ast iot lg w m]; simpl in Hwg.
  destruct w as [|p|p]; [| |lia]; destruct o; reflexivity.
Qed.

(** ** Closing the tunnel *)



(** ** The supervisory loop without a session *)

(** One turn of the reverse listen loop on a tunnel without a session
    that is not closed: fourteen steps, no call to [ssh.Dial], and the
    goroutine is back at the head of the loop. *)
Lemma reverse_loop_turn_without_session (c : SSHTunnel) (wgs0 : list Z) (tr : list item)
    (answers : list answer) :
  sshClient c = None -> closed c = false ->
  run_thread 14 0 answers (mkConfig c wgs0 [Ready (supervisorLoop Reverse)] false tr)
  = (mkConfig c wgs0 [Ready (supervisorLoop Reverse)] false (reverse_retry_items c ++ tr),
     answers).
Proof.
  intros Hcl Hclosed.
  destruct c as [cfg h cl nn na sn sa ln clo ast iot lg w m]; simpl in Hcl, Hclosed; subst.
  vm_compute. reflexivity.
Qed.

Lemma reverse_loop_turns_without_session (c : SSHTunnel) (wgs0 : list Z)
    (answers : list answer) (n : nat) : forall tr,
  sshClient c = None -> closed c = false ->
  run_thread (14 * n) 0 answers (mkConfig c wgs0 [Ready (supervisorLoop Reverse)] false tr)
  = (mkConfig c wgs0 [Ready (supervisorLoop Reverse)] false
       (Nat.iter n (app (reverse_retry_items c)) tr),
     answers).
Proof.
  intros tr Hcl Hclosed. revert tr.
  induction n as [|n IH]; intros tr; [reflexivity|].
  replace (14 * S n) with (14 * n + 14) by lia.
  rewrite run_thread_add, IH. cbn [fst snd].
  rewrite reverse_loop_turn_without_session by assumption.
  reflexivity.
Qed.

Lemma observe_turns {A} (f : item -> option A) (items tr : list item) (n : nat) :
  omap f (rev (Nat.iter n (app items) tr)) =
  omap f (rev tr) ++ concat (replicate n (omap f (rev items))).
Proof.
  induction n as [|n IH]; simpl.
  - rewrite app_nil_r. reflexivity.
  - rewrite rev_app_distr, omap_app, IH, <- app_assoc. f_equal.
    clear IH. induction n as [|n IHn]; simpl.
    + rewrite app_nil_r. reflexivity.
    + rewrite <- app_assoc, IHn. reflexivity.
Qed.

(** ** No session, no connect *)

Lemma no_connect_bind {A B : Type} (p : prog A) (f : A -> prog B) :
  no_connect p -> (forall a, no_connect (f a)) -> no_connect (bind p f).
Proof.
  revert B f. induction p as [A a|A msg|A X m k IH|A X o k IH|A X c k IH|A child IHc k IHk
                              |A body IHb k IHk]; intros B f Hp Hf; simpl in *.
  - apply Hf.
  - exact I.
  - destruct Hp as [Hm Hk]. split; [exact Hm|].
    destruct m as [Y fld|Y fld v]; [destruct fld|]; simpl in *; eauto.
  - eauto.
  - destruct Hp as [Hc Hk]. eauto.
  - destruct Hp as [Hc Hk]. eauto.
  - destruct Hp as [Hb Hk]. eauto.
Qed.

Lemma observe_cons {A} (f : item -> option A) (i : item) (tr : list item) :
  omap f (rev (i :: tr)) = omap f (rev tr) ++ omap f [i].
Proof. simpl rev. rewrite omap_app. reflexivity. Qed.

Lemma sshClient_set_wg v c : sshClient (set_wg v c) = sshClient c.
Proof. reflexivity. Qed.

Lemma sshClient_set_mx v c : sshClient (set_mx v c) = sshClient c.
Proof. reflexivity. Qed.

Ltac same_attempts :=
  unfold history, connect_attempts; simpl trace;
  rewrite ?observe_cons; simpl; rewrite ?app_nil_r; reflexivity.

(** A step of a configuration without a session leaves it without a
    session, and adds no connect attempt to the trace. *)
Lemma without_session_step t a s s' :
  without_session s -> step t a s = Some s' ->
  without_session s' /\ connect_attempts (history s') = connect_attempts (history s).
Proof.
  intros [Hcl Hths] Hstep. unfold step in Hstep.
  destruct (crashed s) eqn:Hcr; [discriminate|].
  destruct (threads s !! t) as [th|] eqn:Hth; [|discriminate]. simpl in Hstep.
  pose proof (Forall_lookup_1 _ _ _ _ Hths Hth) as Hnc.
  destruct th as [[u|msg|X m k|X o k|X c k|child k|body k]|X c k]; simpl in Hnc.
  - discriminate.
  - injection Hstep as <-. split; [split; assumption|same_attempts].
  - injection Hstep as <-. destruct Hnc as [Hm Hk].
    destruct m as [Y fld|Y fld v]; simpl; (split; [|reflexivity]).
    + split; [exact Hcl|]. apply Forall_insert; [exact Hths|].
      destruct fld; simpl in *; try apply Hk. rewrite Hcl. exact Hk.
    + split; [destruct fld; simpl in *; assumption|].
      apply Forall_insert; [exact Hths|]. exact Hk.
  - destruct o as [| | |w d|w|w]; simpl in Hstep.
    + destruct (mx (tun s)); [discriminate|]. injection Hstep as <-.
      split; [split; [exact Hcl|apply Forall_insert; [exact Hths|apply Hnc]]|same_attempts].
    + destruct (mx (tun s)); injection Hstep as <-.
      * split; [split; [exact Hcl|apply Forall_insert; [exact Hths|apply Hnc]]|same_attempts].
      * split; [split; assumption|same_attempts].
    + injection Hstep as <-.
      split; [split; [exact Hcl|apply Forall_insert; [exact Hths|apply Hnc]]|same_attempts].
    + unfold wg_add in Hstep. destruct (wg_counter w s) as [n|]; [|discriminate].
      simpl in Hstep. destruct (n + d <? 0)%Z; simpl in Hstep; injection Hstep as <-.
      * split; [split; assumption|same_attempts].
      * destruct w; simpl; rewrite Hcr;
          (split; [split; [exact Hcl|apply Forall_insert; [exact Hths|apply Hnc]]
                  |same_attempts]).
    + unfold wg_add in Hstep. destruct (wg_counter w s) as [n|]; [|discriminate].
      simpl in Hstep. destruct (n + -1 <? 0)%Z; simpl in Hstep; injection Hstep as <-.
      * split; [split; assumption|same_attempts].
      * destruct w; simpl; rewrite Hcr;
          (split; [split; [exact Hcl|apply Forall_insert; [exact Hths|apply Hnc]]
                  |same_attempts]).
    + destruct (wg_counter w s) as [n|]; [|discriminate]. simpl in Hstep.
      destruct (n =? 0)%Z; [|discriminate]. injection Hstep as <-.
      split; [split; [exact Hcl|apply Forall_insert; [exact Hths|apply Hnc]]|same_attempts].
  - injection Hstep as <-. destruct Hnc as [Hc Hk].
    split; [split; [exact Hcl|apply Forall_insert; [exact Hths|split; assumption]]|].
    destruct c; try discriminate Hc; same_attempts.
  - injection Hstep as <-. destruct Hnc as [Hc Hk].
    split; [split; [exact Hcl|]|same_attempts].
    simpl. apply Forall_app. split; [apply Forall_insert; assumption|].
    apply Forall_cons. split; [exact Hc|apply Forall_nil_2].
  - injection Hstep as <-. destruct Hnc as [Hb Hk].
    split; [split; [exact Hcl|]|reflexivity].
    apply Forall_insert; [exact Hths|]. simpl.
    apply no_connect_bind; [exact Hb|]. intros [|]; simpl; auto.
  - destruct (decode c a) as [x|]; [|discriminate]. simpl in Hstep.
    injection Hstep as <-. destruct Hnc as [Hc Hk].
    split; [split; [exact Hcl|apply Forall_insert; [exact Hths|apply Hk]]|same_attempts].
Qed.

Lemma without_session_reachable s s' :
  without_session s -> reachable s s' ->
  without_session s' /\ connect_attempts (history s') = connect_attempts (history s).
Proof.
  intros Hs Hr. induction Hr as [s|s s1 s2 [t [a Hstep]] Hr IH]; [auto|].
  destruct (without_session_step _ _ _ _ Hs Hstep) as [Hs1 E1].
  destruct (IH Hs1) as [Hs2 E2]. split; [exact Hs2|congruence].
Qed.

(** Both listen loops, [Close] and [Wait] never connect while there is
    no session. *)
Ltac no_connect_tac :=
  repeat (simpl; intros; unfold logCloseFailure;
          match goal with
          | |- _ /\ _ => split
          | |- True => exact I
          | |- _ = _ => reflexivity
          | |- context [match ?x with _ => _ end] => destruct x
          end).

Lemma supervisorLoop_no_connect o : no_connect (supervisorLoop o).
Proof. destruct o; no_connect_tac. Qed.

Lemma Close_no_connect : no_connect Close.
Proof. no_connect_tac. Qed.

(** The supervisory goroutine up to its listen loop, when the connect
    fails: nineteen steps, one call to [ssh.Dial], the error dropped. *)
Lemma supervisor_prologue_connect_fails (o : Orientation) (c : SSHTunnel) (e : error) :
  sshClient c = None -> mx c = false ->
  exists tr0,
    run_thread 19 0 [AClient (Err e)] (start c (supervisor o))
    = (mkConfig c [] [Ready (supervisorLoop o)] false tr0, []) /\
    connect_attempts (rev tr0) = [host c] /\
    sleeps (rev tr0) = [] /\
    listened_clients (rev tr0) = [].
Proof.
  intros Hcl Hmx.
  destruct c as [cfg h cl nn na sn sa ln clo ast iot lg w m]; simpl in Hcl, Hmx; subst.
  destruct o; eexists; (split; [vm_compute; reflexivity|vm_compute; repeat split]).
Qed.

(** C4 (as stated, fails).  The reverse tunnel of the command with a
    session that cannot be established: after the failed connect the
    loop turns three times, sleeping the backoff each time, and
    [ssh.Dial] has been called once only; the answers prepared for
    further connects are never asked for.  The forward tunnel binds its
    listener and accepts a connection, and the proxy task closes it
    without a connect either. *)
Lemma failed_connect_not_retried_after_backoff :
  let f := mkFlags "example.org" "22" "root" "wrong" "8080" "80" true in
  let denied := AClient (Err (ErrNew "ssh: unable to authenticate")) in
  let r := run_thread (19 + 14 * 3) 0 [denied; denied; denied; denied]
             (start (main_tunnel f) reverseSupervisor) in
  let s := run_segments
             [(200, 0, [denied; AListener (Ok (mkListener 1)); AConn (Ok (mkConn 1))]);
              (200, 1, [AErr None; denied])]
             (start (set_wg 1 (main_tunnel f)) forwardSupervisor) in
  connect_attempts (history (fst r)) = ["example.org:22"] /\
  sleeps (history (fst r)) = [3000000000; 3000000000; 3000000000]%Z /\
  snd r = [denied; denied; denied] /\
  threads (fst r) = [Ready (supervisorLoop Reverse)] /\
  connect_attempts (history s) = ["example.org:22"] /\
  closed_conns (history s) = [mkConn 1] /\
  log_lines (history s) =
    ["Started Tunnel"; "Closed sshClient"; "ssh.Connect..."; "ssh.Connect failed: %v";
     "net.Listen on %s/%s..."; "net.Listen successful"; "accept successful";
     "ssh.Dial to %s/%s..."; "ssh.Dial failed: sshClient is nil"].
Proof. vm_compute. repeat split. Qed.

(** C4 (amended).  The supervisory goroutine calls [sshConnect] once,
    when it starts, and drops its error.  When that connect fails the
    goroutine enters its listen loop without a session, and from there
    on, in either orientation and whatever the goroutines and the
    environment do, [ssh.Dial] is never called again and the session
    handle stays nil.  What is retried forever at the backoff interval,
    while the tunnel is not closed, is the listen of the reverse
    tunnel: each turn of the loop fails in [sshListen] with "sshClient
    is nil", without calling [Listen], and sleeps [attemptSleepTime]. *)
Theorem failed_connect_is_never_retried :
  forall (o : Orientation) (c : SSHTunnel) (e : error),
    sshClient c = None -> mx c = false ->
    let s1 := fst (run_thread 19 0 [AClient (Err e)] (start c (supervisor o))) in
    (crashed s1 = false /\ tun s1 = c /\ threads s1 = [Ready (supervisorLoop o)] /\
     connect_attempts (history s1) = [host c]) /\
    (forall s, reachable s1 s ->
       connect_attempts (history s) = [host c] /\ sshClient (tun s) = None) /\
    (closed c = false ->
     forall n,
       let s := fst (run_thread (19 + 14 * n) 0 [AClient (Err e)]
                       (start c reverseSupervisor)) in
       crashed s = false /\ tun s = c /\ threads s = [Ready (supervisorLoop Reverse)] /\
       connect_attempts (history s) = [host c] /\
       listened_clients (history s) = [] /\
       sleeps (history s) = replicate n (attemptSleepTime c)).
Proof.
  intros o c e Hcl Hmx s1.
  destruct (supervisor_prologue_connect_fails o c e Hcl Hmx) as (tr0 & E0 & Hc0 & _ & _).
  assert (H1 : crashed s1 = false /\ tun s1 = c /\ threads s1 = [Ready (supervisorLoop o)] /\
               connect_attempts (history s1) = [host c]).
  { subst s1. rewrite E0. repeat split. exact Hc0. }
  split; [exact H1|]. destruct H1 as (_ & Htun & Hth & Hca). split.
  - intros s Hr.
    assert (Hws : without_session s1).
    { split; [rewrite Htun; exact Hcl|]. rewrite Hth.
      apply Forall_cons. split; [apply supervisorLoop_no_connect|apply Forall_nil_2]. }
    destruct (without_session_reachable _ _ Hws Hr) as [[Hnone _] Heq].
    split; [rewrite Heq; exact Hca|exact Hnone].
  - intros Hclosed n s.
    destruct (supervisor_prologue_connect_fails Reverse c e Hcl Hmx)
      as (tr1 & E1 & Hc1 & Hs1 & Hl1).
    simpl supervisor in E1. subst s. rewrite run_thread_add, E1. cbn [fst snd].
    rewrite reverse_loop_turns_without_session by assumption. cbn [fst snd].
    unfold history, connect_attempts, listened_clients, sleeps. cbn [trace crashed tun threads].
    rewrite !observe_turns.
    fold (connect_attempts (rev tr1)) (listened_clients (rev tr1)) (sleeps (rev tr1)).
    rewrite Hc1, Hs1, Hl1. simpl.
    repeat split.
    + clear. induction n as [|n IH]; [reflexivity|exact IH].
    + clear. induction n as [|n IH]; [reflexivity|exact IH].
    + clear. induction n as [|n IH]; [reflexivity|]. simpl. f_equal. exact IH.
Qed.

(** ** At most one connect at a time *)

Lemma locks_bind {A B : Type} (p : prog A) (f : A -> prog B) (h h1 h2 : bool) :
  locks h p h1 -> (forall a, locks h1 (f a) h2) -> locks h (bind p f) h2.
Proof.
  revert B f h h1 h2.
  induction p as [A a|A msg|A X m k IH|A X o k IH|A X c k IH|A child IHc k IHk
                  |A body IHb k IHk]; intros B f h h1 h2 Hp Hf; simpl in *.
  - subst h1. apply Hf.
  - exact I.
  - eauto.
  - destruct (lock_after o h); [eauto|contradiction].
  - destruct Hp as [Hc Hk]. eauto.
  - destruct Hp as [Hc Hk]. eauto.
  - destruct Hp as [Hb Hk]. eauto.
Qed.

Lemma mx_set_field {X : Type} (f : field X) (v : X) (c : SSHTunnel) :
  mx (set_field f v c) = mx c.
Proof. destruct f; reflexivity. Qed.

(** Goroutine [t] moves on without locking or unlocking. *)
Lemma lock_ok_same m ths t th th' :
  lock_ok m ths -> ths !! t = Some th ->
  (forall h, thread_locks h th -> thread_locks h th') ->
  lock_ok m (<[t := th']> ths).
Proof.
  intros (hs & HF & Huniq & Hm) Hth Hstep.
  destruct (Forall2_lookup_r _ _ _ _ _ HF Hth) as (h & Hh & Hlk).
  exists hs. split; [|split; assumption].
  rewrite <- (list_insert_id hs t h Hh). apply Forall2_insert; [exact HF|].
  apply Hstep, Hlk.
Qed.

(** A [go] statement adds a goroutine that does not hold the mutex. *)
Lemma lock_ok_spawn m ths th :
  lock_ok m ths -> thread_locks false th -> lock_ok m (ths ++ [th]).
Proof.
  intros (hs & HF & Huniq & Hm) Hth.
  pose proof (Forall2_length _ _ _ HF) as Hlen.
  exists (hs ++ [false]). split.
  - apply Forall2_app; [exact HF|]. constructor; [exact Hth|constructor].
  - assert (Hold : forall i, (hs ++ [false]) !! i = Some true -> hs !! i = Some true).
    { intros i Hi. apply lookup_app_Some in Hi. destruct Hi as [Hi|[_ Hi]]; [exact Hi|].
      destruct (i - length hs) as [|n]; simpl in Hi; [discriminate|].
      rewrite lookup_nil in Hi. discriminate. }
    split.
    + intros i j Hi Hj. apply Hold in Hi. apply Hold in Hj. eauto.
    + intros i Hi. apply Hold in Hi. eauto.
Qed.

(** Goroutine [t] locks the free mutex. *)
Lemma lock_ok_acquire ths t th th' :
  lock_ok false ths -> ths !! t = Some th ->
  (thread_locks false th -> thread_locks true th') ->
  lock_ok true (<[t := th']> ths).
Proof.
  intros (hs & HF & Huniq & Hm) Hth Hstep.
  destruct (Forall2_lookup_r _ _ _ _ _ HF Hth) as (h & Hh & Hlk).
  assert (Hnone : forall i, hs !! i <> Some true).
  { intros i Hi. specialize (Hm i Hi). discriminate. }
  destruct h; [exfalso; eapply Hnone, Hh|].
  exists (<[t := true]> hs). split; [|split].
  - apply Forall2_insert; [exact HF|]. apply Hstep, Hlk.
  - intros i j Hi Hj.
    destruct (decide (i = t)) as [->|Hit]; destruct (decide (j = t)) as [->|Hjt];
      try reflexivity.
    + rewrite list_lookup_insert_ne in Hj by congruence. exfalso; eapply Hnone, Hj.
    + rewrite list_lookup_insert_ne in Hi by congruence. exfalso; eapply Hnone, Hi.
    + rewrite list_lookup_insert_ne in Hi by congruence. exfalso; eapply Hnone, Hi.
  - reflexivity.
Qed.

(** Goroutine [t], which can only be the holder, unlocks the mutex. *)
Lemma lock_ok_release m ths t th th' :
  lock_ok m ths -> ths !! t = Some th ->
  (forall h, thread_locks h th -> h = true /\ thread_locks false th') ->
  lock_ok false (<[t := th']> ths).
Proof.
  intros (hs & HF & Huniq & Hm) Hth Hstep.
  destruct (Forall2_lookup_r _ _ _ _ _ HF Hth) as (h & Hh & Hlk).
  destruct (Hstep h Hlk) as [-> Hlk'].
  assert (Hnone : forall i, <[t := false]> hs !! i <> Some true).
  { intros i Hi. destruct (decide (i = t)) as [->|Hit].
    - rewrite list_lookup_insert_eq in Hi by (eapply lookup_lt_Some, Hh). discriminate.
    - rewrite list_lookup_insert_ne in Hi by congruence.
      apply Hit. eapply Huniq; eassumption. }
  exists (<[t := false]> hs). split; [|split].
  - apply Forall2_insert; [exact HF|exact Hlk'].
  - intros i j Hi _. exfalso; eapply Hnone, Hi.
  - intros i Hi. exfalso; eapply Hnone, Hi.
Qed.

Lemma lock_ok_typed m ths t th :
  lock_ok m ths -> ths !! t = Some th -> exists h, thread_locks h th.
Proof.
  intros (hs & HF & _) Hth.
  destruct (Forall2_lookup_r _ _ _ _ _ HF Hth) as (h & _ & Hlk). eauto.
Qed.

(** Every step keeps the discipline. *)
Lemma lock_inv_step t a s s' : lock_inv s -> step t a s = Some s' -> lock_inv s'.
Proof.
  unfold lock_inv. intros Hinv Hstep. unfold step in Hstep.
  destruct (crashed s) eqn:Hcr; [discriminate|].
  destruct (threads s !! t) as [th|] eqn:Hth; [|discriminate]. simpl in Hstep.
  destruct th as [[u|msg|X m k|X o k|X c k|child k|body k]|X c k].
  - discriminate.
  - injection Hstep as <-. exact Hinv.
  - injection Hstep as <-. destruct m as [Y fld|Y fld v]; simpl.
    + eapply lock_ok_same; [exact Hinv|exact Hth|]. intros h Hl. apply Hl.
    + rewrite mx_set_field.
      eapply lock_ok_same; [exact Hinv|exact Hth|]. intros h Hl. apply Hl.
  - destruct o as [| | |w d|w|w]; simpl in Hstep.
    + destruct (mx (tun s)) eqn:Hmx; [discriminate|]. injection Hstep as <-. simpl.
      eapply lock_ok_acquire; [exact Hinv|exact Hth|]. intros Hl. apply Hl.
    + destruct (mx (tun s)) eqn:Hmx; injection Hstep as <-; simpl.
      * eapply lock_ok_release; [exact Hinv|exact Hth|].
        intros [|] Hl; simpl in Hl; [split; [reflexivity|apply Hl]|contradiction].
      * rewrite Hmx. exact Hinv.
    + injection Hstep as <-. simpl.
      eapply lock_ok_same; [exact Hinv|exact Hth|]. intros h Hl. apply Hl.
    + unfold wg_add in Hstep. destruct (wg_counter w s) as [n|]; [|discriminate].
      simpl in Hstep. destruct (n + d <? 0)%Z; simpl in Hstep; injection Hstep as <-.
      * exact Hinv.
      * destruct w; simpl; rewrite Hcr; simpl;
          (eapply lock_ok_same; [exact Hinv|exact Hth|]); intros h Hl; apply Hl.
    + unfold wg_add in Hstep. destruct (wg_counter w s) as [n|]; [|discriminate].
      simpl in Hstep. destruct (n + -1 <? 0)%Z; simpl in Hstep; injection Hstep as <-.
      * exact Hinv.
      * destruct w; simpl; rewrite Hcr; simpl;
          (eapply lock_ok_same; [exact Hinv|exact Hth|]); intros h Hl; apply Hl.
    + destruct (wg_counter w s) as [n|]; [|discriminate]. simpl in Hstep.
      destruct (n =? 0)%Z; [|discriminate]. injection Hstep as <-. simpl.
      eapply lock_ok_same; [exact Hinv|exact Hth|]. intros h Hl. apply Hl.
  - injection Hstep as <-. simpl.
    eapply lock_ok_same; [exact Hinv|exact Hth|]. intros h Hl. exact Hl.
  - injection Hstep as <-. simpl.
    destruct (lock_ok_typed _ _ _ _ Hinv Hth) as [h0 [Hchild _]].
    apply lock_ok_spawn; [|exact Hchild].
    eapply lock_ok_same; [exact Hinv|exact Hth|]. intros h Hl. apply Hl.
  - injection Hstep as <-. simpl.
    eapply lock_ok_same; [exact Hinv|exact Hth|]. intros h [Hb Hk]. simpl.
    eapply locks_bind; [exact Hb|]. intros [|]; simpl; auto.
  - destruct (decode c a) as [x|]; [|discriminate]. simpl in Hstep.
    injection Hstep as <-. simpl.
    eapply lock_ok_same; [exact Hinv|exact Hth|]. intros h [_ Hk]. apply Hk.
Qed.

Lemma lock_inv_reachable s s' : lock_inv s -> reachable s s' -> lock_inv s'.
Proof.
  intros Hs Hr. induction Hr as [s|s s1 s2 [t [a Hstep]] Hr IH]; [exact Hs|].
  apply IH. eapply lock_inv_step; eassumption.
Qed.

(** Under the discipline two connects in flight are one, and the mutex
    is locked while a connect is in flight. *)
Lemma lock_inv_exclusive s i j :
  lock_inv s -> connecting s i -> connecting s j -> i = j /\ mx (tun s) = true.
Proof.
  intros (hs & HF & Huniq & Hm) (ki & ni & ai & ci & Hi) (kj & nj & aj & cj & Hj).
  destruct (Forall2_lookup_r _ _ _ _ _ HF Hi) as (hi & Hhi & [Hci _]).
  destruct (Forall2_lookup_r _ _ _ _ _ HF Hj) as (hj & Hhj & [Hcj _]).
  rewrite (Hci eq_refl) in Hhi. rewrite (Hcj eq_refl) in Hhj.
  split; [eapply Huniq; eassumption|eapply Hm; eassumption].
Qed.

(** Every function of the package follows the discipline: all but
    [sshConnect] leave the mutex as they find it and never call
    [ssh.Dial]; [sshConnect] locks, connects and unlocks. *)
Create HintDb locks discriminated.

Lemma locks_readf {X : Type} (f : field X) h : locks h (readf f) h.
Proof. simpl. reflexivity. Qed.

Lemma locks_writef {X : Type} (f : field X) (v : X) h : locks h (writef f v) h.
Proof. simpl. reflexivity. Qed.

Lemma locks_call {X : Type} (c : call X) h : is_connect c = false -> locks h (call_ c) h.
Proof. intros Hc. simpl. rewrite Hc. split; [discriminate|reflexivity]. Qed.

Lemma locks_wg {X : Type} (o : syncop X) h : lock_after o h = Some h -> locks h (sync o) h.
Proof. intros Ho. simpl. rewrite Ho. reflexivity. Qed.

Lemma locks_go child h : locks false child false -> locks h (go child) h.
Proof. intros Hc. simpl. split; [exact Hc|reflexivity]. Qed.

Lemma locks_ret {A : Type} (a : A) h : locks h (Ret a) h.
Proof. reflexivity. Qed.

Lemma locks_panic {A : Type} msg h h' : locks h (Panic (A := A) msg) h'.
Proof. exact I. Qed.

#[local] Hint Resolve locks_readf locks_writef locks_call locks_wg locks_go locks_ret
  locks_panic : locks.
#[local] Hint Extern 1 (is_connect _ = false) => reflexivity : locks.
#[local] Hint Extern 1 (lock_after _ _ = Some _) => reflexivity : locks.

Ltac locks_go :=
  intros;
  lazymatch goal with
  | |- locks _ (bind _ _) _ => eapply locks_bind; [locks_go|intros; locks_go]
  | |- locks _ (match ?x with _ => _ end) _ => destruct x; locks_go
  | |- locks _ _ _ => solve [eauto with locks]
  end.

Lemma locks_log format v h : locks h (log format v) h.
Proof. unfold log. locks_go. Qed.
#[local] Hint Resolve locks_log : locks.

Lemma locks_logCloseFailure format err h : locks h (logCloseFailure format err) h.
Proof. unfold logCloseFailure. locks_go. Qed.
#[local] Hint Resolve locks_logCloseFailure : locks.

Lemma locks_sleepAttempt h : locks h sleepAttempt h.
Proof. unfold sleepAttempt. locks_go. Qed.
#[local] Hint Resolve locks_sleepAttempt : locks.

Lemma locks_viaClient {A : Type} (method : Client -> prog A) h h' :
  (forall client, locks h (method client) h') -> locks h (viaClient method) h'.
Proof. intros Hm. unfold viaClient. simpl. intros [client|]; [apply Hm|exact I]. Qed.

Lemma locks_viaListener {A : Type} (method : Listener -> prog A) h h' :
  (forall ln, locks h (method ln) h') -> locks h (viaListener method) h'.
Proof. intros Hm. unfold viaListener. simpl. intros [ln|]; [apply Hm|exact I]. Qed.
#[local] Hint Resolve locks_viaClient locks_viaListener : locks.

Lemma locks_closeSSH h : locks h closeSSH h.
Proof. unfold closeSSH. locks_go. Qed.

Lemma locks_closeListener h : locks h closeListener h.
Proof. unfold closeListener. locks_go. Qed.
#[local] Hint Resolve locks_closeSSH locks_closeListener : locks.

Lemma locks_lock : locks false (sync MxLock) true.
Proof. simpl. reflexivity. Qed.

Lemma locks_unlock : locks true (sync MxUnlock) false.
Proof. simpl. reflexivity. Qed.

Lemma locks_connect network addr config : locks true (call_ (SshDial network addr config)) true.
Proof. simpl. split; reflexivity. Qed.
#[local] Hint Resolve locks_lock locks_unlock locks_connect : locks.

Lemma locks_sshConnect : locks false sshConnect false.
Proof. unfold sshConnect. locks_go. Qed.
#[local] Hint Resolve locks_sshConnect : locks.

Lemma locks_clientDial h : locks h clientDial h.
Proof. unfold clientDial. apply locks_viaClient. locks_go. Qed.

Lemma locks_clientListen h : locks h clientListen h.
Proof. unfold clientListen. apply locks_viaClient. locks_go. Qed.
#[local] Hint Resolve locks_clientDial locks_clientListen : locks.

Lemma locks_sshDial : locks false sshDial false.
Proof. unfold sshDial. locks_go. Qed.

Lemma locks_sshListen : locks false sshListen false.
Proof. unfold sshListen. locks_go. Qed.

Lemma locks_netDial h : locks h netDial h.
Proof. unfold netDial. locks_go. Qed.

Lemma locks_netListen h : locks h netListen h.
Proof. unfold netListen. locks_go. Qed.

Lemma locks_accept h : locks h accept h.
Proof. unfold accept. locks_go. Qed.
#[local] Hint Resolve locks_sshDial locks_sshListen locks_netDial locks_netListen
  locks_accept : locks.

Lemma locks_copyTask w dst src format : locks false (copyTask w dst src format) false.
Proof.
  unfold copyTask. locks_go.
Qed.
#[local] Hint Resolve locks_copyTask : locks.

Lemma locks_proxy lConn rConn : locks false (proxy lConn rConn) false.
Proof. unfold proxy. locks_go. Qed.
#[local] Hint Resolve locks_proxy : locks.

Lemma locks_forwardTask lConn : locks false (forwardTask lConn) false.
Proof. unfold forwardTask, forwardConn. locks_go. Qed.

Lemma locks_reverseTask rConn : locks false (reverseTask rConn) false.
Proof. unfold reverseTask, reverseConn. locks_go. Qed.
#[local] Hint Resolve locks_forwardTask locks_reverseTask : locks.

Lemma locks_for_not_closed body :
  locks false body false -> locks false (for_not_closed body) false.
Proof.
  intros Hb. unfold for_not_closed. simpl. split; [|reflexivity].
  intros [|]; [reflexivity|exact Hb].
Qed.

Lemma locks_acceptLoop task :
  (forall conn, locks false (task conn) false) -> locks false (acceptLoop task) false.
Proof.
  intros Ht. unfold acceptLoop. apply locks_for_not_closed.
  unfold continue, break. locks_go.
Qed.

#[local] Hint Resolve locks_acceptLoop : locks.

Lemma locks_forwardLoop : locks false forwardLoop false.
Proof.
  unfold forwardLoop. apply locks_for_not_closed. unfold continue. locks_go.
Qed.

Lemma locks_reverseLoop : locks false reverseLoop false.
Proof.
  unfold reverseLoop. apply locks_for_not_closed. unfold continue. locks_go.
Qed.
#[local] Hint Resolve locks_forwardLoop locks_reverseLoop : locks.

Lemma locks_supervisor o : locks false (supervisor o) false.
Proof.
  destruct o; unfold supervisor, forwardSupervisor, reverseSupervisor; locks_go.
Qed.

Lemma invoke_locks m : locks false (invoke m) false.
Proof.
  destruct m; unfold invoke, ForwardTunnel, ReverseTunnel, Close, closeInternal, Wait,
    SetAttemptSleepTime, SetLogger, SetNoLogger.
  - pose proof (locks_supervisor Forward). locks_go.
  - pose proof (locks_supervisor Reverse). locks_go.
  - locks_go.
  - locks_go.
  - locks_go.
  - locks_go.
  - locks_go.
Qed.

Lemma caller_locks calls : locks false (caller calls) false.
Proof.
  induction calls as [|m rest IH]; simpl; [reflexivity|].
  eapply locks_bind; [apply invoke_locks|]. intros _. exact IH.
Qed.

Lemma callers_lock_inv c programs : mx c = false -> lock_inv (callers c programs).
Proof.
  intros Hmx. unfold lock_inv, callers. simpl. rewrite Hmx.
  exists (map (fun _ => false) programs). split; [|split].
  - induction programs as [|calls rest IH]; simpl; constructor;
      [apply caller_locks|exact IH].
  - intros i j Hi _. rewrite list_lookup_fmap in Hi.
    destruct (programs !! i); discriminate.
  - intros i Hi. rewrite list_lookup_fmap in Hi.
    destruct (programs !! i); discriminate.
Qed.

(** C7.  Any number of goroutines call the methods of one tunnel, in
    any order and any number of times; the goroutines these start
    (supervisory loops, proxy tasks, copy directions) run with them,
    interleaved in any way, with any answers from the network.  At
    every moment at most one goroutine is inside [ssh.Dial]: two
    connects in flight are the same one, and the mutex of the tunnel
    is locked while it lasts. *)
Theorem at_most_one_connect_in_flight :
  forall (c : SSHTunnel) (programs : list (list method)) (s : config),
    mx c = false ->
    reachable (callers c programs) s ->
    forall i j, connecting s i -> connecting s j -> i = j /\ mx (tun s) = true.
Proof.
  intros c programs s Hmx Hr i j Hi Hj.
  eapply lock_inv_exclusive; [|exact Hi|exact Hj].
  eapply lock_inv_reachable; [apply callers_lock_inv, Hmx|exact Hr].
Qed.

(** ** A proxy task and its copy goroutines *)

Section ProxyFacts.

Variables lConn rConn : Conn.
Variable timeout : Duration.

(** The two copy goroutines and the task follow their stages. *)
Lemma copyTask_follows w dst src format :
  copy_follows w dst src CStart (copyTask w dst src format).
Proof.
  simpl. repeat split. intros [n [e|]]; simpl; [|repeat split].
  destruct (negb (errors_Is e EOF) && negb (errors_Is e ErrDeadlineExceeded));
    simpl; repeat split.
Qed.

Lemma proxy_follows : task_follows lConn rConn timeout PStart (proxy lConn rConn).
Proof.
  repeat (simpl; intros; unfold logCloseFailure;
          match goal with
          | |- _ /\ _ => split
          | |- True => exact I
          | |- _ = _ => reflexivity
          | |- context [match ?x with _ => _ end] => destruct x
          end).
Qed.

Lemma copy_thread_done w dst src th :
  copy_thread w dst src CDone th -> th = Ready (Ret tt).
Proof.
  destruct th as [[[]|msg|X m k|X o k|X c k|child k|body k]|X c k]; simpl;
    try contradiction; try reflexivity.
  - destruct m; intros H; [destruct H; discriminate|contradiction].
  - destruct o; try contradiction. intros [H _]. discriminate.
  - destruct c; try contradiction; intros [H _]; discriminate.
  - destruct c; try contradiction; intros [H _]; discriminate.
Qed.

Lemma wg_counter_set w v n s :
  wg_counter w s = Some n -> wg_counter w (set_wg_counter w v s) = Some v.
Proof.
  destruct w as [|id]; simpl; [reflexivity|]. intros H.
  apply list_lookup_insert_eq. eapply lookup_lt_Some, H.
Qed.

Ltac enter st cs :=
  exists st, cs; eexists; eexists;
  split; [reflexivity|];
  split; [reflexivity|];
  split; [simpl; assumption|];
  split; [|split; [|split; [|split; [|split]]]].

(** A step of the task itself. *)
Lemma task_step a tn wgs0 pth cths tr st cs s' :
  ioTimeout tn = timeout ->
  task_thread lConn rConn timeout st pth ->
  copies_at lConn rConn st cs cths ->
  counter_at st cs (mkConfig tn wgs0 (pth :: cths) false tr) ->
  rest_at lConn rConn st ->
  observe tr = expected lConn rConn timeout st cs ->
  ordered tr ->
  step 0 a (mkConfig tn wgs0 (pth :: cths) false tr) = Some s' ->
  proxy_inv lConn rConn timeout s'.
Proof.
  intros Hio Hth Hcs Hwg Hrest Hobs Hord Hstep.
  unfold step in Hstep. simpl in Hstep.
  destruct pth as [[u|msg|X m k|X o k|X c k|child k|body k]|X c k]; simpl in Hth;
    try discriminate; try contradiction.
  - (* load *)
    injection Hstep as <-. destruct m as [Y f|Y f v]; [|contradiction].
    destruct f; try contradiction; simpl.
    + destruct st; try contradiction.
      enter (PDeadline now) cs;
        [> simpl; rewrite Hio; exact Hth | exact Hcs | exact I | exact I | exact Hobs
         | exact Hord].
    + destruct Hth as [Hlog Hk].
      enter st cs; [> apply Hk | exact Hcs | | exact Hrest | exact Hobs | exact Hord].
      destruct st; try contradiction; exact I.
  - (* sync *)
    destruct o as [| | |w' d|w'|w']; try contradiction; simpl in Hstep.
    + destruct st; try contradiction. injection Hstep as <-.
      enter (PNew now (LocalWg (length wgs0))) cs;
        [> apply Hth | exact Hcs | | exact I | exact Hobs | split; [exact I|exact Hord]].
      simpl. apply list_lookup_middle. reflexivity.
    + destruct st; try contradiction. destruct Hth as (-> & -> & Hk).
      unfold wg_add in Hstep. simpl in Hwg. rewrite Hwg in Hstep. simpl in Hstep.
      injection Hstep as <-. destruct Hcs as [-> ->].
      destruct w as [|id]; simpl in *.
      * enter (PAdded now TunnelWg) (@nil cstate);
          [> exact Hk | split; reflexivity | reflexivity | exact I | exact Hobs
           | split; [exact I|exact Hord]].
      * enter (PAdded now (LocalWg id)) (@nil cstate);
          [> exact Hk | split; reflexivity | | exact I | exact Hobs
           | split; [exact I|exact Hord]].
        simpl. apply list_lookup_insert_eq. eapply lookup_lt_Some, Hwg.
    + destruct st; try contradiction. destruct Hth as (-> & Hk).
      simpl in Hwg. rewrite Hwg in Hstep. simpl in Hstep.
      destruct (2 - Z.of_nat (count_if is_done cs) =? 0)%Z eqn:E; [|discriminate].
      injection Hstep as <-.
      destruct Hcs as (c1 & c2 & t1 & t2 & -> & -> & H1 & H2).
      destruct c1, c2; try discriminate E.
      apply copy_thread_done in H1. apply copy_thread_done in H2. subst t1 t2.
      enter (PJoined now w [lConn; rConn]) [CDone; CDone];
        [> exact Hk | split; reflexivity | exact I | left; reflexivity
         | simpl; rewrite Hobs; reflexivity
         | split; [simpl; rewrite Hobs; reflexivity|exact Hord]].
  - (* call *)
    injection Hstep as <-.
    destruct c; try contradiction.
    + destruct st as [| | | | | | | | | |now w [|next rest]|]; try contradiction.
      destruct Hth as (-> & Hk).
      enter (PClosing now w rest) cs;
        [> exact Hk | exact Hcs | exact I | | simpl; rewrite Hobs
         | split; [simpl; rewrite Hobs; split; reflexivity|exact Hord]].
      * destruct Hrest as [Hr|[Hr|Hr]]; inversion Hr; subst; [left|right]; reflexivity.
      * destruct Hrest as [Hr|[Hr|Hr]]; inversion Hr; subst; reflexivity.
    + destruct st; try contradiction. destruct Hth as (-> & -> & Hk).
      enter (PDeadlineCall now) cs;
        [> exact Hk | exact Hcs | exact I | exact I | simpl; rewrite Hobs; reflexivity
         | split; [exact I|exact Hord]].
    + destruct Hth as (-> & Hk).
      enter PNowCall cs;
        [> split; [reflexivity|exact Hk] | exact Hcs | exact I | exact I | exact Hobs
         | split; [exact I|exact Hord]].
    + destruct Hth as (Hlog & Hk).
      enter st cs;
        [> split; [exact Hlog|exact Hk] | exact Hcs | | exact Hrest | exact Hobs
         | split; [exact I|exact Hord]].
      destruct st; try contradiction; exact I.
  - (* go *)
    injection Hstep as <-.
    destruct st; try contradiction; destruct Hth as (Hc & Hk).
    + destruct Hcs as [-> ->].
      enter (POne now w) [CStart];
        [> exact Hk | exists CStart, (Ready child); repeat split; exact Hc
         | destruct w; exact Hwg | exact I | simpl; rewrite Hobs; reflexivity
         | split; [exact I|exact Hord]].
    + destruct Hcs as (c1 & t1 & -> & -> & H1).
      enter (PTwo now w) [c1; CStart];
        [> exact Hk | exists c1, CStart, t1, (Ready child); repeat split; assumption
         | destruct w, c1; exact Hwg | exact I
         | simpl; rewrite Hobs; destruct c1; reflexivity
         | split; [exact I|exact Hord]].
  - (* return *)
    destruct c; try contradiction.
    + destruct st; try contradiction.
      destruct a; try discriminate. simpl in Hstep. injection Hstep as <-.
      enter (PJoined now w rest) cs;
        [> apply Hth | exact Hcs | exact I | | simpl; exact Hobs
         | split; [exact I|exact Hord]].
      destruct Hrest as [Hr|Hr]; subst; [right; left|right; right]; reflexivity.
    + destruct st; try contradiction.
      destruct a; try discriminate. simpl in Hstep. injection Hstep as <-.
      enter (PDeadlineSet now) cs;
        [> apply Hth | exact Hcs | exact I | exact I | simpl; rewrite Hobs; reflexivity
         | split; [exact I|exact Hord]].
    + destruct Hth as (-> & Hk).
      destruct a; try discriminate. simpl in Hstep. injection Hstep as <-.
      enter (PNow now) cs;
        [> apply Hk | exact Hcs | exact I | exact I | simpl; rewrite Hobs; reflexivity
         | split; [exact I|exact Hord]].
    + destruct Hth as (Hlog & Hk). simpl in Hstep. injection Hstep as <-.
      enter st cs;
        [> apply Hk | exact Hcs | | exact Hrest | exact Hobs | split; [exact I|exact Hord]].
      destruct st; try contradiction; exact I.
Qed.

(** A step of the first copy goroutine while the second exists. *)
Lemma copy_step_first a tn wgs0 pth t1 t2 tr now w c1 c2 s' :
  ioTimeout tn = timeout ->
  task_thread lConn rConn timeout (PTwo now w) pth ->
  copy_thread w lConn rConn c1 t1 ->
  copy_thread w rConn lConn c2 t2 ->
  wg_counter w (mkConfig tn wgs0 [pth; t1; t2] false tr)
    = Some (2 - Z.of_nat (count_if is_done [c1; c2]))%Z ->
  observe tr = expected lConn rConn timeout (PTwo now w) [c1; c2] ->
  ordered tr ->
  step 1 a (mkConfig tn wgs0 [pth; t1; t2] false tr) = Some s' ->
  proxy_inv lConn rConn timeout s'.
Proof.
  intros Hio Hth H1 H2 Hwg Hobs Hord Hstep.
  unfold step in Hstep. simpl in Hstep.
  destruct t1 as [[u|msg|X m k|X o k|X c k|child k|body k]|X c k]; simpl in H1;
    try discriminate; try contradiction.
  - (* load *)
    injection Hstep as <-. destruct m as [Y f|Y f v]; [|contradiction].
    destruct H1 as (-> & Hk).
    enter (PTwo now w) [CReturned; c2];
      [> exact Hth | exists CReturned, c2; do 2 eexists;
           split; [reflexivity|split; [reflexivity|split; [apply Hk|exact H2]]]
       | exact Hwg | exact I | exact Hobs | exact Hord].
  - (* done *)
    destruct o as [| | |w' d|w'|w']; try contradiction.
    destruct H1 as (-> & -> & Hk). simpl in Hstep.
    unfold wg_add in Hstep. rewrite Hwg in Hstep. simpl in Hstep.
    assert (E : (2 - Z.of_nat (count_if is_done [CReturned; c2]) + -1 <? 0)%Z = false)
      by (destruct c2; reflexivity).
    try rewrite E in Hstep; clear E.
    destruct w as [|id]; simpl in Hstep, Hwg; injection Hstep as <-;
      (match type of Hth with
       | task_thread _ _ _ ?st _ =>
           enter st [CDone; c2];
           [> exact Hth | exists CDone, c2; do 2 eexists;
           split; [reflexivity|split; [reflexivity|split; [exact Hk|exact H2]]]
        | | exact I | simpl; rewrite Hobs; destruct c2; reflexivity | split; [exact I|exact Hord]]
       end);
      simpl; destruct c2; try reflexivity;
      (apply list_lookup_insert_eq; eapply lookup_lt_Some, Hwg).
  - (* call *)
    injection Hstep as <-. destruct c; try contradiction.
    + destruct H1 as (-> & -> & -> & Hk).
      enter (PTwo now w) [CCopying; c2];
        [> exact Hth | exists CCopying, c2; do 2 eexists;
           split; [reflexivity|split; [reflexivity|split; [simpl; split; [reflexivity|split; [reflexivity|split; [reflexivity|exact Hk]]]|exact H2]]]
         | destruct c2; exact Hwg | exact I
         | simpl; rewrite Hobs; destruct c2; reflexivity
         | split; [simpl; rewrite Hobs; reflexivity|exact Hord]].
    + destruct H1 as (-> & Hk).
      enter (PTwo now w) [CReturned; c2];
        [> exact Hth | exists CReturned, c2; do 2 eexists;
           split; [reflexivity|split; [reflexivity|split; [simpl; split; [reflexivity|exact Hk]|exact H2]]]
         | exact Hwg | exact I | exact Hobs | split; [exact I|exact Hord]].
  - (* return *)
    destruct c; try contradiction.
    + destruct H1 as (-> & -> & -> & Hk).
      destruct a; try discriminate. simpl in Hstep. injection Hstep as <-.
      enter (PTwo now w) [CReturned; c2];
        [> exact Hth | exists CReturned, c2; do 2 eexists;
           split; [reflexivity|split; [reflexivity|split; [apply Hk|exact H2]]]
         | destruct c2; exact Hwg | exact I
         | simpl; rewrite Hobs; destruct c2; reflexivity
         | split; [exact I|exact Hord]].
    + destruct H1 as (-> & Hk). simpl in Hstep. injection Hstep as <-.
      enter (PTwo now w) [CReturned; c2];
        [> exact Hth | exists CReturned, c2; do 2 eexists;
           split; [reflexivity|split; [reflexivity|split; [apply Hk|exact H2]]]
         | exact Hwg | exact I | exact Hobs | split; [exact I|exact Hord]].
Qed.

(** A step of the second copy goroutine. *)
Lemma copy_step_second a tn wgs0 pth t1 t2 tr now w c1 c2 s' :
  ioTimeout tn = timeout ->
  task_thread lConn rConn timeout (PTwo now w) pth ->
  copy_thread w lConn rConn c1 t1 ->
  copy_thread w rConn lConn c2 t2 ->
  wg_counter w (mkConfig tn wgs0 [pth; t1; t2] false tr)
    = Some (2 - Z.of_nat (count_if is_done [c1; c2]))%Z ->
  observe tr = expected lConn rConn timeout (PTwo now w) [c1; c2] ->
  ordered tr ->
  step 2 a (mkConfig tn wgs0 [pth; t1; t2] false tr) = Some s' ->
  proxy_inv lConn rConn timeout s'.
Proof.
  intros Hio Hth H1 H2 Hwg Hobs Hord Hstep.
  unfold step in Hstep. simpl in Hstep.
  destruct t2 as [[u|msg|X m k|X o k|X c k|child k|body k]|X c k]; simpl in H2;
    try discriminate; try contradiction.
  - (* load *)
    injection Hstep as <-. destruct m as [Y f|Y f v]; [|contradiction].
    destruct H2 as (-> & Hk).
    enter (PTwo now w) [c1; CReturned];
      [> exact Hth | exists c1, CReturned; do 2 eexists;
           split; [reflexivity|split; [reflexivity|split; [exact H1|apply Hk]]]
       | exact Hwg | exact I | exact Hobs | exact Hord].
  - (* done *)
    destruct o as [| | |w' d|w'|w']; try contradiction.
    destruct H2 as (-> & -> & Hk). simpl in Hstep.
    unfold wg_add in Hstep. rewrite Hwg in Hstep. simpl in Hstep.
    assert (E : (2 - Z.of_nat (count_if is_done [c1; CReturned]) + -1 <? 0)%Z = false)
      by (destruct c1; reflexivity).
    try rewrite E in Hstep; clear E.
    destruct w as [|id]; simpl in Hstep, Hwg; injection Hstep as <-;
      (match type of Hth with
       | task_thread _ _ _ ?st _ =>
           enter st [c1; CDone];
           [> exact Hth | exists c1, CDone; do 2 eexists;
           split; [reflexivity|split; [reflexivity|split; [exact H1|exact Hk]]]
        | | exact I | simpl; rewrite Hobs; destruct c1; reflexivity | split; [exact I|exact Hord]]
       end);
      simpl; destruct c1; try reflexivity;
      (apply list_lookup_insert_eq; eapply lookup_lt_Some, Hwg).
  - (* call *)
    injection Hstep as <-. destruct c; try contradiction.
    + destruct H2 as (-> & -> & -> & Hk).
      enter (PTwo now w) [c1; CCopying];
        [> exact Hth | exists c1, CCopying; do 2 eexists;
           split; [reflexivity|split; [reflexivity|split; [exact H1|simpl; split; [reflexivity|split; [reflexivity|split; [reflexivity|exact Hk]]]]]]
         | destruct c1; exact Hwg | exact I
         | simpl; rewrite Hobs; destruct c1; reflexivity
         | split; [simpl; rewrite Hobs; reflexivity|exact Hord]].
    + destruct H2 as (-> & Hk).
      enter (PTwo now w) [c1; CReturned];
        [> exact Hth | exists c1, CReturned; do 2 eexists;
           split; [reflexivity|split; [reflexivity|split; [exact H1|simpl; split; [reflexivity|exact Hk]]]]
         | exact Hwg | exact I | exact Hobs | split; [exact I|exact Hord]].
  - (* return *)
    destruct c; try contradiction.
    + destruct H2 as (-> & -> & -> & Hk).
      destruct a; try discriminate. simpl in Hstep. injection Hstep as <-.
      enter (PTwo now w) [c1; CReturned];
        [> exact Hth | exists c1, CReturned; do 2 eexists;
           split; [reflexivity|split; [reflexivity|split; [exact H1|apply Hk]]]
         | destruct c1; exact Hwg | exact I
         | simpl; rewrite Hobs; destruct c1; reflexivity
         | split; [exact I|exact Hord]].
    + destruct H2 as (-> & Hk). simpl in Hstep. injection Hstep as <-.
      enter (PTwo now w) [c1; CReturned];
        [> exact Hth | exists c1, CReturned; do 2 eexists;
           split; [reflexivity|split; [reflexivity|split; [exact H1|apply Hk]]]
         | exact Hwg | exact I | exact Hobs | split; [exact I|exact Hord]].
Qed.

(** A step of the first copy goroutine before the second is started. *)
Lemma copy_step_alone a tn wgs0 pth t1 tr now w c1 s' :
  ioTimeout tn = timeout ->
  task_thread lConn rConn timeout (POne now w) pth ->
  copy_thread w lConn rConn c1 t1 ->
  wg_counter w (mkConfig tn wgs0 [pth; t1] false tr)
    = Some (2 - Z.of_nat (count_if is_done [c1]))%Z ->
  observe tr = expected lConn rConn timeout (POne now w) [c1] ->
  ordered tr ->
  step 1 a (mkConfig tn wgs0 [pth; t1] false tr) = Some s' ->
  proxy_inv lConn rConn timeout s'.
Proof.
  intros Hio Hth H1 Hwg Hobs Hord Hstep.
  unfold step in Hstep. simpl in Hstep.
  destruct t1 as [[u|msg|X m k|X o k|X c k|child k|body k]|X c k]; simpl in H1;
    try discriminate; try contradiction.
  - (* load *)
    injection Hstep as <-. destruct m as [Y f|Y f v]; [|contradiction].
    destruct H1 as (-> & Hk).
    enter (POne now w) [CReturned];
      [> exact Hth | exists CReturned; eexists;
           split; [reflexivity|split; [reflexivity|apply Hk]]
       | exact Hwg | exact I | exact Hobs | exact Hord].
  - (* done *)
    destruct o as [| | |w' d|w'|w']; try contradiction.
    destruct H1 as (-> & -> & Hk). simpl in Hstep.
    unfold wg_add in Hstep. rewrite Hwg in Hstep. simpl in Hstep.
    assert (E : (2 - Z.of_nat (count_if is_done [CReturned]) + -1 <? 0)%Z = false)
      by (reflexivity).
    try rewrite E in Hstep; clear E.
    destruct w as [|id]; simpl in Hstep, Hwg; injection Hstep as <-;
      (match type of Hth with
       | task_thread _ _ _ ?st _ =>
           enter st [CDone];
           [> exact Hth | exists CDone; eexists;
           split; [reflexivity|split; [reflexivity|exact Hk]]
        | | exact I | simpl; rewrite Hobs; reflexivity | split; [exact I|exact Hord]]
       end);
      simpl; try reflexivity;
      (apply list_lookup_insert_eq; eapply lookup_lt_Some, Hwg).
  - (* call *)
    injection Hstep as <-. destruct c; try contradiction.
    + destruct H1 as (-> & -> & -> & Hk).
      enter (POne now w) [CCopying];
        [> exact Hth | exists CCopying; eexists;
           split; [reflexivity|split; [reflexivity|simpl; split; [reflexivity|split; [reflexivity|split; [reflexivity|exact Hk]]]]]
         | exact Hwg | exact I
         | simpl; rewrite Hobs; reflexivity
         | split; [simpl; rewrite Hobs; reflexivity|exact Hord]].
    + destruct H1 as (-> & Hk).
      enter (POne now w) [CReturned];
        [> exact Hth | exists CReturned; eexists;
           split; [reflexivity|split; [reflexivity|simpl; split; [reflexivity|exact Hk]]]
         | exact Hwg | exact I | exact Hobs | split; [exact I|exact Hord]].
  - (* return *)
    destruct c; try contradiction.
    + destruct H1 as (-> & -> & -> & Hk).
      destruct a; try discriminate. simpl in Hstep. injection Hstep as <-.
      enter (POne now w) [CReturned];
        [> exact Hth | exists CReturned; eexists;
           split; [reflexivity|split; [reflexivity|apply Hk]]
         | exact Hwg | exact I
         | simpl; rewrite Hobs; reflexivity
         | split; [exact I|exact Hord]].
    + destruct H1 as (-> & Hk). simpl in Hstep. injection Hstep as <-.
      enter (POne now w) [CReturned];
        [> exact Hth | exists CReturned; eexists;
           split; [reflexivity|split; [reflexivity|apply Hk]]
         | exact Hwg | exact I | exact Hobs | split; [exact I|exact Hord]].
Qed.

(** Every step keeps the invariant. *)
Lemma proxy_inv_step t a s s' :
  proxy_inv lConn rConn timeout s -> step t a s = Some s' ->
  proxy_inv lConn rConn timeout s'.
Proof.
  intros (st & cs & pth & cths & Hths & Hcr & Hio & Hth & Hcs & Hwg & Hrest & Hobs & Hord).
  destruct s as [tn wgs0 ths cr tr]; simpl in Hths, Hcr, Hio, Hobs, Hord; subst ths cr.
  intros Hstep. destruct t as [|[|[|t]]].
  - eapply task_step; eassumption.
  - destruct st; simpl in Hcs;
      try (destruct Hcs as [_ ->]; discriminate Hstep).
    + destruct Hcs as (c1 & t1 & -> & -> & H1). eapply copy_step_alone; eassumption.
    + destruct Hcs as (c1 & c2 & t1 & t2 & -> & -> & H1 & H2).
      eapply copy_step_first; eassumption.
  - destruct st; simpl in Hcs;
      try (destruct Hcs as [_ ->]; discriminate Hstep).
    + destruct Hcs as (c1 & t1 & -> & -> & H1). discriminate Hstep.
    + destruct Hcs as (c1 & c2 & t1 & t2 & -> & -> & H1 & H2).
      eapply copy_step_second; eassumption.
  - destruct st; simpl in Hcs;
      try (destruct Hcs as [_ ->]; discriminate Hstep).
    + destruct Hcs as (c1 & t1 & -> & -> & H1). discriminate Hstep.
    + destruct Hcs as (c1 & c2 & t1 & t2 & -> & -> & H1 & H2). discriminate Hstep.
Qed.

Lemma proxy_inv_reachable s s' :
  proxy_inv lConn rConn timeout s -> reachable s s' -> proxy_inv lConn rConn timeout s'.
Proof.
  intros Hs Hr. induction Hr as [s|s s1 s2 [t [a Hstep]] Hr IH]; [exact Hs|].
  apply IH. eapply proxy_inv_step; eassumption.
Qed.

End ProxyFacts.

Lemma proxy_ready_inv lConn rConn s :
  proxy_ready lConn rConn s -> proxy_inv lConn rConn (ioTimeout (tun s)) s.
Proof.
  intros (Hths & Hcr & Hobs & Hord).
  exists PStart, [], (Ready (proxy lConn rConn)), [].
  repeat split; try assumption. apply proxy_follows.
Qed.

(** The observation agrees with the observers of a trace. *)
Ltac item_cases i :=
  destruct i as [t X c|t X c x|t X o x|t child|t msg];
  [destruct c|destruct c|destruct o| |];
  simpl; rewrite ?app_nil_r; reflexivity.

Lemma observe_closed tr : o_closed (observe tr) = closed_conns (rev tr).
Proof.
  induction tr as [|i tr IH]; [reflexivity|].
  unfold closed_conns in *. rewrite observe_cons, <- IH. simpl observe. item_cases i.
Qed.

Lemma observe_deadlines tr : o_deadlines (observe tr) = deadlines (rev tr).
Proof.
  induction tr as [|i tr IH]; [reflexivity|].
  unfold deadlines in *. rewrite observe_cons, <- IH. simpl observe. item_cases i.
Qed.

Lemma observe_times tr : o_times (observe tr) = times (rev tr).
Proof.
  induction tr as [|i tr IH]; [reflexivity|].
  unfold times in *. rewrite observe_cons, <- IH. simpl observe. item_cases i.
Qed.

Lemma observe_copies tr : o_copy_calls (observe tr) = length (copies (rev tr)).
Proof.
  induction tr as [|i tr IH]; [reflexivity|].
  unfold copies in *. rewrite observe_cons, length_app, <- IH. simpl observe.
  destruct i as [t X c|t X c x|t X o x|t child|t msg];
    [destruct c|destruct c|destruct o| |]; simpl; lia.
Qed.

Lemma ordered_split newer : forall i older,
  ordered (newer ++ i :: older) -> in_order i (observe older).
Proof.
  induction newer as [|j newer IH]; simpl; intros i older H.
  - apply H.
  - apply IH, H.
Qed.

(** What the invariant says of a configuration. *)
Lemma proxy_inv_facts lConn rConn timeout s :
  proxy_inv lConn rConn timeout s ->
  crashed s = false /\
  ordered (trace s) /\
  (closed_conns (history s) = [] \/ closed_conns (history s) = [lConn] \/
   closed_conns (history s) = [lConn; rConn]) /\
  (finished s -> closed_conns (history s) = [lConn; rConn]) /\
  ((deadlines (history s) = [] /\ copies (history s) = []) \/
   exists now, times (history s) = [now] /\
               deadlines (history s) = [(lConn, (now + timeout)%Z)]).
Proof.
  intros (st & cs & pth & cths & Hths & Hcr & Hio & Hth & Hcs & Hwg & Hrest & Hobs & Hord).
  unfold history.
  rewrite <- observe_closed, <- observe_deadlines, <- observe_times.
  assert (Hcopies : o_copy_calls (observe (trace s)) = 0 -> copies (rev (trace s)) = []).
  { rewrite observe_copies. destruct (copies (rev (trace s))); [reflexivity|discriminate]. }
  rewrite Hobs in *. clear Hobs.
  split; [exact Hcr|]. split; [exact Hord|]. split; [|split].
  - destruct st; simpl in *; auto;
      destruct Hrest as [->|Hr]; try destruct Hr as [->| ->]; subst; simpl; auto.
  - intros Hfin. unfold finished in Hfin. rewrite Hths in Hfin.
    apply Forall_cons in Hfin as [-> _]. simpl in Hth.
    destruct st as [| | | | | | | | | |now w [|next rest]|]; try contradiction. reflexivity.
  - destruct st; simpl in *; try destruct Hcs as [-> ->]; eauto.
Qed.

(** Both tasks, once their dial has succeeded, are about to proxy the
    pair, with the I/O timeout the tunnel has. *)
Lemma dialled_ready o c lConn rConn :
  (o = Forward -> sshClient c <> None) ->
  proxy_ready lConn rConn (dialled o c lConn rConn) /\
  ioTimeout (tun (dialled o c lConn rConn)) = ioTimeout c.
Proof.
  intros Hcl.
  destruct c as [cfg h cl nn na sn sa ln clo ast iot lg w m].
  destruct o.
  - destruct cl as [client|]; [|exfalso; apply Hcl; reflexivity].
    vm_compute. repeat split.
  - vm_compute. repeat split.
Qed.

Lemma dialled_facts o c lConn rConn s :
  (o = Forward -> sshClient c <> None) ->
  reachable (dialled o c lConn rConn) s ->
  crashed s = false /\
  ordered (trace s) /\
  (closed_conns (history s) = [] \/ closed_conns (history s) = [lConn] \/
   closed_conns (history s) = [lConn; rConn]) /\
  (finished s -> closed_conns (history s) = [lConn; rConn]) /\
  ((deadlines (history s) = [] /\ copies (history s) = []) \/
   exists now, times (history s) = [now] /\
               deadlines (history s) = [(lConn, (now + ioTimeout c)%Z)]).
Proof.
  intros Hcl Hr. destruct (dialled_ready o c lConn rConn Hcl) as [Hready Hio].
  apply proxy_inv_facts. rewrite <- Hio.
  eapply proxy_inv_reachable; [apply proxy_ready_inv, Hready|exact Hr].
Qed.

(** ** The deadline and the closing of a proxied pair *)

(** C3 (as stated, fails).  A forward proxy task that runs to its end,
    with both copies ending in an error: the only deadline ever set is
    the one on the accepted connection; none is set on the connection
    dialled through the session. *)
Lemma deadline_is_set_on_one_side_only :
  let c := set_field FsshClient (Some (mkClient 0))
             (NewSSHTunnel (mkClientConfig "root" "secret") "example.org:22" "8080" "80") in
  let lConn := mkConn 7 in
  let rConn := mkConn 9 in
  let s := run_segments
             [(200, 0, [ATime 1000; AErr None]);
              (200, 1, [ACopy 0 (Some ErrDeadlineExceeded)]);
              (200, 2, [ACopy 0 (Some ErrDeadlineExceeded)]);
              (200, 0, [AErr None; AErr None])]
             (dialled Forward c lConn rConn) in
  finished s /\
  copies (history s) = [(lConn, rConn); (rConn, lConn)] /\
  deadlines (history s) = [(lConn, 30000001000%Z)] /\
  closed_conns (history s) = [lConn; rConn].
Proof. vm_compute. repeat split; repeat constructor. Qed.

(** C3 (amended).  In both orientations, in every interleaving of a
    proxy task and its two copy goroutines and with every answer of the
    network: a deadline is set on the local side only, at the instant
    [time.Now()] returned plus [c.ioTimeout]; and a copy direction
    starts only after that [SetDeadline] call has returned.  Nothing is
    said of the remote side, which gets no deadline. *)
Theorem deadline_on_local_side_before_copies :
  forall (o : Orientation) (c : SSHTunnel) (lConn rConn : Conn) (s : config),
    (o = Forward -> sshClient c <> None) ->
    reachable (dialled o c lConn rConn) s ->
    (forall conn t, In (conn, t) (deadlines (history s)) ->
       conn = lConn /\ exists now, times (history s) = [now] /\ t = (now + ioTimeout c)%Z) /\
    (forall newer t dst src older,
       trace s = newer ++ ICall t (IoCopy dst src) :: older ->
       o_deadline_rets (observe older) = 1) /\
    (copies (history s) <> [] ->
     exists now, deadlines (history s) = [(lConn, (now + ioTimeout c)%Z)]).
Proof.
  intros o c lConn rConn s Hcl Hr.
  destruct (dialled_facts o c lConn rConn s Hcl Hr) as (_ & Hord & _ & _ & Hdl).
  split; [|split].
  - intros conn t Hin. destruct Hdl as [[Hnil _]|(now & Htimes & Hd)].
    + rewrite Hnil in Hin. destruct Hin.
    + rewrite Hd in Hin. destruct Hin as [Heq|[]]. injection Heq as <- <-.
      split; [reflexivity|]. exists now. split; [exact Htimes|reflexivity].
  - intros newer t dst src older Htr. rewrite Htr in Hord.
    exact (ordered_split newer _ older Hord).
  - intros Hne. destruct Hdl as [[_ Hnil]|(now & _ & Hd)]; [contradiction|].
    exists now. exact Hd.
Qed.

(** C8.  In both orientations, in every interleaving of a proxy task
    and its two copy goroutines and with every result of the copies:
    the process does not panic; [wg.Wait()] is passed only after both
    [go] statements; a connection is closed only after both copies have
    returned and [wg.Wait()] has been passed; the connections closed
    are, in order, the local side and then the remote side, each at
    most once; and when all three goroutines have ended both have been
    closed, each exactly once. *)
Theorem both_sides_closed_once_after_both_copies :
  forall (o : Orientation) (c : SSHTunnel) (lConn rConn : Conn) (s : config),
    (o = Forward -> sshClient c <> None) ->
    reachable (dialled o c lConn rConn) s ->
    crashed s = false /\
    (forall newer t w older,
       trace s = newer ++ ISync t (WgWait w) tt :: older ->
       o_spawned (observe older) = 2) /\
    (forall newer t conn older,
       trace s = newer ++ ICall t (ConnClose conn) :: older ->
       o_copy_rets (observe older) = 2 /\ o_waits (observe older) = 1) /\
    (closed_conns (history s) = [] \/ closed_conns (history s) = [lConn] \/
     closed_conns (history s) = [lConn; rConn]) /\
    (finished s -> closed_conns (history s) = [lConn; rConn]).
Proof.
  intros o c lConn rConn s Hcl Hr.
  destruct (dialled_facts o c lConn rConn s Hcl Hr) as (Hcr & Hord & Hcl3 & Hfin & _).
  split; [exact Hcr|]. split; [|split; [|split; assumption]].
  - intros newer t w older Htr. rewrite Htr in Hord.
    exact (ordered_split newer _ older Hord).
  - intros newer t conn older Htr. rewrite Htr in Hord.
    exact (ordered_split newer _ older Hord).
Qed.


(** ** Instances

    Each theorem above that has hypotheses, applied to a tunnel as the
    command builds it. *)

Lemma forward_dial_retries_once_instance :
  let c := set_field FsshClient (Some (mkClient 0))
             (NewSSHTunnel (mkClientConfig "root" "secret") "example.org:22" "8080" "80") in
  let s := fst (run_thread 200 0
                  [AConn (Err EOF); AErr None; AClient (Ok (mkClient 1));
                   AConn (Err EOF); AErr None]
                  (start c (forwardConn (mkConn 7)))) in
  connect_attempts (history s) = ["example.org:22"] /\
  dialled_clients (history s) = [mkClient 0; mkClient 1] /\
  closed_conns (history s) = [mkConn 7].
Proof.
  intros c s.
  destruct (forward_dial_retries_once_after_reconnect c (mkConn 7) eq_refl) as [H _].
  destruct (H (mkClient 0) eq_refl) as [H1 _].
  destruct (H1 EOF None (mkClient 1) EOF None) as (_ & _ & Ha & Hb & Hc & _).
  exact (conj Ha (conj Hb Hc)).
Defined.

Lemma failed_connect_is_never_retried_instance :
  let c := NewSSHTunnel (mkClientConfig "root" "wrong") "example.org:22" "8080" "80" in
  let s := fst (run_thread (19 + 14 * 2) 0 [AClient (Err (ErrNew "denied"))]
                  (start c reverseSupervisor)) in
  connect_attempts (history s) = ["example.org:22"] /\
  sleeps (history s) = [3000000000; 3000000000]%Z.
Proof.
  intros c s.
  destruct (failed_connect_is_never_retried Reverse c (ErrNew "denied") eq_refl eq_refl)
    as (_ & _ & H).
  destruct (H eq_refl 2) as (_ & _ & _ & Ha & _ & Hb).
  exact (conj Ha Hb).
Defined.

Lemma start_spawns_one_supervisor_instance :
  let c := NewSSHTunnel (mkClientConfig "root" "secret") "example.org:22" "8080" "80" in
  run [(0, AUnit); (0, AUnit); (0, AUnit); (0, AUnit); (0, AUnit)]
      (mkConfig c [] [Ready (startTunnel Reverse ;;; Ret tt)] false [])
  = Some (mkConfig (set_wg 1 c) [] [Ready (Ret tt); Ready reverseSupervisor] false
            [IGo 0 1;
             ISync 0 (WgAdd TunnelWg 1) tt;
             IRet 0 (Logger LogPrintf "Starting Tunnel" []) tt;
             ICall 0 (Logger LogPrintf "Starting Tunnel" [])]).
Proof.
  intros c.
  apply (start_spawns_one_supervisor_per_call Reverse c [] [] [] (Ret tt)).
  simpl. lia.
Defined.


Lemma at_most_one_connect_in_flight_instance :
  let c := NewSSHTunnel (mkClientConfig "root" "secret") "example.org:22" "8080" "80" in
  let s := run_segments [(200, 0, []); (200, 1, [])] (callers c [[MForwardTunnel]]) in
  connecting s 1 /\ mx (tun s) = true.
Proof.
  intros c s.
  assert (Hc : connecting s 1).
  { do 4 eexists. vm_compute. reflexivity. }
  split; [exact Hc|].
  apply (at_most_one_connect_in_flight c [[MForwardTunnel]] s eq_refl
           (run_segments_reachable _ _) 1 1 Hc Hc).
Defined.

Lemma deadline_on_local_side_instance :
  let c := set_field FsshClient (Some (mkClient 0))
             (NewSSHTunnel (mkClientConfig "root" "secret") "example.org:22" "8080" "80") in
  let s := run_segments
             [(200, 0, [ATime 1000; AErr None]); (200, 1, [])]
             (dialled Forward c (mkConn 7) (mkConn 9)) in
  exists now, deadlines (history s) = [(mkConn 7, (now + 30000000000)%Z)].
Proof.
  intros c s.
  destruct (deadline_on_local_side_before_copies Forward c (mkConn 7) (mkConn 9) s)
    as (_ & _ & H).
  - intros _. discriminate.
  - apply run_segments_reachable.
  - apply H. vm_compute. discriminate.
Defined.

Lemma both_sides_closed_once_instance :
  let c := NewSSHTunnel (mkClientConfig "root" "secret") "example.org:22" "8080" "80" in
  let s := run_segments
             [(200, 0, [ATime 1000; AErr None]);
              (200, 2, [ACopy 12 (Some EOF)]);
              (200, 1, [ACopy 0 (Some (ErrNew "connection reset"))]);
              (200, 0, [AErr None; AErr (Some EOF)])]
             (dialled Reverse c (mkConn 7) (mkConn 9)) in
  closed_conns (history s) = [mkConn 7; mkConn 9].
Proof.
  intros c s.
  destruct (both_sides_closed_once_after_both_copies Reverse c (mkConn 7) (mkConn 9) s)
    as (_ & _ & _ & _ & H).
  - intros Hf. discriminate Hf.
  - apply run_segments_reachable.
  - apply H. vm_compute. repeat constructor.
Defined.


(** * Further properties of the package *)

(** ** The trace is write-only *)

(** No step reads the trace: a step taken above a longer trace is the
    same step. *)
Lemma step_on_trace t a s s' older :
  step t a s = Some s' -> step t a (on_trace older s) = Some (on_trace older s').
Proof.
  destruct s as [c ws ths cr tr]. unfold step, on_trace. simpl.
  destruct cr; [discriminate|].
  destruct (ths !! t) as [th|]; [|discriminate]. simpl.
  destruct th as [[u|msg|X m k|X o k|X cl k|child k|body k]|X cl k]; simpl.
  - discriminate.
  - intros [= <-]. reflexivity.
  - intros [= <-]. destruct m; reflexivity.
  - destruct o as [| | |w d|w|w]; simpl.
    + destruct (mx c); [discriminate|]. intros [= <-]. reflexivity.
    + destruct (mx c); intros [= <-]; reflexivity.
    + intros [= <-]. reflexivity.
    + unfold wg_add. destruct w as [|id]; simpl.
      * destruct (wg c + d <? 0)%Z; simpl; intros [= <-]; reflexivity.
      * destruct (ws !! id) as [n|]; [|discriminate]. simpl.
        destruct (n + d <? 0)%Z; simpl; intros [= <-]; reflexivity.
    + unfold wg_add. destruct w as [|id]; simpl.
      * destruct (wg c + -1 <? 0)%Z; simpl; intros [= <-]; reflexivity.
      * destruct (ws !! id) as [n|]; [|discriminate]. simpl.
        destruct (n + -1 <? 0)%Z; simpl; intros [= <-]; reflexivity.
    + destruct w as [|id]; simpl.
      * destruct (wg c =? 0)%Z; [|discriminate]. intros [= <-]. reflexivity.
      * destruct (ws !! id) as [n|]; [|discriminate]. simpl.
        destruct (n =? 0)%Z; [|discriminate]. intros [= <-]. reflexivity.
  - intros [= <-]. reflexivity.
  - intros [= <-]. reflexivity.
  - intros [= <-]. reflexivity.
  - destruct (decode cl a) as [x|]; [|discriminate]. simpl. intros [= <-]. reflexivity.
Qed.

Lemma step_on_trace_none t a s older :
  step t a s = None -> step t a (on_trace older s) = None.
Proof.
  destruct s as [c ws ths cr tr]. unfold step, on_trace. simpl.
  destruct cr; [reflexivity|].
  destruct (ths !! t) as [th|]; [|reflexivity]. simpl.
  destruct th as [[u|msg|X m k|X o k|X cl k|child k|body k]|X cl k]; simpl;
    try discriminate; try reflexivity.
  - destruct o as [| | |w d|w|w]; simpl.
    + destruct (mx c); [reflexivity|discriminate].
    + destruct (mx c); discriminate.
    + discriminate.
    + unfold wg_add. destruct w as [|id]; simpl; [discriminate|].
      destruct (ws !! id) as [n|]; [discriminate|reflexivity].
    + unfold wg_add. destruct w as [|id]; simpl; [discriminate|].
      destruct (ws !! id) as [n|]; [discriminate|reflexivity].
    + destruct w as [|id]; simpl.
      * destruct (wg c =? 0)%Z; [discriminate|reflexivity].
      * destruct (ws !! id) as [n|]; [|reflexivity]. simpl.
        destruct (n =? 0)%Z; [discriminate|reflexivity].
  - destruct (decode cl a) as [x|]; [discriminate|reflexivity].
Qed.

Lemma next_step_on_trace t answers s older :
  next_step t answers (on_trace older s) =
  match next_step t answers s with
  | Some (s', rest) => Some (on_trace older s', rest)
  | None => None
  end.
Proof.
  unfold next_step. change (threads (on_trace older s)) with (threads s).
  assert (Hstep : forall a,
    step t a (on_trace older s) ≫= (fun s' => Some (s', answers)) =
    match step t a s ≫= (fun s' => Some (s', answers)) with
    | Some (s', rest) => Some (on_trace older s', rest)
    | None => None
    end).
  { intros a. destruct (step t a s) as [s'|] eqn:E.
    - rewrite (step_on_trace _ _ _ _ _ E). reflexivity.
    - rewrite (step_on_trace_none _ _ _ _ E). reflexivity. }
  destruct (threads s !! t) as [[p|X c k]|]; try apply Hstep.
  destruct (returns_unit c); [apply Hstep|].
  destruct answers as [|a rest]; [reflexivity|].
  destruct (step t a s) as [s'|] eqn:E.
  - rewrite (step_on_trace _ _ _ _ _ E). reflexivity.
  - rewrite (step_on_trace_none _ _ _ _ E). reflexivity.
Qed.

Lemma run_thread_on_trace fuel t older : forall answers s,
  run_thread fuel t answers (on_trace older s) =
  (on_trace older (fst (run_thread fuel t answers s)), snd (run_thread fuel t answers s)).
Proof.
  induction fuel as [|fuel IH]; intros answers s; [reflexivity|].
  simpl. rewrite next_step_on_trace.
  destruct (next_step t answers s) as [[s' rest]|]; [apply IH|reflexivity].
Qed.

(** What is observed above an older trace comes after what was
    observed in it. *)
Lemma observe_on_trace {A : Type} (f : item -> option A) (older : list item) (s : config) :
  omap f (history (on_trace older s)) = omap f (rev older) ++ omap f (history s).
Proof.
  unfold history, on_trace. simpl. rewrite rev_app_distr, omap_app. reflexivity.
Qed.



(** ** The session-backed listen *)


(** The reverse supervisory loop with a stale session: [Listen] fails,
    the reconnect succeeds, and the second [Listen], on the new
    session, succeeds.  The listener of the new session is stored, the
    loop goes on to accept on it, and no backoff sleep was taken. *)
Theorem sshListen_recovers_after_reconnect :
  forall (c : SSHTunnel) (client client' : Client) (ln : Listener) (e1 : error)
         (closeErr : option error),
    let c' := set_mx false (set_field Fclosed false
                (set_field FsshClient (Some client) c)) in
    let s := fst (run_thread 200 0
                    [AListener (Err e1); AErr closeErr; AClient (Ok client');
                     AListener (Ok ln)]
                    (start c' (supervisorLoop Reverse))) in
    crashed s = false /\
    sshClient (tun s) = Some client' /\
    listener (tun s) = Some ln /\
    mx (tun s) = false /\
    listened_clients (history s) = [client; client'] /\
    closed_clients (history s) = [client] /\
    connect_attempts (history s) = [host c] /\
    sleeps (history s) = [] /\
    accepts (history s) = [ln].
Proof.
  intros c client client' ln e1 closeErr c' s. subst s c'.
  destruct c as [cfg h cl nn na sn sa l0 clo ast iot lg w m].
  case_errors; vm_compute; repeat split.
Qed.

(** ** The plain dial of the reverse tunnel *)

(** A reverse proxy task whose [net.Dial] fails: the accepted
    connection is closed once, the task sleeps the backoff and ends;
    neither the session nor the mutex is touched and the struct is left
    as it was, whatever state it is in. *)
Theorem reverse_dial_failure_drops_the_connection :
  forall (c : SSHTunnel) (rConn : Conn) (e : error) (closeErr : option error),
    let s := fst (run_thread 200 0 [AConn (Err e); AErr closeErr]
                    (start c (reverseConn rConn))) in
    crashed s = false /\
    threads s = [Ready (Ret tt)] /\
    tun s = c /\
    net_dials (history s) = [(netNetwork c, netAddress c)] /\
    closed_conns (history s) = [rConn] /\
    sleeps (history s) = [attemptSleepTime c] /\
    connect_attempts (history s) = [] /\
    dialled_clients (history s) = [] /\
    spawned (history s) = [].
Proof.
  intros c rConn e closeErr s. subst s.
  destruct c as [cfg h cl nn na sn sa l0 clo ast iot lg w m].
  case_errors; vm_compute; repeat split.
Qed.

(** ** Establishing the session *)

(** [sshConnect] with the mutex free.  The previous session, if there
    is one, is closed before [ssh.Dial] is called, whatever closing it
    answers.  When the dial succeeds the new session is stored; when it
    fails the handle is left nil, the previous session being gone.  In
    both cases the mutex is free again and no other field has changed. *)
Theorem sshConnect_replaces_the_session :
  forall (c : SSHTunnel) (closeErr : option error) (r : result Client),
    mx c = false ->
    let answers :=
      match sshClient c with
      | Some _ => [AErr closeErr; AClient r]
      | None => [AClient r]
      end in
    let s := fst (run_thread 200 0 answers (start c (_ <- sshConnect ;; Ret tt))) in
    crashed s = false /\
    threads s = [Ready (Ret tt)] /\
    tun s = set_field FsshClient
              match r with Ok client' => Some client' | Err _ => None end c /\
    session_calls (history s) =
      match sshClient c with
      | Some old => [Closing old; Connecting (host c)]
      | None => [Connecting (host c)]
      end.
Proof.
  intros c closeErr r Hmx answers s. subst s answers.
  destruct c as [cfg h cl nn na sn sa l0 clo ast iot lg w m]; simpl in Hmx; subst m.
  destruct cl as [old|], r as [client'|e]; case_errors; vm_compute; repeat split.
Qed.

(** ** The listen loop *)

(** One turn of the forward listen loop in which [net.Listen] fails:
    seventeen steps, and the goroutine is back at the head of the loop
    with the struct as it was. *)
Lemma forward_listen_failure_turn (c : SSHTunnel) (wgs0 : list Z) (e : error)
    (rest : list answer) :
  closed c = false ->
  exists items,
    run_thread 17 0 (AListener (Err e) :: rest)
      (mkConfig c wgs0 [Ready (supervisorLoop Forward)] false [])
    = (mkConfig c wgs0 [Ready (supervisorLoop Forward)] false items, rest) /\
    net_listens (rev items) = [(netNetwork c, netAddress c)] /\
    sleeps (rev items) = [attemptSleepTime c] /\
    session_calls (rev items) = [] /\
    spawned (rev items) = [].
Proof.
  intros Hclosed.
  destruct c as [cfg h cl nn na sn sa ln clo ast iot lg w m]; simpl in Hclosed; subst.
  eexists. split; [vm_compute; reflexivity|]. vm_compute. repeat split.
Qed.

(** The forward listen loop, started on a tunnel that is not closed,
    while [net.Listen] fails: for every list of errors [net.Listen]
    answers, the loop has called [net.Listen] once per error, on the
    address of the struct, and has slept the backoff after each; it
    has not touched the session, has started no goroutine, has left
    the struct as it was and is at the head of the loop again. *)
Theorem forward_listen_failures_back_off :
  forall (c : SSHTunnel) (es : list error),
    closed c = false ->
    let s := fst (run_thread (17 * length es) 0 (map (fun e => AListener (Err e)) es)
                    (start c (supervisorLoop Forward))) in
    crashed s = false /\
    tun s = c /\
    threads s = [Ready (supervisorLoop Forward)] /\
    net_listens (history s) = replicate (length es) (netNetwork c, netAddress c) /\
    sleeps (history s) = replicate (length es) (attemptSleepTime c) /\
    session_calls (history s) = [] /\
    spawned (history s) = [].
Proof.
  intros c es Hclosed. induction es as [|e es IH]; [repeat split|].
  cbv zeta in IH |- *.
  replace (17 * length (e :: es)) with (17 + 17 * length es) by (simpl; lia).
  rewrite run_thread_add. cbn [map].
  destruct (forward_listen_failure_turn c [] e (map (fun e => AListener (Err e)) es) Hclosed)
    as (items & Hrun & Hl & Hs & Hc & Hg).
  unfold start. rewrite Hrun. cbn [fst snd].
  change (mkConfig c [] [Ready (supervisorLoop Forward)] false items)
    with (on_trace items (start c (supervisorLoop Forward))).
  rewrite run_thread_on_trace. cbn [fst].
  set (s := fst (run_thread (17 * length es) 0 (map (fun e => AListener (Err e)) es)
                   (start c (supervisorLoop Forward)))) in *.
  destruct IH as (Hcr & Htun & Hth & Hl' & Hs' & Hc' & Hg').
  unfold net_listens, sleeps, session_calls, spawned in *.
  rewrite !observe_on_trace, Hl, Hs, Hc, Hg, Hl', Hs', Hc', Hg'.
  repeat split; assumption.
Qed.

(** ** The accept loop *)

(** One turn of the accept loop in which [Accept] returns a
    connection: eleven steps. *)
Lemma accept_turn (o : Orientation) (c : SSHTunnel) (wgs0 : list Z) (others : list thread)
    (ln : Listener) (conn : Conn) (rest : list answer) :
  closed c = false -> listener c = Some ln -> (0 <= wg c)%Z ->
  exists items,
    run_thread 11 0 (AConn (Ok conn) :: rest)
      (mkConfig c wgs0 (Ready (acceptingLoop o) :: others) false [])
    = (mkConfig (set_wg (wg c + 1) c) wgs0
         (Ready (acceptingLoop o) :: others ++ [Ready (task o conn)]) false items, rest) /\
    accepts (rev items) = [ln] /\
    spawned (rev items) = [S (length others)] /\
    session_calls (rev items) = [] /\
    sleeps (rev items) = [].
Proof.
  intros Hclosed Hln Hwg.
  destruct c as [cfg h cl nn na sn sa l0 clo ast iot lg w m]; simpl in Hclosed, Hln, Hwg; subst.
  destruct w as [|p|p]; [| |lia]; destruct o;
    (eexists; split; [vm_compute; reflexivity|]); vm_compute; repeat split.
Qed.

Lemma set_wg_set_wg v v' c : set_wg v (set_wg v' c) = set_wg v c.
Proof. reflexivity. Qed.

Lemma set_wg_same c : set_wg (wg c) c = c.
Proof. destruct c. reflexivity. Qed.

(** The accept loop while [Accept] returns connections, with other
    goroutines present but not scheduled: for every list of accepted
    connections the loop has started exactly one task per connection,
    in the order of acceptance, each after adding one to the wait
    group of the tunnel; it has called [Accept] once per connection on
    the listener of the struct, has not slept and has not touched the
    session. *)
Theorem accept_starts_one_task_per_connection :
  forall (o : Orientation) (conns : list Conn) (c : SSHTunnel) (wgs0 : list Z)
         (others : list thread) (ln : Listener),
    closed c = false -> listener c = Some ln -> (0 <= wg c)%Z ->
    let s := fst (run_thread (11 * length conns) 0 (map (fun conn => AConn (Ok conn)) conns)
                    (mkConfig c wgs0 (Ready (acceptingLoop o) :: others) false [])) in
    crashed s = false /\
    tun s = set_wg (wg c + Z.of_nat (length conns)) c /\
    threads s =
      Ready (acceptingLoop o) :: others ++ map (fun conn => Ready (task o conn)) conns /\
    accepts (history s) = replicate (length conns) ln /\
    spawned (history s) = seq (S (length others)) (length conns) /\
    session_calls (history s) = [] /\
    sleeps (history s) = [].
Proof.
  intros o conns. induction conns as [|conn conns IH]; intros c wgs0 others ln Hclosed Hln Hwg.
  - simpl. rewrite Z.add_0_r, set_wg_same, app_nil_r. repeat split.
  - cbv zeta in IH |- *.
    replace (11 * length (conn :: conns)) with (11 + 11 * length conns) by (simpl; lia).
    rewrite run_thread_add. cbn [map].
    destruct (accept_turn o c wgs0 others ln conn (map (fun conn => AConn (Ok conn)) conns)
                Hclosed Hln Hwg) as (items & Hrun & Ha & Hg & Hc & Hs).
    rewrite Hrun. cbn [fst snd].
    change (mkConfig (set_wg (wg c + 1) c) wgs0
              (Ready (acceptingLoop o) :: others ++ [Ready (task o conn)]) false items)
      with (on_trace items
              (mkConfig (set_wg (wg c + 1) c) wgs0
                 (Ready (acceptingLoop o) :: others ++ [Ready (task o conn)]) false [])).
    rewrite run_thread_on_trace. cbn [fst].
    specialize (IH (set_wg (wg c + 1) c) wgs0 (others ++ [Ready (task o conn)]) ln).
    destruct IH as (Hcr & Htun & Hth & Ha' & Hg' & Hc' & Hs').
    { destruct c; exact Hclosed. }
    { destruct c; exact Hln. }
    { destruct c; simpl in *; lia. }
    set (s := fst (run_thread (11 * length conns) 0 (map (fun conn => AConn (Ok conn)) conns) _))
      in *.
    unfold accepts, spawned, session_calls, sleeps in *.
    rewrite !observe_on_trace, Ha, Hg, Hc, Hs, Ha', Hg', Hc', Hs'.
    split; [exact Hcr|]. split.
    { change (tun (on_trace items s)) with (tun s). rewrite Htun, set_wg_set_wg.
      f_equal. destruct c; simpl. lia. }
    split.
    { change (threads (on_trace items s)) with (threads s). rewrite Hth.
      rewrite <- app_assoc. reflexivity. }
    split; [reflexivity|]. split; [|split; reflexivity].
    rewrite length_app. simpl. rewrite Nat.add_1_r. reflexivity.
Qed.

(** When [Accept] fails the accept loop closes the listener, clears
    the field, sleeps the backoff and leaves the inner loop; the
    listen loop then binds a new listener, on the address of the
    struct or through the session, and accepts on it.  The session is
    neither closed nor re-established. *)
Theorem accept_failure_rebinds_the_listener :
  forall (o : Orientation) (c : SSHTunnel) (client : Client) (ln1 ln2 : Listener)
         (e : error) (closeErr : option error),
    let c' := set_field Fclosed false
                (set_field Flistener (Some ln1) (set_field FsshClient (Some client) c)) in
    let s := fst (run_thread 200 0 [AConn (Err e); AErr closeErr; AListener (Ok ln2)]
                    (start c' (acceptingLoop o))) in
    crashed s = false /\
    tun s = set_field Flistener (Some ln2) c' /\
    accepts (history s) = [ln1; ln2] /\
    closed_listeners (history s) = [ln1] /\
    sleeps (history s) = [attemptSleepTime c] /\
    session_calls (history s) = [] /\
    spawned (history s) = [] /\
    match o with
    | Forward =>
        net_listens (history s) = [(netNetwork c, netAddress c)] /\
        listened_clients (history s) = []
    | Reverse =>
        net_listens (history s) = [] /\
        listened_clients (history s) = [client]
    end.
Proof.
  intros o c client ln1 ln2 e closeErr c' s. subst s c'.
  destruct c as [cfg h cl nn na sn sa l0 clo ast iot lg w m].
  destruct o; case_errors; vm_compute; repeat split.
Qed.

(** ** Starting a tunnel that is closed *)

(** [ForwardTunnel] or [ReverseTunnel] on a tunnel that [Close] has
    already been called on: the supervisory goroutine still connects,
    and stores the session it obtains; it then finds [closed] set,
    never listens, and ends.  The wait group is back at zero and the
    session stays open in the struct. *)
Theorem start_after_close_still_connects :
  forall (o : Orientation) (c : SSHTunnel) (r : result Client),
    closed c = true -> sshClient c = None -> mx c = false -> wg c = 0%Z ->
    let s := run_segments [(200, 0, []); (200, 1, [AClient r])] (start c (startTunnel o)) in
    crashed s = false /\
    threads s = [Ready (Ret tt); Ready (Ret tt)] /\
    tun s = set_field FsshClient
              match r with Ok client => Some client | Err _ => None end c /\
    session_calls (history s) = [Connecting (host c)] /\
    net_listens (history s) = [] /\
    listened_clients (history s) = [] /\
    accepts (history s) = [] /\
    sleeps (history s) = [] /\
    log_lines (history s) =
      ["Starting Tunnel"; "Started Tunnel"; "Closed sshClient"; "ssh.Connect...";
       match r with Ok _ => "ssh.Connect successful" | Err _ => "ssh.Connect failed: %v" end;
       "Stopped Tunnel"].
Proof.
  intros o c r Hclosed Hcl Hmx Hwg s. subst s.
  destruct c as [cfg h cl nn na sn sa l0 clo ast iot lg w m];
    simpl in Hclosed, Hcl, Hmx, Hwg; subst.
  destruct o, r; vm_compute; repeat split.
Qed.

(** ** The copy directions *)

(** A copy direction run on its own: when [io.Copy] returns an error
    it is logged unless it is, or wraps, [io.EOF] or
    [os.ErrDeadlineExceeded]; the goroutine then calls [Done] on the
    wait group of its task and ends. *)
Theorem copy_logs_all_but_eof_and_deadline :
  forall (c : SSHTunnel) (dst src : Conn) (format : string) (written : Z)
         (err : option error) (n : Z),
    (0 < n)%Z ->
    let s := fst (run_thread 200 0 [ACopy written err]
                    (mkConfig c [n] [Ready (copyTask (LocalWg 0) dst src format)] false [])) in
    crashed s = false /\
    threads s = [Ready (Ret tt)] /\
    tun s = c /\
    wgs s = [(n - 1)%Z] /\
    copies (history s) = [(dst, src)] /\
    log_lines (history s) =
      match err with
      | Some e =>
          if errors_Is e EOF || errors_Is e ErrDeadlineExceeded then [] else [format]
      | None => []
      end.
Proof.
  intros c dst src format written err n Hn s. subst s.
  destruct c as [cfg h cl nn na sn sa l0 clo ast iot lg w m].
  destruct n as [|[p|p|]|p]; try lia;
    (destruct err as [e|]; [|vm_compute; repeat split]);
    change 200 with (2 + 198); rewrite run_thread_add;
    match goal with
    | |- context [run_thread 2 0 ?a ?s0] =>
        remember (run_thread 2 0 a s0) as r eqn:Hr; cbv -[errors_Is] in Hr
    end;
    destruct (errors_Is e EOF), (errors_Is e ErrDeadlineExceeded); subst r;
    vm_compute; repeat split.
Qed.

(** ** Closing the handles *)

(** [closeInternal] called twice in a row on a tunnel that has a
    listener and a session: the listener is closed first, then the
    session, each exactly once; both fields are nil afterwards
    whatever the two [Close] calls answer, and the second
    [closeInternal] calls nothing but the logger.  An error of [Close]
    is logged unless it is [io.EOF] itself. *)
Theorem closeInternal_closes_each_handle_once :
  forall (c : SSHTunnel) (ln : Listener) (client : Client) (e1 e2 : option error),
    let c' := set_field Flistener (Some ln) (set_field FsshClient (Some client) c) in
    let s := fst (run_thread 200 0 [AErr e1; AErr e2]
                    (start c' (closeInternal ;;; closeInternal))) in
    let logged format (e : option error) :=
      match e with
      | Some err => if neq_EOF err then [format] else []
      | None => []
      end in
    crashed s = false /\
    threads s = [Ready (Ret tt)] /\
    tun s = set_field Flistener None (set_field FsshClient None c) /\
    closed_listeners (history s) = [ln] /\
    closed_clients (history s) = [client] /\
    log_lines (history s) =
      logged "listener.Close failed: %v" e1 ++ ["Closed listener"] ++
      logged "sshClient.Close failed: %v" e2 ++ ["Closed sshClient"] ++
      ["Closed listener"; "Closed sshClient"].
Proof.
  intros c ln client e1 e2 c' s logged. subst s c' logged.
  destruct c as [cfg h cl nn na sn sa l0 clo ast iot lg w m].
  case_errors; vm_compute; repeat split.
Qed.

(** ** The command *)

(** The command run to a clean end, for every value of its flags.  The
    supervisory goroutine connects, binds its listener and waits in
    [Accept]; the main goroutine returns from its sleep of two minutes
    and calls [Close], which closes the listener and the session and
    waits; [Accept] then fails, the supervisory goroutine sleeps the
    backoff, finds [closed] set and ends; [Close] returns.  Both
    goroutines have ended, the listener and the session have been
    closed once each, and the wait group is at zero. *)
Theorem main_runs_to_a_clean_end :
  forall (f : Flags) (client : Client) (ln : Listener) (e : error) (e1 e2 : option error),
    let s := run_segments
               [(6, 0, []);
                (200, 1, [AClient (Ok client); AListener (Ok ln)]);
                (200, 0, [AErr e1; AErr e2]);
                (200, 1, [AConn (Err e)]);
                (200, 0, [])]
               (start (main_tunnel f) (main f)) in
    crashed s = false /\
    threads s = [Ready (Ret tt); Ready (Ret tt)] /\
    tun s = set_field Fclosed true (main_tunnel f) /\
    session_calls (history s) =
      [Connecting (sshhost f +:+ ":" +:+ sshport f); Closing client] /\
    (if server f
     then listened_clients (history s) = [client] /\ net_listens (history s) = []
     else listened_clients (history s) = [] /\
          net_listens (history s) = [("tcp", "localhost:" +:+ lport f)]) /\
    accepts (history s) = [ln] /\
    closed_listeners (history s) = [ln] /\
    sleeps (history s) = [(2 * Minute)%Z; (3 * Second)%Z] /\
    spawned (history s) = [1].
Proof.
  intros f client ln e e1 e2 s. subst s.
  destruct f as [sh sp su spw lp rp [|]]; case_errors; vm_compute; repeat split.
Qed.

(** ** The handles are read outside the mutex *)


(** [Close] called while a supervisory goroutine is inside [accept],
    between the test [c.listener != nil] and the call of
    [c.listener.Accept]: [Close] closes the listener and clears the
    field, the goroutine then calls [Accept] through the nil handle,
    and the process panics. *)
Theorem Close_inside_accept_panics :
  forall (o : Orientation) (c : SSHTunnel) (ln : Listener) (e1 e2 : option error),
    let c' := set_field Fclosed false (set_field Flistener (Some ln) c) in
    let s := run_segments
               [(3, 0, []); (200, 1, [AErr e1; AErr e2]); (200, 0, [])]
               (mkConfig c' [] [Ready (acceptingLoop o); Ready Close] false []) in
    crashed s = true /\
    panics (history s) = [nil_deref] /\
    closed (tun s) = true /\
    listener (tun s) = None /\
    closed_listeners (history s) = [ln] /\
    accepts (history s) = [].
Proof.
  intros o c ln e1 e2 c' s. subst s c'.
  destruct c as [cfg h cl nn na sn sa l0 clo ast iot lg w m].
  destruct w as [|p|p]; destruct o, cl; case_errors; vm_compute; repeat split.
Qed.

(** [Close] called while the supervisory goroutine is inside
    [ssh.Dial]: [Close] finds no session to close and waits; the
    connect then succeeds and stores its session; the goroutine finds
    [closed] set and ends, and [Close] returns.  Every goroutine has
    ended and the tunnel is closed, but the session is open and still
    in the struct: nothing has closed it. *)
Theorem Close_during_connect_leaves_the_session :
  forall (o : Orientation) (c : SSHTunnel) (client : Client),
    let c' := set_wg 0 (set_mx false (set_field Fclosed false
                (set_field Flistener None (set_field FsshClient None c)))) in
    let s := run_segments
               [(5, 0, []); (200, 1, []); (200, 0, []);
                (200, 1, [AClient (Ok client)]); (200, 0, [])]
               (callers c' [[match o with
                             | Forward => MForwardTunnel
                             | Reverse => MReverseTunnel
                             end; MClose]]) in
    crashed s = false /\
    finished s /\
    tun s = set_field Fclosed true (set_field FsshClient (Some client) c') /\
    session_calls (history s) = [Connecting (host c)] /\
    closed_clients (history s) = [] /\
    net_listens (history s) = [] /\
    listened_clients (history s) = [] /\
    log_lines (history s) =
      ["Starting Tunnel"; "Started Tunnel"; "Closed sshClient"; "ssh.Connect...";
       "Closed listener"; "Closed sshClient"; "ssh.Connect successful"; "Stopped Tunnel";
       "Close successful"].
Proof.
  intros o c client c' s. subst s c'.
  destruct c as [cfg h cl nn na sn sa l0 clo ast iot lg w m].
  destruct o; vm_compute; repeat split; repeat constructor.
Qed.

(** ** The setters *)

(** [SetAttemptSleepTime] and [SetLogger] (or [SetNoLogger]) called
    before the tunnel is started decide the backoff its goroutines
    sleep and the logger every line is written with: a forward tunnel
    whose connect and first [net.Listen] fail sleeps the duration that
    was set, once, and logs through the logger that was set only. *)
Theorem setters_take_effect_before_start :
  forall (c : SSHTunnel) (d : Duration) (fn : LoggerFn) (m : method) (e e' : error),
    m = MSetLogger fn \/ (m = MSetNoLogger /\ fn = NoLogger) ->
    closed c = false -> sshClient c = None -> mx c = false -> wg c = 0%Z ->
    let s := run_segments
               [(200, 0, []); (200, 1, [AClient (Err e); AListener (Err e')])]
               (callers c [[MSetAttemptSleepTime d; m; MForwardTunnel]]) in
    crashed s = false /\
    tun s = set_wg 1 (set_field Flogger fn (set_field FattemptSleepTime d c)) /\
    sleeps (history s) = [d] /\
    Forall (eq fn) (loggers (history s)) /\
    log_lines (history s) =
      ["Starting Tunnel"; "Started Tunnel"; "Closed sshClient"; "ssh.Connect...";
       "ssh.Connect failed: %v"; "net.Listen on %s/%s..."; "net.Listen failed: %v";
       "net.Listen on %s/%s..."].
Proof.
  intros c d fn m e e' Hm Hclosed Hcl Hmx Hwg s. subst s.
  destruct c as [cfg h cl nn na sn sa l0 clo ast iot lg w mu];
    simpl in Hclosed, Hcl, Hmx, Hwg; subst.
  destruct Hm as [->|[-> ->]]; vm_compute; repeat split; repeat constructor.
Qed.

(** ** The configuration is fixed *)

Lemma keeps_bind {A B : Type} (c : SSHTunnel) (p : prog A) (f : A -> prog B) :
  keeps c p -> (forall a, keeps c (f a)) -> keeps c (bind p f).
Proof.
  revert B f.
  induction p as [A a|A msg|A X m k IH|A X o k IH|A X cl k IH|A child IHc k IHk
                  |A body IHb k IHk]; intros B f Hp Hf; simpl in *.
  - apply Hf.
  - exact I.
  - destruct m as [Y fld|Y fld v]; simpl in *.
    + destruct (fixed fld); eauto.
    + destruct Hp as (H1 & H2 & H3). eauto.
  - eauto.
  - destruct Hp as [Hc Hk]. eauto.
  - destruct Hp as [Hc Hk]. eauto.
  - destruct Hp as [Hb Hk]. eauto.
Qed.

(** A load at the head of a program. *)
Lemma keeps_load {X B : Type} (c : SSHTunnel) (f : field X) (k : X -> prog B) :
  (if fixed f then keeps c (k (get_field f c)) else forall x, keeps c (k x)) ->
  keeps c (bind (readf f) k).
Proof. intros H. exact H. Qed.

Lemma same_configuration_refl c : same_configuration c c.
Proof. intros X f _. reflexivity. Qed.

Lemma same_configuration_store {X : Type} (f : field X) (v : X) c c' :
  fixed f = false -> same_configuration c c' -> same_configuration c (set_field f v c').
Proof.
  intros Hf Hc Y g Hg. rewrite <- (Hc Y g Hg).
  destruct g; try discriminate Hg; destruct f; try discriminate Hf; reflexivity.
Qed.

Lemma same_configuration_wg v c c' :
  same_configuration c c' -> same_configuration c (set_wg v c').
Proof. intros Hc Y g Hg. rewrite <- (Hc Y g Hg). destruct g; reflexivity. Qed.

Lemma same_configuration_mx v c c' :
  same_configuration c c' -> same_configuration c (set_mx v c').
Proof. intros Hc Y g Hg. rewrite <- (Hc Y g Hg). destruct g; reflexivity. Qed.

Lemma closed_store {X : Type} (f : field X) (v : X) c :
  store_keeps f v -> closed c = true -> closed (set_field f v c) = true.
Proof. destruct f; simpl; intros Hv Hc; try exact Hc. exact Hv. Qed.

(** Every step keeps the configuration, and keeps [closed] set. *)
Lemma keeps_inv_step c t a s s' :
  keeps_inv c s -> step t a s = Some s' ->
  keeps_inv c s' /\ (closed (tun s) = true -> closed (tun s') = true).
Proof.
  intros (Hcfg & Hths & Htr) Hstep. unfold step in Hstep.
  destruct (crashed s) eqn:Hcr; [discriminate|].
  destruct (threads s !! t) as [th|] eqn:Hth; [|discriminate]. simpl in Hstep.
  pose proof (Forall_lookup_1 _ _ _ _ Hths Hth) as Hk.
  assert (Hsame : forall th', thread_keeps c th' ->
            Forall (thread_keeps c) (<[t := th']> (threads s))).
  { intros th' H. apply Forall_insert; assumption. }
  destruct th as [[u|msg|X m k|X o k|X cl k|child k|body k]|X cl k]; simpl in Hk.
  - discriminate.
  - injection Hstep as <-. simpl. split; [|auto].
    split; [exact Hcfg|]. split; [exact Hths|]. constructor; [exact I|exact Htr].
  - injection Hstep as <-. destruct m as [Y fld|Y fld v]; simpl in *.
    + split; [|auto]. split; [exact Hcfg|]. split; [|exact Htr].
      apply Hsame. simpl. destruct (fixed fld) eqn:Hf; [|apply Hk].
      rewrite (Hcfg Y fld Hf). exact Hk.
    + destruct Hk as (Hf & Hv & Hk). split; [|apply closed_store, Hv].
      split; [apply same_configuration_store; assumption|].
      split; [apply Hsame, Hk|exact Htr].
  - destruct o as [| | |w d|w|w]; simpl in Hstep.
    + destruct (mx (tun s)) eqn:Hmx; [discriminate|]. injection Hstep as <-. simpl.
      split; [|destruct (tun s); auto].
      split; [apply same_configuration_mx, Hcfg|].
      split; [apply Hsame, Hk|constructor; [exact I|exact Htr]].
    + destruct (mx (tun s)) eqn:Hmx; injection Hstep as <-; simpl.
      * split; [|destruct (tun s); auto].
        split; [apply same_configuration_mx, Hcfg|].
        split; [apply Hsame, Hk|constructor; [exact I|exact Htr]].
      * split; [|auto]. split; [exact Hcfg|].
        split; [exact Hths|constructor; [exact I|exact Htr]].
    + injection Hstep as <-. simpl. split; [|auto]. split; [exact Hcfg|].
      split; [apply Hsame, Hk|constructor; [exact I|exact Htr]].
    + unfold wg_add in Hstep. destruct (wg_counter w s) as [n|]; [|discriminate].
      simpl in Hstep. destruct (n + d <? 0)%Z; simpl in Hstep; injection Hstep as <-.
      * simpl. split; [|auto]. split; [exact Hcfg|].
        split; [exact Hths|constructor; [exact I|exact Htr]].
      * destruct w; simpl; rewrite Hcr; simpl.
        -- split; [|destruct (tun s); auto].
           split; [apply same_configuration_wg, Hcfg|].
           split; [apply Hsame, Hk|constructor; [exact I|exact Htr]].
        -- split; [|auto]. split; [exact Hcfg|].
           split; [apply Hsame, Hk|constructor; [exact I|exact Htr]].
    + unfold wg_add in Hstep. destruct (wg_counter w s) as [n|]; [|discriminate].
      simpl in Hstep. destruct (n + -1 <? 0)%Z; simpl in Hstep; injection Hstep as <-.
      * simpl. split; [|auto]. split; [exact Hcfg|].
        split; [exact Hths|constructor; [exact I|exact Htr]].
      * destruct w; simpl; rewrite Hcr; simpl.
        -- split; [|destruct (tun s); auto].
           split; [apply same_configuration_wg, Hcfg|].
           split; [apply Hsame, Hk|constructor; [exact I|exact Htr]].
        -- split; [|auto]. split; [exact Hcfg|].
           split; [apply Hsame, Hk|constructor; [exact I|exact Htr]].
    + destruct (wg_counter w s) as [n|]; [|discriminate]. simpl in Hstep.
      destruct (n =? 0)%Z; [|discriminate]. injection Hstep as <-. simpl.
      split; [|auto]. split; [exact Hcfg|].
      split; [apply Hsame, Hk|constructor; [exact I|exact Htr]].
  - injection Hstep as <-. simpl. destruct Hk as [Hc Hk].
    split; [|auto]. split; [exact Hcfg|].
    split; [apply Hsame; exact Hk|constructor; [exact Hc|exact Htr]].
  - injection Hstep as <-. simpl. destruct Hk as [Hc Hk].
    split; [|auto]. split; [exact Hcfg|]. split; [|constructor; [exact I|exact Htr]].
    apply Forall_app. split; [apply Hsame, Hk|]. constructor; [exact Hc|constructor].
  - injection Hstep as <-. simpl. destruct Hk as [Hb Hk].
    split; [|auto]. split; [exact Hcfg|]. split; [|exact Htr].
    apply Hsame. simpl. apply keeps_bind; [exact Hb|]. intros [|]; simpl; auto.
  - destruct (decode cl a) as [x|]; [|discriminate]. simpl in Hstep.
    injection Hstep as <-. simpl.
    split; [|auto]. split; [exact Hcfg|].
    split; [apply Hsame, Hk|constructor; [exact I|exact Htr]].
Qed.

Lemma keeps_inv_reachable c s s' :
  keeps_inv c s -> reachable s s' ->
  keeps_inv c s' /\ (closed (tun s) = true -> closed (tun s') = true).
Proof.
  intros Hs Hr. induction Hr as [s|s s1 s2 [t [a Hstep]] Hr IH]; [auto|].
  destruct (keeps_inv_step _ _ _ _ _ Hs Hstep) as [H1 Hc1].
  destruct (IH H1) as [H2 Hc2]. auto.
Qed.

(** Every function of the package keeps to the configuration. *)
Create HintDb keeps discriminated.

Lemma keeps_readf {X : Type} c (f : field X) : keeps c (readf f).
Proof. simpl. destruct (fixed f); auto. Qed.

Lemma keeps_writef {X : Type} c (f : field X) (v : X) :
  fixed f = false -> store_keeps f v -> keeps c (writef f v).
Proof. simpl. auto. Qed.

Lemma keeps_call {X : Type} c (cl : call X) : targets c cl -> keeps c (call_ cl).
Proof. simpl. auto. Qed.

Lemma keeps_sync {X : Type} c (o : syncop X) : keeps c (sync o).
Proof. simpl. auto. Qed.

Lemma keeps_go_statement c child : keeps c child -> keeps c (go child).
Proof. simpl. auto. Qed.

Lemma keeps_ret {A : Type} c (a : A) : keeps c (Ret a).
Proof. exact I. Qed.

Lemma keeps_panic {A : Type} c msg : keeps c (Panic (A := A) msg).
Proof. exact I. Qed.

#[local] Hint Resolve keeps_readf keeps_writef keeps_call keeps_sync keeps_go_statement
  keeps_ret keeps_panic : keeps.
#[local] Hint Extern 1 (fixed _ = false) => reflexivity : keeps.
#[local] Hint Extern 1 (store_keeps _ _) => exact I : keeps.
#[local] Hint Extern 1 (store_keeps _ _) => reflexivity : keeps.
#[local] Hint Extern 1 (targets _ _) => exact I : keeps.
#[local] Hint Extern 1 (targets _ _) => simpl; repeat split; reflexivity : keeps.

Ltac keeps_go :=
  intros;
  lazymatch goal with
  | |- keeps _ (bind (readf _) _) =>
      apply keeps_load; lazy beta iota delta [fixed]; keeps_go
  | |- keeps _ (bind _ _) => apply keeps_bind; [keeps_go|intros; keeps_go]
  | |- keeps _ (match ?x with _ => _ end) => destruct x; keeps_go
  | |- keeps _ _ => solve [eauto with keeps]
  end.

Lemma keeps_log c format v : keeps c (log format v).
Proof. unfold log. keeps_go. Qed.
#[local] Hint Resolve keeps_log : keeps.

Lemma keeps_logCloseFailure c format err : keeps c (logCloseFailure format err).
Proof. unfold logCloseFailure. keeps_go. Qed.
#[local] Hint Resolve keeps_logCloseFailure : keeps.

Lemma keeps_sleepAttempt c : keeps c sleepAttempt.
Proof. unfold sleepAttempt. keeps_go. Qed.
#[local] Hint Resolve keeps_sleepAttempt : keeps.

Lemma keeps_viaClient {A : Type} c (method : Client -> prog A) :
  (forall client, keeps c (method client)) -> keeps c (viaClient method).
Proof. intros Hm. unfold viaClient. simpl. intros [client|]; [apply Hm|exact I]. Qed.

Lemma keeps_viaListener {A : Type} c (method : Listener -> prog A) :
  (forall ln, keeps c (method ln)) -> keeps c (viaListener method).
Proof. intros Hm. unfold viaListener. simpl. intros [ln|]; [apply Hm|exact I]. Qed.
#[local] Hint Resolve keeps_viaClient keeps_viaListener : keeps.

Lemma keeps_closeSSH c : keeps c closeSSH.
Proof. unfold closeSSH. keeps_go. Qed.

Lemma keeps_closeListener c : keeps c closeListener.
Proof. unfold closeListener. keeps_go. Qed.
#[local] Hint Resolve keeps_closeSSH keeps_closeListener : keeps.

Lemma keeps_sshConnect c : keeps c sshConnect.
Proof. unfold sshConnect. keeps_go. Qed.
#[local] Hint Resolve keeps_sshConnect : keeps.

Lemma keeps_clientDial c : keeps c clientDial.
Proof. unfold clientDial. apply keeps_viaClient. keeps_go. Qed.

Lemma keeps_clientListen c : keeps c clientListen.
Proof. unfold clientListen. apply keeps_viaClient. keeps_go. Qed.
#[local] Hint Resolve keeps_clientDial keeps_clientListen : keeps.

Lemma keeps_sshDial c : keeps c sshDial.
Proof. unfold sshDial. keeps_go. Qed.

Lemma keeps_sshListen c : keeps c sshListen.
Proof. unfold sshListen. keeps_go. Qed.

Lemma keeps_netDial c : keeps c netDial.
Proof. unfold netDial. keeps_go. Qed.

Lemma keeps_netListen c : keeps c netListen.
Proof. unfold netListen. keeps_go. Qed.

Lemma keeps_accept c : keeps c accept.
Proof. unfold accept. keeps_go. Qed.
#[local] Hint Resolve keeps_sshDial keeps_sshListen keeps_netDial keeps_netListen
  keeps_accept : keeps.

Lemma keeps_copyTask c w dst src format : keeps c (copyTask w dst src format).
Proof. unfold copyTask. keeps_go. Qed.
#[local] Hint Resolve keeps_copyTask : keeps.

Lemma keeps_proxy c lConn rConn : keeps c (proxy lConn rConn).
Proof. unfold proxy. keeps_go. Qed.
#[local] Hint Resolve keeps_proxy : keeps.

Lemma keeps_task c o conn : keeps c (task o conn).
Proof.
  destruct o; unfold task, forwardTask, forwardConn, reverseTask, reverseConn; keeps_go.
Qed.
#[local] Hint Resolve keeps_task : keeps.

Lemma keeps_for_not_closed c body : keeps c body -> keeps c (for_not_closed body).
Proof.
  intros Hb. unfold for_not_closed. simpl. split; [|exact I].
  intros [|]; [exact I|exact Hb].
Qed.

Lemma keeps_acceptLoop c o : keeps c (acceptLoop (task o)).
Proof.
  unfold acceptLoop. apply keeps_for_not_closed. unfold continue, break. keeps_go.
Qed.
#[local] Hint Resolve keeps_acceptLoop : keeps.

Lemma keeps_supervisor c o : keeps c (supervisor o).
Proof.
  pose proof (keeps_acceptLoop c Forward) as HF.
  pose proof (keeps_acceptLoop c Reverse) as HR.
  destruct o; unfold supervisor, forwardSupervisor, reverseSupervisor;
    (apply keeps_bind; [keeps_go|intros _]);
    (apply keeps_bind; [keeps_go|intros _]);
    (apply keeps_bind; [|keeps_go]);
    [unfold forwardLoop|unfold reverseLoop];
    apply keeps_for_not_closed; unfold continue; keeps_go.
Qed.

Lemma invoke_keeps c m : keeps c (invoke m).
Proof.
  pose proof (keeps_supervisor c Forward) as HF.
  pose proof (keeps_supervisor c Reverse) as HR.
  destruct m; unfold invoke, ForwardTunnel, ReverseTunnel, Close, closeInternal, Wait,
    SetAttemptSleepTime, SetLogger, SetNoLogger; keeps_go.
Qed.

Lemma caller_keeps c calls : keeps c (caller calls).
Proof.
  induction calls as [|m rest IH]; simpl; [exact I|].
  apply keeps_bind; [apply invoke_keeps|]. intros _. exact IH.
Qed.

Lemma callers_keeps_inv c programs : keeps_inv c (callers c programs).
Proof.
  split; [apply same_configuration_refl|]. split; [|constructor].
  unfold callers. simpl. apply Forall_fmap, Forall_forall. intros calls _.
  apply caller_keeps.
Qed.

Lemma Forall_omap {A B : Type} (P : A -> Prop) (Q : B -> Prop) (f : A -> option B)
    (l : list A) :
  (forall a b, P a -> f a = Some b -> Q b) -> Forall P l -> Forall Q (omap f l).
Proof.
  intros Hf Hl. induction Hl as [|a l Ha Hl IH]; simpl; [constructor|].
  destruct (f a) as [b|] eqn:E; [constructor; eauto|exact IH].
Qed.

(** Any number of goroutines call the methods of one tunnel, in any
    order; the goroutines these start run with them, interleaved in
    any way, with any answers from the network.  No method and no
    goroutine of the package ever writes the fields that
    [NewSSHTunnel] fills with the addresses, the client configuration
    and the I/O timeout: they keep their values for ever (only the
    backoff and the logger have setters). *)
Theorem configuration_is_never_changed :
  forall (c : SSHTunnel) (programs : list (list method)) (s : config),
    reachable (callers c programs) s ->
    sshConfig (tun s) = sshConfig c /\
    host (tun s) = host c /\
    netNetwork (tun s) = netNetwork c /\
    netAddress (tun s) = netAddress c /\
    sshNetwork (tun s) = sshNetwork c /\
    sshAddress (tun s) = sshAddress c /\
    ioTimeout (tun s) = ioTimeout c.
Proof.
  intros c programs s Hr.
  destruct (keeps_inv_reachable c _ _ (callers_keeps_inv c programs) Hr) as [(Hcfg & _) _].
  repeat split.
  - apply (Hcfg _ FsshConfig eq_refl).
  - apply (Hcfg _ Fhost eq_refl).
  - apply (Hcfg _ FnetNetwork eq_refl).
  - apply (Hcfg _ FnetAddress eq_refl).
  - apply (Hcfg _ FsshNetwork eq_refl).
  - apply (Hcfg _ FsshAddress eq_refl).
  - apply (Hcfg _ FioTimeout eq_refl).
Qed.

(** In the same processes every call that names an address names the
    one the tunnel was built with: [ssh.Dial] goes to the host with
    the client configuration, [Dial] and [Listen] through the session
    go to the remote address, [net.Dial] and [net.Listen] to the local
    one, however often and by whichever goroutine they are called. *)
Theorem calls_go_to_the_configured_addresses :
  forall (c : SSHTunnel) (programs : list (list method)) (s : config),
    reachable (callers c programs) s ->
    Forall (eq ("tcp", host c, sshConfig c)) (connects (history s)) /\
    Forall (eq (sshNetwork c, sshAddress c)) (session_targets (history s)) /\
    Forall (eq (netNetwork c, netAddress c)) (net_listens (history s)) /\
    Forall (eq (netNetwork c, netAddress c)) (net_dials (history s)).
Proof.
  intros c programs s Hr.
  destruct (keeps_inv_reachable c _ _ (callers_keeps_inv c programs) Hr)
    as [(_ & _ & Htr) _].
  assert (Hh : Forall (item_keeps c) (history s)).
  { unfold history. apply Forall_rev, Htr. }
  repeat split; (eapply Forall_omap; [|exact Hh]); intros i x Hi Hx;
    destruct i as [t X cl|t X cl y|t X o y|t child|t msg]; try discriminate Hx;
    destruct cl; try discriminate Hx; simpl in Hi; injection Hx as <-;
    repeat match goal with H : _ /\ _ |- _ => destruct H end; subst; reflexivity.
Qed.

(** In the same processes [closed] is never reset: once [Close] has
    set it, it stays set in every later state, whatever is called
    afterwards.  A tunnel that was closed cannot be started again. *)
Theorem closed_is_never_reset :
  forall (c : SSHTunnel) (programs : list (list method)) (s s' : config),
    reachable (callers c programs) s ->
    reachable s s' ->
    closed (tun s) = true ->
    closed (tun s') = true.
Proof.
  intros c programs s s' Hr Hr' Hcl.
  destruct (keeps_inv_reachable c _ _ (callers_keeps_inv c programs) Hr) as [Hinv _].
  destruct (keeps_inv_reachable c _ _ Hinv Hr') as [_ H]. exact (H Hcl).
Qed.

(** ** The wait groups balance *)

Lemma owes_bind {A B : Type} (w0 : wgref) (p : prog A) (f : A -> prog B) (b b1 b2 : Z) :
  owes w0 b p b1 -> (forall a, owes w0 b1 (f a) b2) -> owes w0 b (bind p f) b2.
Proof.
  revert B f b b1 b2.
  induction p as [A a|A msg|A X m k IH|A X o k IH|A X cl k IH|A child IHc k IHk
                  |A body IHb k IHk]; intros B f b b1 b2 Hp Hf; simpl in *.
  - subst b1. apply Hf.
  - exact Hp.
  - eauto.
  - destruct Hp as [H0 Hk]. eauto.
  - eauto.
  - destruct Hp as (bc & Hbc & Hc & Hk). exists bc. eauto.
  - destruct Hp as [Hb Hk]. eauto.
Qed.

Lemma counts_same w : counts w w = 1%Z.
Proof. unfold counts. rewrite bool_decide_eq_true_2; reflexivity. Qed.

Lemma counts_other w w0 : w <> w0 -> counts w w0 = 0%Z.
Proof. intros H. unfold counts. rewrite bool_decide_eq_false_2; [reflexivity|exact H]. Qed.

Lemma counts_range w w0 : (0 <= counts w w0 <= 1)%Z.
Proof. unfold counts. destruct (bool_decide (w = w0)); lia. Qed.

Lemma zsum_app l l' : zsum (l ++ l') = (zsum l + zsum l')%Z.
Proof. induction l as [|x l IH]; simpl; [reflexivity|]. rewrite IH. lia. Qed.

Lemma zsum_insert l : forall t b b',
  l !! t = Some b -> zsum (<[t := b']> l) = (zsum l - b + b')%Z.
Proof.
  induction l as [|x l IH]; intros t b b' H; [discriminate|].
  destruct t as [|t]; simpl in *.
  - injection H as ->. lia.
  - rewrite (IH t b b' H). lia.
Qed.

Lemma zsum_nonneg l : Forall (Z.le 0) l -> (0 <= zsum l)%Z.
Proof. induction 1; simpl; lia. Qed.

Lemma zsum_lookup_le l : forall t b,
  Forall (Z.le 0) l -> l !! t = Some b -> (0 <= b <= zsum l)%Z.
Proof.
  induction l as [|x l IH]; intros t b Hl H; [discriminate|].
  inversion Hl as [|? ? Hx Hl']; subst.
  pose proof (zsum_nonneg l Hl'). destruct t as [|t]; simpl in *.
  - injection H as ->. lia.
  - specialize (IH t b Hl' H). lia.
Qed.

Lemma zsum_zero l : Forall (Z.le 0) l -> zsum l = 0%Z -> Forall (eq 0%Z) l.
Proof.
  induction 1 as [|x l Hx Hl IH]; simpl; intros H; [constructor|].
  pose proof (zsum_nonneg l Hl). constructor; [lia|]. apply IH. lia.
Qed.

(** Goroutine [t] moves on; its counts and the counter change by
    [delta]. *)
Lemma wg_ok_update w0 initial counter counter' ths t th th' delta :
  wg_ok w0 initial counter ths -> ths !! t = Some th ->
  (forall b, (0 <= b)%Z -> thread_owes w0 b th ->
             (0 <= b + delta)%Z /\ thread_owes w0 (b + delta)%Z th') ->
  match counter, counter' with
  | Some n, Some n' => n' = (n + delta)%Z
  | None, Some n' => n' = initial /\ delta = 0%Z
  | None, None => delta = 0%Z
  | Some _, None => False
  end ->
  wg_ok w0 initial counter' (<[t := th']> ths).
Proof.
  intros (bs & HF & Hpos & Hsum) Hth Hstep Hcnt.
  destruct (Forall2_lookup_r _ _ _ _ _ HF Hth) as (b & Hb & Hty).
  destruct (zsum_lookup_le _ _ _ Hpos Hb) as [Hb0 _].
  destruct (Hstep b Hb0 Hty) as [Hb' Hty'].
  exists (<[t := (b + delta)%Z]> bs). split; [|split].
  - apply Forall2_insert; assumption.
  - apply Forall_insert; assumption.
  - rewrite (zsum_insert _ _ _ _ Hb).
    destruct counter as [n|], counter' as [n'|]; simpl in *; try contradiction; lia.
Qed.

Lemma wg_ok_same w0 initial counter ths t th th' :
  wg_ok w0 initial counter ths -> ths !! t = Some th ->
  (forall b, (0 <= b)%Z -> thread_owes w0 b th -> thread_owes w0 b th') ->
  wg_ok w0 initial counter (<[t := th']> ths).
Proof.
  intros Hok Hth Hstep.
  apply (wg_ok_update w0 initial counter counter ths t th th' 0 Hok Hth).
  - intros b Hb Hty. rewrite Z.add_0_r. split; [exact Hb|apply Hstep; assumption].
  - destruct counter; simpl; lia.
Qed.

(** A [go] statement hands the new goroutine its counts. *)
Lemma wg_ok_spawn w0 initial counter ths t child k :
  wg_ok w0 initial counter ths -> ths !! t = Some (Ready (Go child k)) ->
  wg_ok w0 initial counter (<[t := Ready k]> ths ++ [Ready child]).
Proof.
  intros (bs & HF & Hpos & Hsum) Hth.
  destruct (Forall2_lookup_r _ _ _ _ _ HF Hth) as (b & Hb & Hty).
  destruct Hty as (bc & Hbc & Hc & Hk).
  exists (<[t := (b - bc)%Z]> bs ++ [bc]). split; [|split].
  - apply Forall2_app; [apply Forall2_insert; assumption|].
    constructor; [exact Hc|constructor].
  - apply Forall_app. split; [apply Forall_insert; [assumption|lia]|].
    constructor; [lia|constructor].
  - rewrite zsum_app, (zsum_insert _ _ _ _ Hb). simpl.
    destruct counter as [n|]; simpl in *; lia.
Qed.

(** The goroutine that is about to change a counter holds counts that
    keep it from going negative. *)
Lemma wg_ok_counter w0 initial n ths t th :
  (0 <= initial)%Z -> wg_ok w0 initial (Some n) ths -> ths !! t = Some th ->
  exists b, thread_owes w0 b th /\ (0 <= b <= n)%Z.
Proof.
  intros Hi (bs & HF & Hpos & Hsum) Hth.
  destruct (Forall2_lookup_r _ _ _ _ _ HF Hth) as (b & Hb & Hty).
  pose proof (zsum_lookup_le _ _ _ Hpos Hb). exists b. split; [exact Hty|lia].
Qed.

Lemma wg_set_field {X : Type} (f : field X) (v : X) (c : SSHTunnel) :
  wg (set_field f v c) = wg c.
Proof. destruct f; reflexivity. Qed.

Lemma wg_counter_other w w0 v s :
  w <> w0 -> wg_counter w0 (set_wg_counter w v s) = wg_counter w0 s.
Proof.
  intros Hne. destruct w as [|id], w0 as [|id0]; simpl; try reflexivity.
  - contradiction.
  - apply list_lookup_insert_ne. congruence.
Qed.

Lemma wg_counter_same w v n s :
  wg_counter w s = Some n -> wg_counter w (set_wg_counter w v s) = Some v.
Proof.
  destruct w as [|id]; simpl; [reflexivity|]. intros H.
  apply list_lookup_insert_eq. eapply lookup_lt_Some, H.
Qed.

Lemma initial_counter_nonneg c w0 : (0 <= wg c)%Z -> (0 <= initial_counter c w0)%Z.
Proof. intros H. destruct w0; simpl; lia. Qed.

Lemma wg_counter_moved w0 i t th s :
  wg_counter w0 (emit i (set_thread t th s)) = wg_counter w0 s.
Proof. destruct w0; reflexivity. Qed.

Lemma threads_counter_set w v s : threads (set_wg_counter w v s) = threads s.
Proof. destruct w; reflexivity. Qed.

Lemma trace_counter_set w v s : trace (set_wg_counter w v s) = trace s.
Proof. destruct w; reflexivity. Qed.

Lemma crashed_counter_set w v s : crashed (set_wg_counter w v s) = crashed s.
Proof. destruct w; reflexivity. Qed.

(** A new wait group starts at zero and changes no other counter. *)
Lemma wg_counter_new c w0 s :
  match wg_counter w0 s, wg_counter w0 (with_wgs (wgs s ++ [0%Z]) s) with
  | Some n, Some n' => n' = (n + 0)%Z
  | None, Some n' => n' = initial_counter c w0 /\ 0%Z = 0%Z
  | None, None => 0%Z = 0%Z
  | Some _, None => False
  end.
Proof.
  destruct w0 as [|id]; simpl; [lia|].
  destruct (wgs s !! id) as [n|] eqn:E.
  - rewrite (lookup_app_l_Some _ _ _ _ E). lia.
  - destruct ((wgs s ++ [0%Z]) !! id) as [n'|] eqn:E'; [|reflexivity].
    apply lookup_app_Some in E'. destruct E' as [E'|[_ E']]; [congruence|].
    destruct (id - length (wgs s)) as [|m]; simpl in E'; [|discriminate].
    injection E' as <-. split; reflexivity.
Qed.

(** A counter changed by a goroutine that holds the counts for it does
    not go negative. *)
Lemma balanced_counter c s t X (o : syncop X) (k : X -> prog unit) w n :
  (0 <= wg c)%Z -> balanced c s -> threads s !! t = Some (Ready (Sync o k)) ->
  wg_counter w s = Some n ->
  (0 <= n + wg_delta w o)%Z.
Proof.
  intros Hbase Hbal Hth Hn. specialize (Hbal w). rewrite Hn in Hbal.
  destruct (wg_ok_counter _ _ _ _ _ _ (initial_counter_nonneg c w Hbase) Hbal Hth)
    as (b & [Hb _] & Hrange).
  lia.
Qed.

(** Every step keeps the balance; and a step taken under the mutex
    discipline adds no panic but the nil dereference. *)
Lemma balanced_step c t a s s' :
  (0 <= wg c)%Z -> balanced c s -> step t a s = Some s' ->
  balanced c s' /\
  (lock_inv s -> Forall panic_is_nil (trace s) -> Forall panic_is_nil (trace s')).
Proof.
  intros Hbase Hbal Hstep.
  unfold step in Hstep.
  destruct (crashed s) eqn:Hcr; [discriminate|].
  destruct (threads s !! t) as [th|] eqn:Hth; [|discriminate]. simpl in Hstep.
  destruct th as [[u|msg|X m k|X o k|X cl k|child k|body k]|X cl k].
  - discriminate.
  - injection Hstep as <-. split; [exact Hbal|intros _ Hpan].
    constructor; [|exact Hpan]. simpl.
    destruct (Hbal TunnelWg) as (bs & HF & _).
    destruct (Forall2_lookup_r _ _ _ _ _ HF Hth) as (b & _ & Hty). exact Hty.
  - injection Hstep as <-. split.
    + intros w0. specialize (Hbal w0). destruct m as [Y fld|Y fld v].
      * destruct w0; simpl; (eapply wg_ok_same; [exact Hbal|exact Hth|]);
          intros b _ Hty; apply Hty.
      * destruct w0; simpl; rewrite ?wg_set_field;
          (eapply wg_ok_same; [exact Hbal|exact Hth|]); intros b _ Hty; apply Hty.
    + intros _ Hpan. destruct m; exact Hpan.
  - destruct o as [| | |w d|w|w]; simpl in Hstep.
    + destruct (mx (tun s)) eqn:Hmx; [discriminate|]. injection Hstep as <-. split.
      * intros w0. specialize (Hbal w0).
        destruct w0; simpl; (eapply wg_ok_same; [exact Hbal|exact Hth|]);
          intros b _ [_ Hty]; simpl in Hty |- *; rewrite Z.add_0_r in Hty; apply Hty.
      * intros _ Hpan. constructor; [exact I|exact Hpan].
    + destruct (mx (tun s)) eqn:Hmx; injection Hstep as <-.
      * split.
        -- intros w0. specialize (Hbal w0).
           destruct w0; simpl; (eapply wg_ok_same; [exact Hbal|exact Hth|]);
             intros b _ [_ Hty]; simpl in Hty |- *; rewrite Z.add_0_r in Hty; apply Hty.
        -- intros _ Hpan. constructor; [exact I|exact Hpan].
      * split; [exact Hbal|intros Hlock _]. exfalso.
        destruct Hlock as (hs & HF & _ & Hm).
        destruct (Forall2_lookup_r _ _ _ _ _ HF Hth) as (h & Hh & Hl).
        simpl in Hl. destruct h; [|contradiction].
        specialize (Hm t Hh). congruence.
    + injection Hstep as <-. split.
      * intros w0. specialize (Hbal w0). rewrite wg_counter_moved. simpl threads.
        eapply (wg_ok_update w0 _ _ _ _ t _ _ 0%Z Hbal Hth); [|apply wg_counter_new].
        intros b Hb [_ Hty]. simpl in Hty. rewrite Z.add_0_r in Hty |- *.
        split; [exact Hb|apply Hty].
      * intros _ Hpan. constructor; [exact I|exact Hpan].
    + unfold wg_add in Hstep. destruct (wg_counter w s) as [n|] eqn:Hn; [|discriminate].
      simpl in Hstep.
      pose proof (balanced_counter c s t _ _ _ w n Hbase Hbal Hth Hn) as Hok.
      simpl in Hok. rewrite counts_same, Z.mul_1_r in Hok.
      destruct (n + d <? 0)%Z eqn:Hneg; [lia|]. clear Hneg.
      rewrite crashed_counter_set, Hcr in Hstep. injection Hstep as <-. split.
      * intros w0. specialize (Hbal w0). rewrite wg_counter_moved.
        simpl threads. rewrite threads_counter_set.
        destruct (decide (w = w0)) as [<-|Hne].
        -- rewrite (wg_counter_same _ _ _ _ Hn). rewrite Hn in Hbal.
           eapply (wg_ok_update w _ _ _ _ t _ _ d Hbal Hth); [|reflexivity].
           intros b Hb [H0 Hty]. simpl in H0, Hty.
           rewrite counts_same, Z.mul_1_r in H0, Hty. split; [exact H0|apply Hty].
        -- rewrite (wg_counter_other _ _ _ _ Hne).
           eapply wg_ok_same; [exact Hbal|exact Hth|].
           intros b Hb [_ Hty]. simpl in Hty.
           rewrite (counts_other _ _ Hne), Z.mul_0_r, Z.add_0_r in Hty. apply Hty.
      * intros _ Hpan. simpl. rewrite trace_counter_set. constructor; [exact I|exact Hpan].
    + unfold wg_add in Hstep. destruct (wg_counter w s) as [n|] eqn:Hn; [|discriminate].
      simpl in Hstep.
      pose proof (balanced_counter c s t _ _ _ w n Hbase Hbal Hth Hn) as Hok.
      simpl in Hok. rewrite counts_same in Hok.
      destruct (n + -1 <? 0)%Z eqn:Hneg; [lia|]. clear Hneg.
      rewrite crashed_counter_set, Hcr in Hstep. injection Hstep as <-. split.
      * intros w0. specialize (Hbal w0). rewrite wg_counter_moved.
        simpl threads. rewrite threads_counter_set.
        destruct (decide (w = w0)) as [<-|Hne].
        -- rewrite (wg_counter_same _ _ _ _ Hn). rewrite Hn in Hbal.
           eapply (wg_ok_update w _ _ _ _ t _ _ (-1) Hbal Hth); [|reflexivity].
           intros b Hb [H0 Hty]. simpl in H0, Hty.
           rewrite counts_same in H0, Hty. split; [exact H0|apply Hty].
        -- rewrite (wg_counter_other _ _ _ _ Hne).
           eapply wg_ok_same; [exact Hbal|exact Hth|].
           intros b Hb [_ Hty]. simpl in Hty.
           rewrite (counts_other _ _ Hne), Z.add_0_r in Hty. apply Hty.
      * intros _ Hpan. simpl. rewrite trace_counter_set. constructor; [exact I|exact Hpan].
    + destruct (wg_counter w s) as [n|]; [|discriminate]. simpl in Hstep.
      destruct (n =? 0)%Z; [|discriminate]. injection Hstep as <-. split.
      * intros w0. specialize (Hbal w0). rewrite wg_counter_moved. simpl threads.
        eapply wg_ok_same; [exact Hbal|exact Hth|].
        intros b _ [_ Hty]. simpl in Hty |- *. rewrite Z.add_0_r in Hty. apply Hty.
      * intros _ Hpan. constructor; [exact I|exact Hpan].
  - injection Hstep as <-. split.
    + intros w0. specialize (Hbal w0). rewrite wg_counter_moved. simpl threads.
      eapply wg_ok_same; [exact Hbal|exact Hth|]. intros b _ Hty. exact Hty.
    + intros _ Hpan. constructor; [exact I|exact Hpan].
  - injection Hstep as <-. split.
    + intros w0. specialize (Hbal w0).
      destruct w0; simpl; apply wg_ok_spawn; assumption.
    + intros _ Hpan. constructor; [exact I|exact Hpan].
  - injection Hstep as <-. split.
    + intros w0. specialize (Hbal w0).
      destruct w0; simpl; (eapply wg_ok_same; [exact Hbal|exact Hth|]);
        intros b _ [Hb Hk]; simpl; (eapply owes_bind; [exact Hb|]);
        intros [|]; simpl; auto.
    + intros _ Hpan. exact Hpan.
  - destruct (decode cl a) as [x|]; [|discriminate]. simpl in Hstep.
    injection Hstep as <-. split.
    + intros w0. specialize (Hbal w0). rewrite wg_counter_moved. simpl threads.
      eapply wg_ok_same; [exact Hbal|exact Hth|]. intros b _ Hty. apply Hty.
    + intros _ Hpan. constructor; [exact I|exact Hpan].
Qed.

Lemma balanced_reachable c s s' :
  (0 <= wg c)%Z -> balanced c s -> reachable s s' -> balanced c s'.
Proof.
  intros Hbase Hs Hr. induction Hr as [s|s s1 s2 [t [a Hstep]] Hr IH]; [exact Hs|].
  apply IH. eapply balanced_step; eassumption.
Qed.


(** Every function of the package balances the wait groups. *)
Create HintDb owes discriminated.

Lemma owes_from {A : Type} w0 b b0 b' (p : prog A) :
  b = b0 -> owes w0 b0 p b' -> owes w0 b p b'.
Proof. intros ->. auto. Qed.

Lemma owes_readf {X : Type} w0 b (f : field X) : owes w0 b (readf f) b.
Proof. simpl. reflexivity. Qed.

Lemma owes_writef {X : Type} w0 b (f : field X) (v : X) : owes w0 b (writef f v) b.
Proof. simpl. reflexivity. Qed.

Lemma owes_call {X : Type} w0 b (cl : call X) : owes w0 b (call_ cl) b.
Proof. simpl. reflexivity. Qed.

Lemma owes_sync {X : Type} w0 b b' (o : syncop X) :
  (0 <= b')%Z -> b' = (b + wg_delta w0 o)%Z -> owes w0 b (sync o) b'.
Proof. intros H0 ->. simpl. split; [exact H0|reflexivity]. Qed.

Lemma owes_sync_same {X : Type} w0 b (o : syncop X) :
  (0 <= b)%Z -> wg_delta w0 o = 0%Z -> owes w0 b (sync o) b.
Proof. intros H0 Ho. apply owes_sync; lia. Qed.

Lemma owes_go_statement w0 b b' bc child :
  (0 <= bc <= b)%Z -> b' = (b - bc)%Z -> owes w0 bc child 0%Z -> owes w0 b (go child) b'.
Proof. intros Hbc -> Hc. simpl. exists bc. auto. Qed.

Lemma owes_ret {A : Type} w0 b b' (a : A) : b = b' -> owes w0 b (Ret a) b'.
Proof. intros ->. reflexivity. Qed.

Lemma owes_panic {A : Type} w0 b b' : owes w0 b (Panic (A := A) nil_deref) b'.
Proof. reflexivity. Qed.

#[local] Hint Resolve owes_readf owes_writef owes_call owes_ret owes_panic : owes.
#[local] Hint Extern 2 (owes _ _ (sync _) _) =>
  apply owes_sync_same; [lia|reflexivity] : owes.
#[local] Hint Extern 1 (@eq Z _ _) => lia : owes.
#[local] Hint Extern 1 (Z.le _ _) => lia : owes.

Ltac owes_go :=
  intros;
  lazymatch goal with
  | |- owes _ _ (bind _ _) _ => eapply owes_bind; [owes_go|intros; owes_go]
  | |- owes _ _ (match ?x with _ => _ end) _ => destruct x; owes_go
  | |- owes _ _ _ _ => solve [eauto with owes]
  end.

Lemma owes_log w0 b format v : owes w0 b (log format v) b.
Proof. unfold log. owes_go. Qed.
#[local] Hint Resolve owes_log : owes.

Lemma owes_logCloseFailure w0 b format err : owes w0 b (logCloseFailure format err) b.
Proof. unfold logCloseFailure. owes_go. Qed.
#[local] Hint Resolve owes_logCloseFailure : owes.

Lemma owes_sleepAttempt w0 b : owes w0 b sleepAttempt b.
Proof. unfold sleepAttempt. owes_go. Qed.
#[local] Hint Resolve owes_sleepAttempt : owes.

Lemma owes_viaClient {A : Type} w0 b b' (method : Client -> prog A) :
  (forall client, owes w0 b (method client) b') -> owes w0 b (viaClient method) b'.
Proof. intros Hm. unfold viaClient. simpl. intros [client|]; [apply Hm|reflexivity]. Qed.

Lemma owes_viaListener {A : Type} w0 b b' (method : Listener -> prog A) :
  (forall ln, owes w0 b (method ln) b') -> owes w0 b (viaListener method) b'.
Proof. intros Hm. unfold viaListener. simpl. intros [ln|]; [apply Hm|reflexivity]. Qed.
#[local] Hint Resolve owes_viaClient owes_viaListener : owes.

Lemma owes_closeSSH w0 b : owes w0 b closeSSH b.
Proof. unfold closeSSH. owes_go. Qed.

Lemma owes_closeListener w0 b : owes w0 b closeListener b.
Proof. unfold closeListener. owes_go. Qed.
#[local] Hint Resolve owes_closeSSH owes_closeListener : owes.

Lemma owes_sshConnect w0 b : (0 <= b)%Z -> owes w0 b sshConnect b.
Proof. intros Hb. unfold sshConnect. owes_go. Qed.
#[local] Hint Resolve owes_sshConnect : owes.

Lemma owes_clientDial w0 b : owes w0 b clientDial b.
Proof. unfold clientDial. apply owes_viaClient. owes_go. Qed.

Lemma owes_clientListen w0 b : owes w0 b clientListen b.
Proof. unfold clientListen. apply owes_viaClient. owes_go. Qed.
#[local] Hint Resolve owes_clientDial owes_clientListen : owes.

Lemma owes_sshDial w0 b : (0 <= b)%Z -> owes w0 b sshDial b.
Proof. intros Hb. unfold sshDial. owes_go. Qed.

Lemma owes_sshListen w0 b : (0 <= b)%Z -> owes w0 b sshListen b.
Proof. intros Hb. unfold sshListen. owes_go. Qed.

Lemma owes_netDial w0 b : owes w0 b netDial b.
Proof. unfold netDial. owes_go. Qed.

Lemma owes_netListen w0 b : owes w0 b netListen b.
Proof. unfold netListen. owes_go. Qed.

Lemma owes_accept w0 b : owes w0 b accept b.
Proof. unfold accept. owes_go. Qed.
#[local] Hint Resolve owes_sshDial owes_sshListen owes_netDial owes_netListen
  owes_accept : owes.

(** A copy direction is handed one count of the wait group of its
    task, and gives it back with its [Done]. *)
Lemma owes_copyTask w0 w dst src format :
  owes w0 (counts w w0) (copyTask w dst src format) 0%Z.
Proof.
  pose proof (counts_range w w0). unfold copyTask.
  eapply owes_bind; [owes_go|intros r].
  eapply owes_bind; [owes_go|intros _]. apply owes_sync; simpl; lia.
Qed.

(** The proxying part of a task adds two counts to its own wait group
    and hands one to each copy direction. *)
Lemma owes_proxy w0 b lConn rConn : (0 <= b)%Z -> owes w0 b (proxy lConn rConn) b.
Proof.
  intros Hb. unfold proxy.
  eapply owes_bind; [owes_go|intros now].
  eapply owes_bind; [owes_go|intros timeout].
  eapply owes_bind; [owes_go|intros err].
  eapply owes_bind; [owes_go|intros _].
  eapply owes_bind; [owes_go|intros w].
  pose proof (counts_range w w0).
  eapply (owes_bind _ _ _ _ (b + 2 * counts w w0)%Z);
    [apply owes_sync; simpl; lia|intros _].
  eapply (owes_bind _ _ _ _ (b + counts w w0)%Z);
    [apply (owes_go_statement _ _ _ (counts w w0)); [lia|lia|apply owes_copyTask]|intros _].
  eapply (owes_bind _ _ _ _ b);
    [apply (owes_go_statement _ _ _ (counts w w0)); [lia|lia|apply owes_copyTask]|intros _].
  owes_go.
Qed.
#[local] Hint Resolve owes_proxy : owes.

(** A task is handed one count of the wait group of the tunnel, and
    gives it back with its deferred [Done]. *)
Lemma owes_task w0 o conn : owes w0 (counts TunnelWg w0) (task o conn) 0%Z.
Proof.
  pose proof (counts_range TunnelWg w0).
  destruct o; unfold task, forwardTask, forwardConn, reverseTask, reverseConn;
    (eapply owes_bind; [owes_go|intros _]); apply owes_sync; simpl; lia.
Qed.

Lemma owes_for_not_closed w0 b body :
  owes w0 b body b -> owes w0 b (for_not_closed body) b.
Proof.
  intros Hb. unfold for_not_closed. simpl. split; [|reflexivity].
  intros [|]; [reflexivity|exact Hb].
Qed.

(** The accept loop adds one count for each task it starts. *)
Lemma owes_acceptLoop w0 b o : (0 <= b)%Z -> owes w0 b (acceptLoop (task o)) b.
Proof.
  intros Hb. pose proof (counts_range TunnelWg w0).
  unfold acceptLoop. apply owes_for_not_closed. unfold continue, break.
  eapply owes_bind; [owes_go|intros [conn|e]].
  - eapply (owes_bind _ _ _ _ (b + counts TunnelWg w0)%Z);
      [apply owes_sync; simpl; lia|intros _].
    eapply (owes_bind _ _ _ _ b);
      [apply (owes_go_statement _ _ _ (counts TunnelWg w0)); [lia|lia|apply owes_task]
      |intros _].
    reflexivity.
  - owes_go.
Qed.
#[local] Hint Resolve owes_acceptLoop : owes.

(** A supervisory goroutine is handed one count, and gives it back
    with its deferred [Done]. *)
Lemma owes_supervisor w0 o : owes w0 (counts TunnelWg w0) (supervisor o) 0%Z.
Proof.
  pose proof (counts_range TunnelWg w0).
  pose proof (owes_acceptLoop w0 (counts TunnelWg w0) Forward) as HF.
  pose proof (owes_acceptLoop w0 (counts TunnelWg w0) Reverse) as HR.
  destruct o; unfold supervisor, forwardSupervisor, reverseSupervisor;
    (eapply owes_bind; [owes_go|intros _]);
    (eapply owes_bind; [owes_go|intros _]);
    (eapply (owes_bind _ _ _ _ (counts TunnelWg w0)); [|intros _]).
  - unfold forwardLoop. apply owes_for_not_closed. unfold continue. owes_go.
  - eapply owes_bind; [owes_go|intros _]. apply owes_sync; simpl; lia.
  - unfold reverseLoop. apply owes_for_not_closed. unfold continue. owes_go.
  - eapply owes_bind; [owes_go|intros _]. apply owes_sync; simpl; lia.
Qed.

(** Starting a tunnel adds the count it hands to the supervisory
    goroutine. *)
Lemma owes_startTunnel w0 b o : (0 <= b)%Z -> owes w0 b (startTunnel o) b.
Proof.
  intros Hb. pose proof (counts_range TunnelWg w0).
  assert (Hgo : owes w0 (b + counts TunnelWg w0) (go (supervisor o)) b).
  { apply (owes_go_statement _ _ _ (counts TunnelWg w0)); [lia|lia|apply owes_supervisor]. }
  destruct o; unfold startTunnel, ForwardTunnel, ReverseTunnel;
    (eapply owes_bind; [owes_go|intros _]);
    (eapply (owes_bind _ _ _ _ (b + counts TunnelWg w0)%Z);
       [apply owes_sync; simpl; lia|intros _]);
    exact Hgo.
Qed.

Lemma invoke_owes w0 b m : (0 <= b)%Z -> owes w0 b (invoke m) b.
Proof.
  intros Hb.
  destruct m; unfold invoke, Close, closeInternal, Wait, SetAttemptSleepTime, SetLogger,
    SetNoLogger.
  - apply (owes_startTunnel w0 b Forward Hb).
  - apply (owes_startTunnel w0 b Reverse Hb).
  - owes_go.
  - owes_go.
  - owes_go.
  - owes_go.
  - owes_go.
Qed.

Lemma caller_owes w0 calls : owes w0 0%Z (caller calls) 0%Z.
Proof.
  induction calls as [|m rest IH]; simpl; [reflexivity|].
  eapply owes_bind; [apply invoke_owes; lia|]. intros _. exact IH.
Qed.

Lemma callers_balanced c programs : balanced c (callers c programs).
Proof.
  intros w0. exists (map (fun _ => 0%Z) programs).
  assert (Hsum : zsum (map (fun _ : list method => 0%Z) programs) = 0%Z).
  { induction programs as [|p l IH]; simpl; [reflexivity|]. rewrite IH. reflexivity. }
  split; [|split].
  - unfold callers. simpl. apply Forall2_fmap, Forall_Forall2_diag, Forall_forall.
    intros calls _. apply caller_owes.
  - apply Forall_fmap, Forall_forall. intros calls _. simpl. lia.
  - rewrite Hsum. destruct w0 as [|id]; simpl; [lia|reflexivity].
Qed.


(** A goroutine that has a [Done] of the tunnel's wait group ahead
    holds a count of it. *)
Lemma done_ahead_owes {A : Type} (p : prog A) : forall b b',
  owes TunnelWg b p b' -> done_ahead p -> (1 <= b)%Z.
Proof.
  induction p as [A a|A msg|A X m k IH|A X o k IH|A X cl k IH|A child IHc k IHk
                  |A body IHb k IHk]; intros b b' Hty Hd; simpl in *.
  - contradiction.
  - contradiction.
  - destruct Hd as [x Hd]. eauto.
  - destruct Hty as [H0 Hty]. destruct Hd as [Hd|[Hz [x Hd]]]; [lia|].
    specialize (IH x _ _ (Hty x) Hd). lia.
  - destruct Hd as [x Hd]. eauto.
  - destruct Hty as (bc & Hbc & Hc & Hk). destruct Hd as [Hd|Hd].
    + specialize (IHc _ _ Hc Hd). lia.
    + specialize (IHk _ _ Hk Hd). lia.
  - destruct Hty as [Hb Hk]. destruct Hd as [Hd|[_ Hd]]; eauto.
Qed.

(** Finds a path to a [Done], or to a return, by trying the answers
    that end a loop or take the failure branch. *)
Ltac find_path :=
  simpl;
  lazymatch goal with
  | |- False => fail
  | |- (_ < _)%Z => reflexivity
  | |- _ = _ => reflexivity
  | |- _ /\ _ => split; find_path
  | |- _ \/ _ => first [left; find_path|right; find_path]
  | |- @ex bool _ => first [exists true; find_path|exists false; find_path]
  | |- @ex (option Client) _ =>
      first [exists None; find_path|exists (Some (mkClient 0)); find_path]
  | |- @ex (option Listener) _ =>
      first [exists None; find_path|exists (Some (mkListener 0)); find_path]
  | |- @ex (option _) _ => exists None; find_path
  | |- @ex Duration _ => exists 0%Z; find_path
  | |- @ex (result _) _ => exists (Err EOF); find_path
  | |- @ex unit _ => exists tt; find_path
  | |- @ex LoggerFn _ => exists NoLogger; find_path
  | |- @ex string _ => exists EmptyString; find_path
  | |- @ex Z _ => exists 0%Z; find_path
  | |- @ex ClientConfig _ => exists (mkClientConfig EmptyString EmptyString); find_path
  | |- @ex (Z * option error)%type _ => exists (0%Z, None); find_path
  | |- @ex wgref _ => exists (LocalWg 0); find_path
  end.

(** The goroutines the package starts have their deferred [Done]
    ahead, from their start and at the head of either loop. *)
Lemma supervisor_done_ahead o : done_ahead (supervisor o).
Proof. destruct o; unfold supervisor, forwardSupervisor, reverseSupervisor; find_path. Qed.

Lemma supervisorLoop_done_ahead o : done_ahead (supervisorLoop o).
Proof. destruct o; unfold supervisorLoop; find_path. Qed.

Lemma acceptingLoop_done_ahead o : done_ahead (acceptingLoop o).
Proof. destruct o; unfold acceptingLoop; find_path. Qed.

Lemma task_done_ahead o conn : done_ahead (task o conn).
Proof. destruct o; unfold task, forwardTask, reverseTask; find_path. Qed.


(** In the same processes, when every goroutine has ended the wait
    group of the tunnel is back at the value it started with and the
    wait group of every proxy task is at zero: each [Add] has been
    matched by its [Done]s. *)
Theorem wait_groups_are_back_when_all_has_ended :
  forall (c : SSHTunnel) (programs : list (list method)) (s : config),
    (0 <= wg c)%Z ->
    reachable (callers c programs) s ->
    finished s ->
    wg (tun s) = wg c /\ Forall (eq 0%Z) (wgs s).
Proof.
  intros c programs s Hbase Hr Hfin.
  pose proof (balanced_reachable c _ _ Hbase (callers_balanced c programs) Hr) as Hbal.
  assert (Hzero : forall w0 n, wg_counter w0 s = Some n -> n = initial_counter c w0).
  { intros w0 n Hn. destruct (Hbal w0) as (bs & HF & _ & Hsum). rewrite Hn in Hsum.
    assert (Hbs : zsum bs = 0%Z).
    { clear Hsum Hn. unfold finished in Hfin.
      induction HF as [|b th bs ths Hty HF IH]; [reflexivity|].
      inversion Hfin as [|? ? Hth Hfin']; subst. simpl in Hty. subst b.
      simpl. rewrite (IH Hfin'). reflexivity. }
    lia. }
  split.
  - apply (Hzero TunnelWg). reflexivity.
  - apply Forall_lookup. intros id n Hn. symmetry. apply (Hzero (LocalWg id)). exact Hn.
Qed.

(** In the same processes, as long as some goroutine has its
    [c.wg.Done()] ahead (a supervisory goroutine or a proxy task that
    has not ended), the counter of the tunnel's wait group is above
    the value it started with; so no [c.wg.Wait()], in [Close] or in
    [Wait], can be passed. *)
Theorem wait_blocks_while_a_done_is_ahead :
  forall (c : SSHTunnel) (programs : list (list method)) (s : config)
         (i : nat) (th : thread),
    (0 <= wg c)%Z ->
    reachable (callers c programs) s ->
    threads s !! i = Some th ->
    thread_done_ahead th ->
    (wg c < wg (tun s))%Z /\
    forall (j : nat) (k : unit -> prog unit) (a : answer),
      threads s !! j = Some (Ready (Sync (WgWait TunnelWg) k)) ->
      step j a s = None.
Proof.
  intros c programs s i th Hbase Hr Hth Hd.
  pose proof (balanced_reachable c _ _ Hbase (callers_balanced c programs) Hr) as Hbal.
  assert (Hwg : (wg c < wg (tun s))%Z).
  { destruct (Hbal TunnelWg) as (bs & HF & Hpos & Hsum). simpl in Hsum.
    destruct (Forall2_lookup_r _ _ _ _ _ HF Hth) as (b & Hb & Hty).
    pose proof (zsum_lookup_le _ _ _ Hpos Hb) as Hle.
    assert (1 <= b)%Z; [|lia].
    destruct th as [p|X cl k]; simpl in Hty, Hd.
    - eapply done_ahead_owes; eassumption.
    - destruct Hd as [x Hd]. eapply done_ahead_owes; [apply Hty|exact Hd]. }
  split; [exact Hwg|].
  intros j k a Hj. unfold step. destruct (crashed s); [reflexivity|].
  rewrite Hj. simpl.
  destruct (wg (tun s) =? 0)%Z eqn:E; [|reflexivity]. lia.
Qed.

(** ** A proxy task never blocks for good *)

Lemma decode_some_answer {X : Type} (cl : call X) : decode cl (some_answer cl) <> None.
Proof. destruct cl; discriminate. Qed.

(** An enabled goroutine steps. *)
Lemma enabled_steps s t th :
  crashed s = false -> threads s !! t = Some th -> enabled s th ->
  exists a s', step t a s = Some s'.
Proof.
  intros Hcr Hth Hen. unfold step. rewrite Hcr, Hth. simpl.
  destruct th as [[u|msg|X m k|X o k|X cl k|child k|body k]|X cl k]; simpl in Hen.
  - contradiction.
  - exists AUnit. eexists. reflexivity.
  - exists AUnit. eexists. reflexivity.
  - exists AUnit. destruct o as [| | |w d|w|w]; simpl.
    + rewrite Hen. eexists. reflexivity.
    + destruct (mx (tun s)); eexists; reflexivity.
    + eexists. reflexivity.
    + unfold wg_add. destruct (wg_counter w s); [|contradiction]. eexists. reflexivity.
    + unfold wg_add. destruct (wg_counter w s); [|contradiction]. eexists. reflexivity.
    + rewrite Hen. eexists. reflexivity.
  - exists AUnit. eexists. reflexivity.
  - exists AUnit. eexists. reflexivity.
  - exists AUnit. eexists. reflexivity.
  - exists (some_answer cl). pose proof (decode_some_answer cl) as Hd.
    destruct (decode cl (some_answer cl)); [|contradiction]. eexists. reflexivity.
Qed.

Section Progress.

Variables lConn rConn : Conn.
Variable timeout : Duration.

(** A copy goroutine that has not ended is enabled. *)
Lemma copy_enabled s w dst src cst th :
  copy_thread w dst src cst th -> cst <> CDone -> wg_counter w s <> None -> enabled s th.
Proof.
  intros Hty Hne Hw.
  destruct th as [[u|msg|X m k|X o k|X cl k|child k|body k]|X cl k]; simpl in Hty |- *.
  - contradiction.
  - exact I.
  - exact I.
  - destruct o; try contradiction. destruct Hty as (_ & -> & _). exact Hw.
  - exact I.
  - exact I.
  - exact I.
  - exact I.
Qed.

Lemma proxy_inv_progress s :
  proxy_inv lConn rConn timeout s ->
  finished s \/ exists t a s', step t a s = Some s'.
Proof.
  intros (st & cs & pth & cths & Hths & Hcr & Hio & Hth & Hcs & Hwg & Hrest & Hobs & Hord).
  assert (Hstep : forall t th, threads s !! t = Some th -> enabled s th ->
            finished s \/ exists t a s', step t a s = Some s').
  { intros t th Ht Hen. right. exists t. eapply enabled_steps; eassumption. }
  assert (H0 : threads s !! 0 = Some pth) by (rewrite Hths; reflexivity).
  destruct pth as [[u|msg|X m k|X o k|X cl k|child k|body k]|X cl k];
    try (apply (Hstep 0 _ H0); exact I).
  - left. simpl in Hth.
    destruct st as [| | | | | | | | | |now w [|next rest]|]; try contradiction.
    destruct Hcs as [_ ->]. unfold finished. rewrite Hths. destruct u.
    repeat constructor.
  - simpl in Hth.
    destruct o as [| | |w' d|w'|w']; try contradiction; try (apply (Hstep 0 _ H0); exact I).
    + destruct st; try contradiction. destruct Hth as (-> & _ & _).
      apply (Hstep 0 _ H0). simpl in Hwg |- *. rewrite Hwg. discriminate.
    + destruct st; try contradiction. destruct Hth as (-> & _).
      destruct Hcs as (c1 & c2 & t1 & t2 & -> & -> & Hc1 & Hc2). simpl in Hwg.
      destruct c1;
        try (apply (Hstep 1 t1); [rewrite Hths; reflexivity|];
             eapply copy_enabled; [exact Hc1|discriminate|rewrite Hwg; discriminate]).
      destruct c2;
        try (apply (Hstep 2 t2); [rewrite Hths; reflexivity|];
             eapply copy_enabled; [exact Hc2|discriminate|rewrite Hwg; discriminate]).
      apply (Hstep 0 _ H0). simpl. rewrite Hwg. reflexivity.
Qed.

End Progress.

(** In both orientations, in every interleaving of a proxy task and
    its two copy goroutines and with every answer of the network: the
    process is never stuck.  Either all three goroutines have ended,
    or one of them can take a step; in particular the [wg.Wait()] of
    the task is passed once both copies have called [Done], and
    nothing the three do can block another for good. *)
Theorem proxy_task_is_never_stuck :
  forall (o : Orientation) (c : SSHTunnel) (lConn rConn : Conn) (s : config),
    (o = Forward -> sshClient c <> None) ->
    reachable (dialled o c lConn rConn) s ->
    finished s \/ exists t a s', step t a s = Some s'.
Proof.
  intros o c lConn rConn s Hcl Hr.
  destruct (dialled_ready o c lConn rConn Hcl) as [Hready Hio].
  eapply proxy_inv_progress.
  eapply proxy_inv_reachable; [apply proxy_ready_inv, Hready|exact Hr].
Qed.

(** ** Further instances *)

Lemma sshConnect_replaces_the_session_instance :
  let c := NewSSHTunnel (mkClientConfig "root" "secret") "example.org:22" "8080" "80" in
  let s := fst (run_thread 200 0 [AClient (Ok (mkClient 1))]
                  (start c (_ <- sshConnect ;; Ret tt))) in
  tun s = set_field FsshClient (Some (mkClient 1)) c /\
  session_calls (history s) = [Connecting "example.org:22"].
Proof.
  intros c s.
  destruct (sshConnect_replaces_the_session c None (Ok (mkClient 1)) eq_refl)
    as (_ & _ & Ha & Hb).
  exact (conj Ha Hb).
Defined.

Lemma forward_listen_failures_back_off_instance :
  let c := NewSSHTunnel (mkClientConfig "root" "secret") "example.org:22" "8080" "80" in
  let s := fst (run_thread (17 * 2) 0
                  [AListener (Err EOF); AListener (Err (ErrNew "address already in use"))]
                  (start c (supervisorLoop Forward))) in
  net_listens (history s) = [("tcp", "localhost:8080"); ("tcp", "localhost:8080")] /\
  sleeps (history s) = [3000000000; 3000000000]%Z.
Proof.
  intros c s.
  destruct (forward_listen_failures_back_off c [EOF; ErrNew "address already in use"] eq_refl)
    as (_ & _ & _ & Ha & Hb & _).
  exact (conj Ha Hb).
Defined.

Lemma accept_starts_one_task_per_connection_instance :
  let c := set_field Flistener (Some (mkListener 1))
             (NewSSHTunnel (mkClientConfig "root" "secret") "example.org:22" "8080" "80") in
  let s := fst (run_thread (11 * 2) 0 [AConn (Ok (mkConn 7)); AConn (Ok (mkConn 8))]
                  (mkConfig c [] [Ready (acceptingLoop Forward)] false [])) in
  threads s =
    [Ready (acceptingLoop Forward); Ready (forwardTask (mkConn 7));
     Ready (forwardTask (mkConn 8))] /\
  spawned (history s) = [1; 2].
Proof.
  intros c s.
  destruct (accept_starts_one_task_per_connection Forward [mkConn 7; mkConn 8] c [] []
              (mkListener 1) eq_refl eq_refl (Z.le_refl 0))
    as (_ & _ & Ha & _ & Hb & _).
  exact (conj Ha Hb).
Defined.

Lemma start_after_close_still_connects_instance :
  let c := set_field Fclosed true
             (NewSSHTunnel (mkClientConfig "root" "secret") "example.org:22" "8080" "80") in
  let s := run_segments [(200, 0, []); (200, 1, [AClient (Ok (mkClient 0))])]
             (start c (startTunnel Forward)) in
  tun s = set_field FsshClient (Some (mkClient 0)) c /\
  net_listens (history s) = [].
Proof.
  intros c s.
  destruct (start_after_close_still_connects Forward c (Ok (mkClient 0))
              eq_refl eq_refl eq_refl eq_refl)
    as (_ & _ & Ha & _ & Hb & _).
  exact (conj Ha Hb).
Defined.

Lemma copy_logs_all_but_eof_and_deadline_instance :
  let c := NewSSHTunnel (mkClientConfig "root" "secret") "example.org:22" "8080" "80" in
  let s := fst (run_thread 200 0 [ACopy 512 (Some (ErrWrap "read tcp" ErrDeadlineExceeded))]
                  (mkConfig c [2%Z]
                     [Ready (copyTask (LocalWg 0) (mkConn 7) (mkConn 9) "io.Copy failed: %v")]
                     false [])) in
  wgs s = [1%Z] /\ log_lines (history s) = [].
Proof.
  intros c s.
  destruct (copy_logs_all_but_eof_and_deadline c (mkConn 7) (mkConn 9) "io.Copy failed: %v"
              512 (Some (ErrWrap "read tcp" ErrDeadlineExceeded)) 2 eq_refl)
    as (_ & _ & _ & Ha & _ & Hb).
  exact (conj Ha Hb).
Defined.

Lemma configuration_is_never_changed_instance :
  let c := NewSSHTunnel (mkClientConfig "root" "secret") "example.org:22" "8080" "80" in
  let s := run_segments
             [(200, 0, []);
              (200, 1, [AClient (Ok (mkClient 0)); AListener (Ok (mkListener 1))])]
             (callers c [[MSetAttemptSleepTime Second; MForwardTunnel]]) in
  netAddress (tun s) = "localhost:8080" /\
  sshAddress (tun s) = "localhost:80" /\
  ioTimeout (tun s) = (30 * Second)%Z.
Proof.
  intros c s.
  destruct (configuration_is_never_changed c
              [[MSetAttemptSleepTime Second; MForwardTunnel]] s
              (run_segments_reachable _ _))
    as (_ & _ & _ & Ha & _ & Hb & Hc).
  exact (conj Ha (conj Hb Hc)).
Defined.

Lemma calls_go_to_the_configured_addresses_instance :
  let c := NewSSHTunnel (mkClientConfig "root" "secret") "example.org:22" "8080" "80" in
  let s := run_segments
             [(200, 0, []);
              (200, 1, [AClient (Ok (mkClient 0)); AListener (Ok (mkListener 1))])]
             (callers c [[MReverseTunnel]]) in
  Forall (eq ("tcp", "example.org:22", mkClientConfig "root" "secret"))
    (connects (history s)) /\
  Forall (eq ("tcp", "localhost:80")) (session_targets (history s)).
Proof.
  intros c s.
  destruct (calls_go_to_the_configured_addresses c [[MReverseTunnel]] s
              (run_segments_reachable _ _))
    as (Ha & Hb & _).
  exact (conj Ha Hb).
Defined.

Lemma closed_is_never_reset_instance :
  let c := NewSSHTunnel (mkClientConfig "root" "secret") "example.org:22" "8080" "80" in
  let s := run_segments [(200, 0, [])] (callers c [[MClose; MReverseTunnel]]) in
  let s' := run_segments [(200, 1, [AClient (Ok (mkClient 0))])] s in
  closed (tun s') = true.
Proof.
  intros c s s'.
  apply (closed_is_never_reset c [[MClose; MReverseTunnel]] s s'
           (run_segments_reachable _ _) (run_segments_reachable _ _)).
  vm_compute. reflexivity.
Defined.


Lemma wait_groups_are_back_when_all_has_ended_instance :
  let c := NewSSHTunnel (mkClientConfig "root" "secret") "example.org:22" "8080" "80" in
  let s := run_segments
             [(200, 0, []); (200, 1, [AClient (Err EOF)]); (200, 0, [])]
             (callers c [[MClose; MReverseTunnel; MWait]]) in
  wg (tun s) = 0%Z /\ Forall (eq 0%Z) (wgs s).
Proof.
  intros c s.
  apply (wait_groups_are_back_when_all_has_ended c [[MClose; MReverseTunnel; MWait]] s).
  - simpl. lia.
  - apply run_segments_reachable.
  - vm_compute. repeat constructor.
Defined.

Lemma wait_blocks_while_a_done_is_ahead_instance :
  let c := NewSSHTunnel (mkClientConfig "root" "secret") "example.org:22" "8080" "80" in
  let s := run_segments [(200, 0, [])] (callers c [[MForwardTunnel; MWait]]) in
  threads s !! 1 = Some (Ready forwardSupervisor) /\
  (0 < wg (tun s))%Z /\
  step 0 AUnit s = None.
Proof.
  intros c s.
  assert (Hth : threads s !! 1 = Some (Ready forwardSupervisor)).
  { vm_compute. reflexivity. }
  split; [exact Hth|].
  destruct (wait_blocks_while_a_done_is_ahead c [[MForwardTunnel; MWait]] s 1
              (Ready forwardSupervisor)) as [Ha Hb].
  - simpl. lia.
  - apply run_segments_reachable.
  - exact Hth.
  - exact (supervisor_done_ahead Forward).
  - split; [exact Ha|]. eapply (Hb 0). vm_compute. reflexivity.
Defined.

Lemma proxy_task_is_never_stuck_instance :
  let c := NewSSHTunnel (mkClientConfig "root" "secret") "example.org:22" "8080" "80" in
  let s := run_segments
             [(200, 0, [ATime 1000; AErr None]); (200, 1, [ACopy 12 (Some EOF)])]
             (dialled Reverse c (mkConn 7) (mkConn 9)) in
  finished s \/ exists t a s', step t a s = Some s'.
Proof.
  intros c s.
  apply (proxy_task_is_never_stuck Reverse c (mkConn 7) (mkConn 9) s).
  - intros Hf. discriminate Hf.
  - apply run_segments_reachable.
Defined.

Lemma setters_take_effect_before_start_instance :
  let c := NewSSHTunnel (mkClientConfig "root" "secret") "example.org:22" "8080" "80" in
  let s := run_segments
             [(200, 0, []); (200, 1, [AClient (Err EOF); AListener (Err EOF)])]
             (callers c [[MSetAttemptSleepTime Second; MSetNoLogger; MForwardTunnel]]) in
  sleeps (history s) = [Second] /\ Forall (eq NoLogger) (loggers (history s)).
Proof.
  intros c s.
  destruct (setters_take_effect_before_start c Second NoLogger MSetNoLogger EOF EOF
              (or_intror (conj eq_refl eq_refl)) eq_refl eq_refl eq_refl eq_refl)
    as (_ & _ & Ha & Hb & _).
  exact (conj Ha Hb).
Defined.
